(** * n8n-nodes-fetch.ai: protocol digests and agent envelopes

    A shallow embedding of [nodes/Fetchai/utils/protocolUtils.ts] and
    [nodes/Fetchai/utils/messageUtils.ts], together with the parts of the
    JavaScript run time they call: strings of UTF-16 code units,
    [JSON.stringify] / [JSON.parse], [Buffer] conversions (UTF-8, base64),
    SHA-256, [Array.prototype.sort], the clock and the random source.

    Conventions.
    - A JavaScript string is the list of its UTF-16 code units, each a [Z]
      in [0, 65536).  A byte buffer is a list of [Z] in [0, 256).
    - A JavaScript number is a value of IEEE 754 binary64 ([Number.t]).
      The numbers that the source computes with (timestamps, TTLs, the
      envelope version, indices) are safe integers and are written as the
      integers [Z] that they are; in a JSON value a safe integer is [JNum]
      and every other number is [JDbl].
    - A call that may throw returns a [completion]. *)

From Stdlib Require Import String Ascii.
From Stdlib Require Import ZArith List Bool Lia ZifyBool Permutation Sorted.
From Stdlib Require QArith_base Qreduction Qcanon Zdivisibility.
Import ListNotations.
Open Scope Z_scope.

(** ** JavaScript strings *)

Definition jsstring := list Z.
Definition bytes := list Z.

(** ASCII literal as a list of code units. *)
Definition u (s : string) : jsstring :=
  map (fun a => Z.of_N (N_of_ascii a)) (list_ascii_of_string s).

Definition code_unit (c : Z) : Prop := 0 <= c < 65536.
Definition is_byte (b : Z) : Prop := 0 <= b < 256.
Definition valid_string (s : jsstring) : Prop := Forall code_unit s.

Definition in_range (lo hi c : Z) : bool := (lo <=? c) && (c <=? hi).

Fixpoint str_eqb (a b : jsstring) : bool :=
  match a, b with
  | [], [] => true
  | x :: a', y :: b' => (x =? y) && str_eqb a' b'
  | _, _ => false
  end.

(** Comparison of strings by code units, as [<] on strings and the default
    comparator of [Array.prototype.sort] do. *)
Fixpoint str_ltb (a b : jsstring) : bool :=
  match a, b with
  | _, [] => false
  | [], _ :: _ => true
  | x :: a', y :: b' => (x <? y) || ((x =? y) && str_ltb a' b')
  end.

Definition str_leb (a b : jsstring) : bool := negb (str_ltb b a).

(** A call either returns normally or throws. *)
Inductive completion (A : Type) : Type :=
| Normal (a : A)
| Throw (e : jsstring).
Arguments Normal {A} a.
Arguments Throw {A} e.

Definition bind {A B} (c : completion A) (k : A -> completion B) : completion B :=
  match c with
  | Normal a => k a
  | Throw e => Throw e
  end.

(** [try { body } catch { handler }] *)
Definition try_catch {A} (body : completion A) (handler : A) : A :=
  match body with
  | Normal a => a
  | Throw _ => handler
  end.

Ltac euclid := zify; Z.to_euclidean_division_equations; lia.

(** Decide by linear arithmetic a test that occurs in the goal. *)
Ltac decide_if :=
  match goal with
  | |- context [if ?c then _ else _] =>
      first [ replace c with true by lia | replace c with false by lia ]
  end.

(** ** Base64, as [Buffer.prototype.toString('base64')] and
    [Buffer.from(s, 'base64')] *)

Module Base64.

(** The alphabet [A-Za-z0-9+/]. *)
Definition enc (i : Z) : Z :=
  if i <? 26 then 65 + i
  else if i <? 52 then 71 + i
  else if i <? 62 then i - 4
  else if i =? 62 then 43 else 47.

(** [unbase64]: the value of a legal character; [+] and [-] are 62, [/] and
    [_] are 63. *)
Definition dec (c : Z) : option Z :=
  if in_range 65 90 c then Some (c - 65)
  else if in_range 97 122 c then Some (c - 71)
  else if in_range 48 57 c then Some (c + 4)
  else if (c =? 43) || (c =? 45) then Some 62
  else if (c =? 47) || (c =? 95) then Some 63
  else None.

Definition pad : Z := 61.

Fixpoint encode (bs : bytes) : jsstring :=
  match bs with
  | [] => []
  | [a] => [enc (a / 4); enc (a mod 4 * 16); pad; pad]
  | [a; b] => [enc (a / 4); enc (a mod 4 * 16 + b / 16); enc (b mod 16 * 4); pad]
  | a :: b :: c :: r =>
      enc (a / 4) :: enc (a mod 4 * 16 + b / 16)
        :: enc (b mod 16 * 4 + c / 64) :: enc (c mod 64) :: encode r
  end.

(** The legal characters before the first [=]; any other character is
    skipped.  The decoder reads a code unit as a byte, the low one. *)
Fixpoint sextets (s : jsstring) : list Z :=
  match s with
  | [] => []
  | c :: r =>
      let b := c mod 256 in
      match dec b with
      | Some v => v :: sextets r
      | None => if b =? pad then [] else sextets r
      end
  end.

(** A byte is written as soon as the sextets that hold it have been read. *)
Fixpoint groups (vs : list Z) : bytes :=
  match vs with
  | a :: b :: c :: d :: r =>
      (a * 4 + b / 16) :: (b mod 16 * 16 + c / 4) :: (c mod 4 * 64 + d) :: groups r
  | [a; b; c] => [a * 4 + b / 16; b mod 16 * 16 + c / 4]
  | [a; b] => [a * 4 + b / 16]
  | _ => []
  end.

Definition decode (s : jsstring) : bytes := groups (sextets s).

End Base64.

(** ** UTF-8, as [Buffer.from(s)] and [Buffer.prototype.toString('utf-8')] *)

Module Utf8.

Definition is_high (c : Z) : bool := in_range 0xD800 0xDBFF c.
Definition is_low (c : Z) : bool := in_range 0xDC00 0xDFFF c.
Definition is_cont (b : Z) : bool := in_range 0x80 0xBF b.

(** U+FFFD and its encoding. *)
Definition replacement_char : Z := 0xFFFD.
Definition replacement : bytes := [0xEF; 0xBF; 0xBD].

Definition encode_scalar (cp : Z) : bytes :=
  if cp <? 0x80 then [cp]
  else if cp <? 0x800 then [0xC0 + cp / 64; 0x80 + cp mod 64]
  else if cp <? 0x10000 then
    [0xE0 + cp / 4096; 0x80 + cp / 64 mod 64; 0x80 + cp mod 64]
  else
    [0xF0 + cp / 262144; 0x80 + cp / 4096 mod 64; 0x80 + cp / 64 mod 64;
     0x80 + cp mod 64].

Definition pair_code_point (hi lo : Z) : Z :=
  0x10000 + (hi - 0xD800) * 1024 + (lo - 0xDC00).

(** A surrogate pair is one code point; a lone surrogate is written as
    U+FFFD. *)
Fixpoint encode (s : jsstring) : bytes :=
  match s with
  | [] => []
  | c :: r =>
      if is_high c then
        match r with
        | d :: r' =>
            if is_low d then encode_scalar (pair_code_point c d) ++ encode r'
            else replacement ++ encode r
        | [] => replacement
        end
      else if is_low c then replacement ++ encode r
      else encode_scalar c ++ encode r
  end.

Definition to_units (cp : Z) : jsstring :=
  if cp <? 0x10000 then [cp]
  else [0xD800 + (cp - 0x10000) / 1024; 0xDC00 + (cp - 0x10000) mod 1024].

(** Bounds of the second byte, by lead byte (no overlong forms, no
    surrogates, nothing above U+10FFFF). *)
Definition lower (b1 : Z) : Z :=
  if b1 =? 0xE0 then 0xA0 else if b1 =? 0xF0 then 0x90 else 0x80.
Definition upper (b1 : Z) : Z :=
  if b1 =? 0xED then 0x9F else if b1 =? 0xF4 then 0x8F else 0xBF.

(** Every maximal ill-formed prefix becomes one U+FFFD, and decoding resumes
    at the byte that broke the sequence. *)
Fixpoint decode (bs : bytes) : jsstring :=
  match bs with
  | [] => []
  | b1 :: r1 =>
      if b1 <? 0x80 then b1 :: decode r1
      else if in_range 0xC2 0xDF b1 then
        match r1 with
        | b2 :: r2 =>
            if is_cont b2 then ((b1 - 0xC0) * 64 + (b2 - 0x80)) :: decode r2
            else replacement_char :: decode r1
        | [] => [replacement_char]
        end
      else if in_range 0xE0 0xEF b1 then
        match r1 with
        | b2 :: r2 =>
            if in_range (lower b1) (upper b1) b2 then
              match r2 with
              | b3 :: r3 =>
                  if is_cont b3 then
                    ((b1 - 0xE0) * 4096 + (b2 - 0x80) * 64 + (b3 - 0x80)) :: decode r3
                  else replacement_char :: decode r2
              | [] => [replacement_char]
              end
            else replacement_char :: decode r1
        | [] => [replacement_char]
        end
      else if in_range 0xF0 0xF4 b1 then
        match r1 with
        | b2 :: r2 =>
            if in_range (lower b1) (upper b1) b2 then
              match r2 with
              | b3 :: r3 =>
                  if is_cont b3 then
                    match r3 with
                    | b4 :: r4 =>
                        if is_cont b4 then
                          to_units ((b1 - 0xF0) * 262144 + (b2 - 0x80) * 4096
                                    + (b3 - 0x80) * 64 + (b4 - 0x80)) ++ decode r4
                        else replacement_char :: decode r3
                    | [] => [replacement_char]
                    end
                  else replacement_char :: decode r2
              | [] => [replacement_char]
              end
            else replacement_char :: decode r1
        | [] => [replacement_char]
        end
      else replacement_char :: decode r1
  end.

(** No lone surrogate: every high surrogate is followed by a low one and
    every low one follows a high one. *)
Fixpoint well_formed (s : jsstring) : bool :=
  match s with
  | [] => true
  | c :: r =>
      if is_high c then
        match r with
        | d :: r' => is_low d && well_formed r'
        | [] => false
        end
      else negb (is_low c) && in_range 0 0xFFFF c && well_formed r
  end.

End Utf8.

(** ** SHA-256 (FIPS 180-4), as [crypto.createHash('sha256')] *)

Module Sha256.

Definition mask32 : Z := 0xFFFFFFFF.
Definition add32 (a b : Z) : Z := (a + b) mod 4294967296.
Definition rotr (n x : Z) : Z :=
  Z.lor (Z.shiftr x n) (Z.land (Z.shiftl x (32 - n)) mask32).
Definition ch (x y z : Z) : Z :=
  Z.lxor (Z.land x y) (Z.land (Z.lxor x mask32) z).
Definition maj (x y z : Z) : Z :=
  Z.lxor (Z.lxor (Z.land x y) (Z.land x z)) (Z.land y z).
Definition big_sigma0 (x : Z) : Z :=
  Z.lxor (Z.lxor (rotr 2 x) (rotr 13 x)) (rotr 22 x).
Definition big_sigma1 (x : Z) : Z :=
  Z.lxor (Z.lxor (rotr 6 x) (rotr 11 x)) (rotr 25 x).
Definition small_sigma0 (x : Z) : Z :=
  Z.lxor (Z.lxor (rotr 7 x) (rotr 18 x)) (Z.shiftr x 3).
Definition small_sigma1 (x : Z) : Z :=
  Z.lxor (Z.lxor (rotr 17 x) (rotr 19 x)) (Z.shiftr x 10).

(** The first primes. *)
Definition is_prime (n : nat) : bool :=
  forallb (fun d => negb (Nat.eqb (Nat.modulo n d) 0)) (seq 2 (n - 2)).

Definition primes (count : nat) : list Z :=
  map Z.of_nat (firstn count (filter is_prime (seq 2 400))).

(** The integer cube root, bit by bit from the top. *)
Fixpoint cube_root (bits : nat) (n r : Z) : Z :=
  match bits with
  | O => r
  | S b =>
      let r' := r + 2 ^ Z.of_nat b in
      if r' * r' * r' <=? n then cube_root b n r' else cube_root b n r
  end.

(** The first 32 bits of the fractional parts of the cube roots of the
    first 64 primes. *)
Definition round_constants : list Z :=
  Eval vm_compute in
    map (fun p => cube_root 40 (p * 2 ^ 96) 0 mod 2 ^ 32) (primes 64).

(** The first 32 bits of the fractional parts of the square roots of the
    first 8 primes. *)
Definition initial_hash : list Z :=
  Eval vm_compute in map (fun p => Z.sqrt (p * 2 ^ 64) mod 2 ^ 32) (primes 8).

(** The message, a [1] bit, zero bits up to 56 modulo 64 bytes, and the bit
    length on 8 bytes. *)
Definition big_endian (width : nat) (n : Z) : bytes :=
  map (fun i => Z.shiftr n (8 * Z.of_nat (width - 1 - i)) mod 256) (seq 0 width).

Definition pad (msg : bytes) : bytes :=
  let len := Z.of_nat (List.length msg) in
  let zeros := Z.to_nat ((55 - len) mod 64) in
  msg ++ 0x80 :: repeat 0 zeros ++ big_endian 8 (8 * len).

Fixpoint words (bs : bytes) : list Z :=
  match bs with
  | a :: b :: c :: d :: r => (((a * 256 + b) * 256 + c) * 256 + d) :: words r
  | _ => []
  end.

Fixpoint blocks (n : nat) (ws : list Z) : list (list Z) :=
  match n with
  | O => []
  | S n' => firstn 16 ws :: blocks n' (skipn 16 ws)
  end.

(** The message schedule, most recent word first. *)
Fixpoint schedule (n : nat) (rev_w : list Z) : list Z :=
  match n with
  | O => rev_w
  | S n' =>
      let w :=
        add32 (add32 (small_sigma1 (nth 1 rev_w 0)) (nth 6 rev_w 0))
              (add32 (small_sigma0 (nth 14 rev_w 0)) (nth 15 rev_w 0)) in
      schedule n' (w :: rev_w)
  end.

Definition round (st : list Z) (kw : Z * Z) : list Z :=
  match st with
  | [a; b; c; d; e; f; g; h] =>
      let t1 :=
        add32 (add32 (add32 h (big_sigma1 e)) (ch e f g)) (add32 (fst kw) (snd kw)) in
      let t2 := add32 (big_sigma0 a) (maj a b c) in
      [add32 t1 t2; a; b; c; add32 d t1; e; f; g]
  | _ => st
  end.

Definition compress (h : list Z) (block : list Z) : list Z :=
  let w := rev (schedule 48 (rev block)) in
  let st := fold_left round (combine round_constants w) h in
  map (fun p => add32 (fst p) (snd p)) (combine h st).

Definition digest (msg : bytes) : bytes :=
  let padded := pad msg in
  let h := fold_left compress
             (blocks (Nat.div (List.length padded) 64) (words padded)) initial_hash in
  flat_map (big_endian 4) h.

End Sha256.

(** ** Numbers

    The Number type of ECMAScript: the values of IEEE 754 binary64, with
    the conversion from a real to the nearest value, [Number::toString] in
    base 10 and the number literals of JSON. *)

Definition is_digit (c : Z) : bool := in_range 48 57 c.

Module Number.

(** A finite value other than a zero is [m * 2 ^ e] with [m] odd, up to its
    sign; every value has one such form. *)
Inductive t : Type :=
| Finite (negative : bool) (m : positive) (e : Z)
| Zero (negative : bool)
| Infinity (negative : bool)
| NaN.

Definition eqb (a b : t) : bool :=
  match a, b with
  | Finite s m e, Finite s' m' e' => Bool.eqb s s' && Pos.eqb m m' && (e =? e')
  | Zero s, Zero s' => Bool.eqb s s'
  | Infinity s, Infinity s' => Bool.eqb s s'
  | NaN, NaN => true
  | _, _ => false
  end.

(** [===] on Number values. *)
Definition equal (x y : t) : bool :=
  match x, y with
  | NaN, _ | _, NaN => false
  | Zero _, Zero _ => true
  | _, _ => eqb x y
  end.

Definition is_finite (x : t) : bool :=
  match x with
  | Finite _ _ _ | Zero _ => true
  | _ => false
  end.

Definition is_odd (m : positive) : bool :=
  match m with
  | xO _ => false
  | _ => true
  end.

(** The finite values of the format: 53 bits of significand, and exponents
    from the subnormal numbers up to below [2 ^ 1024]. *)
Definition valid (x : t) : bool :=
  match x with
  | Finite _ m e =>
      is_odd m && (Z.log2 (Z.pos m) <? 53) && (- 1074 <=? e)
      && (Z.log2 (Z.pos m) + e <? 1024)
  | _ => true
  end.

(** *** The Number value for a real

    The nearest value, ties to the even significand; a magnitude that
    rounds to [2 ^ 1024] or more is infinite, and one that rounds to nothing
    is a zero. *)

(** [N / D] over [2 ^ k], as a fraction. *)
Definition scale2 (N D k : Z) : Z * Z :=
  if 0 <=? k then (N, D * 2 ^ k) else (N * 2 ^ (- k), D).

(** The exponent [e] with [2 ^ e <= N / D < 2 ^ (e + 1)]. *)
Definition floor_log2 (N D : Z) : Z :=
  let e0 := Z.log2 N - Z.log2 D in
  let (a, b) := scale2 N D e0 in
  if b <=? a then e0 else e0 - 1.

(** The integer nearest to [a / b], the even one of two. *)
Definition round_half_even (a b : Z) : Z :=
  let q := a / b in
  let r := a mod b in
  if 2 * r <? b then q
  else if b <? 2 * r then q + 1
  else if Z.even q then q else q + 1.

(** [p * 2 ^ e] with an odd significand. *)
Fixpoint strip (p : positive) (e : Z) : positive * Z :=
  match p with
  | xO p' => strip p' (e + 1)
  | _ => (p, e)
  end.

(** The value for [N / D], both positive: the unit of the last place is
    [2 ^ ebin], 52 places below the leading bit and not below [2 ^ -1074]. *)
Definition of_ratio (negative : bool) (N D : Z) : t :=
  let ebin := Z.max (floor_log2 N D - 52) (- 1074) in
  let (a, b) := scale2 N D ebin in
  match round_half_even a b with
  | Z.pos p =>
      let (m, e) := strip p ebin in
      if Z.log2 (Z.pos m) + e <? 1024 then Finite negative m e
      else Infinity negative
  | _ => Zero negative
  end.

(** The value with the sign [negative] for the magnitude [q]. *)
Definition round (negative : bool) (q : QArith_base.Q) : t :=
  let r := Qreduction.Qred q in
  match QArith_base.Qnum r with
  | Z.pos n => of_ratio negative (Z.pos n) (Z.pos (QArith_base.Qden r))
  | _ => Zero negative
  end.

(** [m * 2 ^ e] *)
Definition exact (m : positive) (e : Z) : QArith_base.Q :=
  if 0 <=? e then QArith_base.Qmake (Z.pos m * 2 ^ e) 1
  else QArith_base.Qmake (Z.pos m) (Z.to_pos (2 ^ (- e))).

(** [M * 10 ^ E] *)
Definition decimal (M E : Z) : QArith_base.Q :=
  if 0 <=? E then QArith_base.Qmake (M * 10 ^ E) 1
  else QArith_base.Qmake M (Z.to_pos (10 ^ (- E))).

(** The Number value for an integer. *)
Definition of_Z (n : Z) : t :=
  match n with
  | 0 => Zero false
  | Z.pos _ => round false (decimal n 0)
  | Z.neg p => round true (decimal (Z.pos p) 0)
  end.

(** The integer that a Number value is, when that is a safe integer and
    the value is not the negative zero. *)
Definition to_safe_integer (x : t) : option Z :=
  match x with
  | Zero false => Some 0
  | Finite negative m e =>
      if (0 <=? e) && (Z.pos m * 2 ^ e <=? 9007199254740991)
      then Some (if negative then - (Z.pos m * 2 ^ e) else Z.pos m * 2 ^ e)
      else None
  | _ => None
  end.

(** *** [Number::toString], radix 10 *)

Fixpoint count_digits (fuel : nat) (p : Z) : Z :=
  match fuel with
  | O => 0
  | S f => if p <? 10 then 1 else 1 + count_digits f (p / 10)
  end.

(** The number of decimal digits of [p]. *)
Definition ndigits (p : Z) : Z := count_digits (S (Z.to_nat (Z.log2 p))) p.

(** The last [k] decimal digits of [s]. *)
Fixpoint digits (k : nat) (s : Z) : jsstring :=
  match k with
  | O => []
  | S k' => digits k' (s / 10) ++ [48 + s mod 10]
  end.

(** The numbers of [k] digits next to the first [k] of the [K] digits [D],
    the nearer one first, the even one first of two as near. *)
Definition candidates (D K k : Z) : list Z :=
  let p := 10 ^ (K - k) in
  let lo := D / p in
  let r := D mod p in
  if (2 * r <? p) || ((2 * r =? p) && Z.even lo) then [lo; lo + 1] else [lo + 1; lo].

(** The decimal [s * 10 ^ (n - k)] denotes the value [m * 2 ^ e]. *)
Definition accepts (m : positive) (e : Z) (n k s : Z) : bool :=
  eqb (round false (decimal s (n - k))) (Finite false m e).

(** The least number of digits [k], from [k] on, for which a number [s] of
    [k] digits denotes the value, with the nearest such [s]; the [K] digits
    [D] of the value itself when no fewer do. *)
Fixpoint search (m : positive) (e D K n : Z) (fuel : nat) (k : Z) : Z * Z * Z :=
  match fuel with
  | O => (D, n, K)
  | S f =>
      match find (accepts m e n k) (candidates D K k) with
      | Some s => if s =? 10 ^ k then (1, n + 1, 1) else (s, n, k)
      | None => search m e D K n f (k + 1)
      end
  end.

(** The integers [s], [n] and [k] of [Number::toString]: [k] is as small as
    possible with [10 ^ (k - 1) <= s < 10 ^ k] and [s * 10 ^ (n - k)]
    denoting [m * 2 ^ e], which is [D * 10 ^ T] exactly. *)
Definition shortest (m : positive) (e : Z) : Z * Z * Z :=
  let D := if 0 <=? e then Z.pos m * 2 ^ e else Z.pos m * 5 ^ (- e) in
  let T := Z.min e 0 in
  let K := ndigits D in
  search m e D K (K + T) (Z.to_nat (K - 1)) 1.

(** A decimal literal: the digits before the point, the digits after it if
    there are any, and the exponent if there is one. *)
Definition literal (integer fraction : jsstring) (exponent : option Z) : jsstring :=
  integer
    ++ match fraction with
       | [] => []
       | _ => 46 :: fraction
       end
    ++ match exponent with
       | Some x =>
           101 :: (if x <? 0 then 45 else 43)
               :: digits (Z.to_nat (ndigits (Z.abs x))) (Z.abs x)
       | None => []
       end.

(** The [k] digits [s] of a number between [10 ^ (n - 1)] and [10 ^ n]:
    followed by zeros up to [10 ^ 21], with a point inside them, after
    [0.] and zeros down to [10 ^ -7], and with an exponent otherwise. *)
Definition format (s n k : Z) : jsstring :=
  let ds := digits (Z.to_nat k) s in
  if (k <=? n) && (n <=? 21) then
    literal (ds ++ repeat 48 (Z.to_nat (n - k))) [] None
  else if (0 <? n) && (n <=? 21) then
    literal (firstn (Z.to_nat n) ds) (skipn (Z.to_nat n) ds) None
  else if (- 6 <? n) && (n <=? 0) then
    literal [48] (repeat 48 (Z.to_nat (- n)) ++ ds) None
  else literal (firstn 1 ds) (skipn 1 ds) (Some (n - 1)).

Definition sign (negative : bool) : jsstring :=
  if negative then [45] else [].

Definition to_string (x : t) : jsstring :=
  match x with
  | NaN => u "NaN"
  | Zero _ => u "0"
  | Infinity false => u "Infinity"
  | Infinity true => u "-Infinity"
  | Finite negative m e =>
      let '(s, n, k) := shortest m e in
      sign negative ++ format s n k
  end.

(** *** The number literals of JSON *)

(** The longest prefix of digits, and what follows it. *)
Fixpoint span_digits (s : jsstring) : jsstring * jsstring :=
  match s with
  | [] => ([], [])
  | c :: r =>
      if is_digit c then let (ds, rest) := span_digits r in (c :: ds, rest)
      else ([], s)
  end.

(** The integer that a sequence of digits denotes. *)
Definition value (ds : jsstring) : Z :=
  fold_left (fun acc c => acc * 10 + (c - 48)) ds 0.

Definition all_digits (ds : jsstring) : Prop :=
  Forall (fun c => is_digit c = true) ds.

(** A fraction: a point and at least one digit, or nothing. *)
Definition parse_fraction (s : jsstring) : option (jsstring * jsstring) :=
  match s with
  | c :: r =>
      if c =? 46 then
        match span_digits r with
        | ([], _) => None
        | (fs, rest) => Some (fs, rest)
        end
      else Some ([], s)
  | [] => Some ([], [])
  end.

(** An exponent: [e] or [E], a sign or none, and at least one digit; or
    nothing. *)
Definition parse_exponent (s : jsstring) : option (Z * jsstring) :=
  match s with
  | c :: r =>
      if (c =? 101) || (c =? 69) then
        let (negative, r') :=
          match r with
          | c' :: r'' =>
              if c' =? 45 then (true, r'')
              else if c' =? 43 then (false, r'') else (false, r)
          | [] => (false, r)
          end in
        match span_digits r' with
        | ([], _) => None
        | (ds, rest) => Some (if negative then - value ds else value ds, rest)
        end
      else Some (0, s)
  | [] => Some (0, [])
  end.

(** A number literal at the head of a text: a minus sign or none, [0] or
    digits that do not start with [0], a fraction and an exponent.  Its
    value is the Number value for the decimal that it writes; what follows
    the literal is returned with it. *)
Definition parse (s : jsstring) : option (t * jsstring) :=
  let (negative, s1) :=
    match s with
    | c :: r => if c =? 45 then (true, r) else (false, s)
    | [] => (false, s)
    end in
  match span_digits s1 with
  | ([], _) => None
  | (d :: ds, r1) =>
      if (d =? 48) && negb (Nat.eqb (List.length ds) 0) then None
      else
        match parse_fraction r1 with
        | None => None
        | Some (fs, r2) =>
            match parse_exponent r2 with
            | None => None
            | Some (x, r3) =>
                let M := value (d :: ds ++ fs) in
                let E := x - Z.of_nat (List.length fs) in
                Some (if M =? 0 then Zero negative
                      else round negative (decimal M E), r3)
            end
        end
  end.

End Number.

(** ** JSON values, [JSON.stringify] and [JSON.parse] *)

Module Json.

(** A number is [JNum n] when it is the safe integer [n], and [JDbl x] when
    it is any other Number value [x]: a fraction, a magnitude beyond the
    safe integers, the negative zero.  ([JNum n] with [n] beyond the safe
    integers stands for the Number value for [n].)

    An object is the list of its own properties in property order: array
    indices in ascending order first, then the other keys in the order in
    which they were created. *)
#[warnings="-register-all"]
Inductive json : Type :=
| JNull
| JBool (b : bool)
| JNum (n : Z)
| JDbl (x : Number.t)
| JStr (s : jsstring)
| JArr (l : list json)
| JObj (o : list (jsstring * json)).

Definition record := list (jsstring * json).

(** *** Numbers *)

(** [Number::toString] of the Number value for an integer. *)
Definition number_to_string (n : Z) : jsstring :=
  Number.to_string (Number.of_Z n).

(** A Number as [JSON.stringify] writes it: [null] when it is not finite. *)
Definition number_text (x : Number.t) : jsstring :=
  if Number.is_finite x then Number.to_string x else u "null".

(** A Number as a value. *)
Definition of_number (x : Number.t) : json :=
  match Number.to_safe_integer x with
  | Some n => JNum n
  | None => JDbl x
  end.

(** The characters that continue a number literal into a fraction or an
    exponent. *)
Definition is_fraction_or_exponent (c : Z) : bool :=
  (c =? 46) || (c =? 101) || (c =? 69).

(** *** Strings *)

Definition hex_digit (n : Z) : Z := if n <? 10 then 48 + n else 87 + n.

Definition hex_value (c : Z) : option Z :=
  if in_range 48 57 c then Some (c - 48)
  else if in_range 97 102 c then Some (c - 87)
  else if in_range 65 70 c then Some (c - 55)
  else None.

(** [\uXXXX], in lower case. *)
Definition unicode_escape (c : Z) : jsstring :=
  [92; 117; hex_digit (c / 4096); hex_digit (c / 256 mod 16);
   hex_digit (c / 16 mod 16); hex_digit (c mod 16)].

Definition quote_unit (c : Z) : jsstring :=
  if c =? 8 then [92; 98]
  else if c =? 9 then [92; 116]
  else if c =? 10 then [92; 110]
  else if c =? 12 then [92; 102]
  else if c =? 13 then [92; 114]
  else if c =? 34 then [92; 34]
  else if c =? 92 then [92; 92]
  else if c <? 32 then unicode_escape c
  else [c].

(** [QuoteJSONString] walks the code points: a surrogate pair is copied, a
    lone surrogate is escaped. *)
Fixpoint quote_units (s : jsstring) : jsstring :=
  match s with
  | [] => []
  | c :: r =>
      if Utf8.is_high c then
        match r with
        | d :: r' =>
            if Utf8.is_low d then c :: d :: quote_units r'
            else unicode_escape c ++ quote_units r
        | [] => unicode_escape c
        end
      else if Utf8.is_low c then unicode_escape c ++ quote_units r
      else quote_unit c ++ quote_units r
  end.

Definition quote (s : jsstring) : jsstring := 34 :: quote_units s ++ [34].

Definition simple_escape (e : Z) : option Z :=
  if e =? 34 then Some 34
  else if e =? 92 then Some 92
  else if e =? 47 then Some 47
  else if e =? 98 then Some 8
  else if e =? 102 then Some 12
  else if e =? 110 then Some 10
  else if e =? 114 then Some 13
  else if e =? 116 then Some 9
  else None.

Definition hex4 (a b c d : Z) : option Z :=
  match hex_value a, hex_value b, hex_value c, hex_value d with
  | Some x, Some y, Some z, Some w => Some (x * 4096 + y * 256 + z * 16 + w)
  | _, _, _, _ => None
  end.

Definition prepend (c : Z) (p : option (jsstring * jsstring)) :=
  match p with
  | Some (s, rest) => Some (c :: s, rest)
  | None => None
  end.

(** The characters of a string literal after its opening quote, up to and
    including the closing quote. *)
Fixpoint parse_chars (s : jsstring) : option (jsstring * jsstring) :=
  match s with
  | [] => None
  | c :: r =>
      if c =? 34 then Some ([], r)
      else if c =? 92 then
        match r with
        | [] => None
        | e :: r' =>
            if e =? 117 then
              match r' with
              | h1 :: h2 :: h3 :: h4 :: r'' =>
                  match hex4 h1 h2 h3 h4 with
                  | Some v => prepend v (parse_chars r'')
                  | None => None
                  end
              | _ => None
              end
            else
              match simple_escape e with
              | Some v => prepend v (parse_chars r')
              | None => None
              end
        end
      else if c <? 32 then None
      else prepend c (parse_chars r)
  end.

(** *** Objects *)

Fixpoint has_key (k : jsstring) (o : record) : bool :=
  match o with
  | [] => false
  | (k', _) :: r => str_eqb k k' || has_key k r
  end.

Fixpoint get (k : jsstring) (o : record) : option json :=
  match o with
  | [] => None
  | (k', v) :: r => if str_eqb k k' then Some v else get k r
  end.

Fixpoint replace_value (k : jsstring) (v : json) (o : record) : record :=
  match o with
  | [] => []
  | (k', v') :: r =>
      if str_eqb k k' then (k', v) :: r else (k', v') :: replace_value k v r
  end.

Fixpoint digits_value (acc : Z) (s : jsstring) : option Z :=
  match s with
  | [] => Some acc
  | c :: r => if is_digit c then digits_value (acc * 10 + (c - 48)) r else None
  end.

(** An array index is the canonical decimal form of an integer below
    [2^32 - 1]. *)
Definition array_index (k : jsstring) : option Z :=
  match k with
  | [] => None
  | c :: r =>
      if (c =? 48) && negb (Nat.eqb (List.length r) 0) then None
      else
        match digits_value 0 k with
        | Some n => if n <? 4294967295 then Some n else None
        | None => None
        end
  end.

Fixpoint insert_index (n : Z) (k : jsstring) (v : json) (o : record) : record :=
  match o with
  | [] => [(k, v)]
  | (k', v') :: r =>
      match array_index k' with
      | Some m => if m <? n then (k', v') :: insert_index n k v r else (k, v) :: o
      | None => (k, v) :: o
      end
  end.

(** [CreateDataProperty]: an existing property keeps its place; a new array
    index goes among the indices; any other new key goes last. *)
Definition define (o : record) (k : jsstring) (v : json) : record :=
  if has_key k o then replace_value k v o
  else
    match array_index k with
    | Some n => insert_index n k v o
    | None => o ++ [(k, v)]
    end.

Definition proto_key : jsstring := u "__proto__".

(** [o[k] = v] on a plain object: as [define], but the key [__proto__]
    reaches the setter of [Object.prototype] and creates no own property. *)
Definition assign (o : record) (k : jsstring) (v : json) : record :=
  if str_eqb k proto_key then o else define o k v.

Definition from_entries (l : record) : record :=
  fold_left (fun o kv => define o (fst kv) (snd kv)) l [].

(** *** [JSON.stringify] *)

Fixpoint join (sep : Z) (l : list jsstring) : jsstring :=
  match l with
  | [] => []
  | [x] => x
  | x :: r => x ++ sep :: join sep r
  end.

(** A property, as [key:value]. *)
Definition member (value : json -> jsstring) (kv : jsstring * json) : jsstring :=
  quote (fst kv) ++ 58 :: value (snd kv).

Fixpoint stringify (v : json) : jsstring :=
  match v with
  | JNull => u "null"
  | JBool true => u "true"
  | JBool false => u "false"
  | JNum n => number_text (Number.of_Z n)
  | JDbl x => number_text x
  | JStr s => quote s
  | JArr l => 91 :: join 44 (map stringify l) ++ [93]
  | JObj o =>
      123 :: join 44 (map (member stringify) o) ++ [125]
  end.

(** *** [JSON.parse] *)

Definition is_ws (c : Z) : bool :=
  (c =? 32) || (c =? 9) || (c =? 10) || (c =? 13).

Fixpoint skip_ws (s : jsstring) : jsstring :=
  match s with
  | c :: r => if is_ws c then skip_ws r else s
  | [] => []
  end.

Fixpoint strip_prefix (p s : jsstring) : option jsstring :=
  match p, s with
  | [], _ => Some s
  | x :: p', y :: s' => if x =? y then strip_prefix p' s' else None
  | _ :: _, [] => None
  end.

Definition literal (p : jsstring) (v : json) (s : jsstring) : option (json * jsstring) :=
  match strip_prefix p s with
  | Some rest => Some (v, rest)
  | None => None
  end.

(** The text after the next character when, white space apart, that
    character is [c]. *)
Definition expect (c : Z) (s : jsstring) : option jsstring :=
  match skip_ws s with
  | c' :: r => if c' =? c then Some r else None
  | [] => None
  end.

(** Recursive descent; [fuel] bounds the number of nested calls and is
    taken larger than the length of the text. *)
Fixpoint parse_value (fuel : nat) (s : jsstring) {struct fuel}
  : option (json * jsstring) :=
  match fuel with
  | O => None
  | S f =>
      match skip_ws s with
      | [] => None
      | c :: r =>
          if c =? 123 then
            match expect 125 r with
            | Some r' => Some (JObj [], r')
            | None =>
                match parse_members f r with
                | Some (l, r') => Some (JObj (from_entries l), r')
                | None => None
                end
            end
          else if c =? 91 then
            match expect 93 r with
            | Some r' => Some (JArr [], r')
            | None =>
                match parse_elements f r with
                | Some (l, r') => Some (JArr l, r')
                | None => None
                end
            end
          else if c =? 34 then
            match parse_chars r with
            | Some (str, r') => Some (JStr str, r')
            | None => None
            end
          else if c =? 116 then literal (u "true") (JBool true) (c :: r)
          else if c =? 102 then literal (u "false") (JBool false) (c :: r)
          else if c =? 110 then literal (u "null") JNull (c :: r)
          else
            match Number.parse (c :: r) with
            | Some (x, r') => Some (of_number x, r')
            | None => None
            end
      end
  end

with parse_elements (fuel : nat) (s : jsstring) {struct fuel}
  : option (list json * jsstring) :=
  match fuel with
  | O => None
  | S f =>
      match parse_value f s with
      | Some (v, r) =>
          match skip_ws r with
          | c :: r' =>
              if c =? 44 then
                match parse_elements f r' with
                | Some (l, r'') => Some (v :: l, r'')
                | None => None
                end
              else if c =? 93 then Some ([v], r')
              else None
          | [] => None
          end
      | None => None
      end
  end

with parse_members (fuel : nat) (s : jsstring) {struct fuel}
  : option (record * jsstring) :=
  match fuel with
  | O => None
  | S f =>
      match expect 34 s with
      | Some r =>
          match parse_chars r with
          | Some (k, r1) =>
              match expect 58 r1 with
              | Some r2 =>
                  match parse_value f r2 with
                  | Some (v, r3) =>
                      match skip_ws r3 with
                      | c :: r4 =>
                          if c =? 44 then
                            match parse_members f r4 with
                            | Some (l, r5) => Some ((k, v) :: l, r5)
                            | None => None
                            end
                          else if c =? 125 then Some ([(k, v)], r4)
                          else None
                      | [] => None
                      end
                  | None => None
                  end
              | None => None
              end
          | None => None
          end
      | None => None
      end
  end.

Definition syntax_error : jsstring := u "SyntaxError".

Definition parse (s : jsstring) : completion json :=
  match parse_value (S (List.length s)) s with
  | Some (v, rest) =>
      match skip_ws rest with
      | [] => Normal v
      | _ :: _ => Throw syntax_error
      end
  | None => Throw syntax_error
  end.

(** *** Values that [JSON.stringify] and [JSON.parse] carry faithfully *)

Definition safe_integer (n : Z) : bool :=
  (- 9007199254740991 <=? n) && (n <=? 9007199254740991).

Definition valid_stringb (s : jsstring) : bool := forallb (in_range 0 65535) s.

Fixpoint distinct_keys (l : list jsstring) : bool :=
  match l with
  | [] => true
  | k :: r => negb (existsb (str_eqb k) r) && distinct_keys r
  end.

(** Property order: indices ascending, then the other keys. *)
Fixpoint key_order (l : list jsstring) : bool :=
  match l with
  | [] => true
  | k1 :: r =>
      match r with
      | [] => true
      | k2 :: _ =>
          match array_index k1, array_index k2 with
          | Some a, Some b => a <? b
          | Some _, None => true
          | None, Some _ => false
          | None, None => true
          end && key_order r
      end
  end.

Definition object_ok (o : record) : bool :=
  distinct_keys (map fst o) && key_order (map fst o).

(** A finite Number other than the zeros and the safe integers. *)
Definition proper_double (x : Number.t) : bool :=
  match x with
  | Number.Finite _ _ _ =>
      Number.valid x
      && match Number.to_safe_integer x with
         | Some _ => false
         | None => true
         end
  | _ => false
  end.

(** A value that [JSON.parse] gives back from the text that
    [JSON.stringify] writes for it: every number is finite and is not the
    negative zero, a safe integer being [JNum]; strings are sequences of
    code units; and every object lists distinct keys in property order (as
    every JavaScript object does). *)
Fixpoint serializable (v : json) : bool :=
  match v with
  | JNull => true
  | JBool _ => true
  | JNum n => safe_integer n
  | JDbl x => proper_double x
  | JStr s => valid_stringb s
  | JArr l => forallb serializable l
  | JObj o =>
      forallb (fun kv => valid_stringb (fst kv) && serializable (snd kv)) o
      && object_ok o
  end.

(** Number of nested parser calls that reading a value back takes. *)
Fixpoint cost (v : json) : nat :=
  match v with
  | JArr l => S (list_sum (map (fun x => S (cost x)) l))
  | JObj o => S (list_sum (map (fun kv => S (cost (snd kv))) o))
  | _ => O
  end.

(** *** What reading a text back means *)

(** What may follow a number literal. *)
Definition number_end (rest : jsstring) : Prop :=
  match rest with
  | [] => True
  | c :: _ => is_digit c = false /\ is_fraction_or_exponent c = false
  end.

Definition reads_back (v : json) : Prop :=
  serializable v = true ->
  forall fuel rest, (cost v < fuel)%nat -> number_end rest ->
    parse_value fuel (stringify v ++ rest) = Some (v, rest).

End Json.

Import Json.

(** ** Values at run time

    A property read gives [undefined], here [None], when the property is
    absent. *)

Declare Scope completion_scope.
Delimit Scope completion_scope with completion.
Notation "x <- c ;; k" := (bind c (fun x => k))
  (at level 61, c at next level, right associativity) : completion_scope.

Definition type_error : jsstring := u "TypeError".

(** [v.k] for the keys read by the validators.  None of them is a property
    of a string, a number, a boolean or an array; reading a property of
    [null] throws. *)
Definition property (v : json) (k : jsstring) : completion (option json) :=
  match v with
  | JObj o => Normal (get k o)
  | JNull => Throw type_error
  | _ => Normal None
  end.

Definition truthy (v : option json) : bool :=
  match v with
  | None => false
  | Some JNull => false
  | Some (JBool b) => b
  | Some (JNum n) => negb (n =? 0)
  | Some (JDbl x) =>
      match x with
      | Number.Zero _ | Number.NaN => false
      | _ => true
      end
  | Some (JStr s) => negb (str_eqb s [])
  | Some (JArr _) => true
  | Some (JObj _) => true
  end.

Definition is_string (v : option json) : bool :=
  match v with Some (JStr _) => true | _ => false end.

Definition is_array (v : option json) : bool :=
  match v with Some (JArr _) => true | _ => false end.

(** [typeof v === 'object'] *)
Definition is_object (v : option json) : bool :=
  match v with Some (JObj _) | Some (JArr _) | Some JNull => true | _ => false end.

(** The result of a validator. *)
Record validation : Type := { valid : bool; errors : list jsstring }.

(** [v || fallback] *)
Definition value_or (v : option json) (fallback : json) : json :=
  match v with
  | Some x => if truthy v then x else fallback
  | None => fallback
  end.

(** [String(v)], as a template literal does. *)
Fixpoint to_string (v : json) : jsstring :=
  match v with
  | JNull => u "null"
  | JBool true => u "true"
  | JBool false => u "false"
  | JNum n => number_to_string n
  | JDbl x => Number.to_string x
  | JStr s => s
  | JArr l =>
      join 44 (map (fun x => match x with JNull => [] | _ => to_string x end) l)
  | JObj _ => u "[object Object]"
  end.

(** ** [Array.prototype.sort]

    The sort is stable.  With a comparator that is consistent on the elements
    of the array every stable sort returns the same array; it is written here
    as an insertion that keeps an element in front of the later elements that
    tie with it. *)

Section Sort.

Context {A : Type} (leb : A -> A -> bool).

Fixpoint insert (x : A) (l : list A) : list A :=
  match l with
  | [] => [x]
  | y :: r => if leb x y then x :: l else y :: insert x r
  end.

Definition sort (l : list A) : list A := fold_right insert [] l.

(** The comparator on the elements of [l]: any two are ordered one way or the
    other, and the order is transitive. *)
Definition total_on (l : list A) : bool :=
  forallb (fun a => forallb (fun b => leb a b || leb b a) l) l.

Definition transitive_on (l : list A) : bool :=
  forallb (fun a => forallb (fun b => forallb (fun c =>
    implb (leb a b && leb b c) (leb a c)) l) l) l.

(** No two elements at different places tie. *)
Fixpoint tie_free (l : list A) : bool :=
  match l with
  | [] => true
  | x :: r => forallb (fun y => negb (leb x y && leb y x)) r && tie_free r
  end.

Definition le (a b : A) : Prop := leb a b = true.

End Sort.

(** ** [String.prototype.localeCompare]

    The functions of [protocolUtils.ts] take the comparison of the host as a
    parameter.  [Collation.compare] is the order that the root collation
    gives to strings of ASCII letters and digits: they are compared first
    without regard to case, digits before letters; strings that are equal
    that way are ordered by case, lower case first.  It serves as the
    comparison of the host in the examples. *)

Module Collation.

Definition is_upper (c : Z) : bool := in_range 65 90 c.
Definition fold_case (c : Z) : Z := if is_upper c then c + 32 else c.

Fixpoint compare_by (key : Z -> Z) (a b : jsstring) : Z :=
  match a, b with
  | [], [] => 0
  | [], _ :: _ => -1
  | _ :: _, [] => 1
  | x :: a', y :: b' =>
      if key x <? key y then -1
      else if key y <? key x then 1
      else compare_by key a' b'
  end.

Definition compare (a b : jsstring) : Z :=
  let primary := compare_by fold_case a b in
  if primary =? 0 then compare_by (fun c => if is_upper c then 1 else 0) a b
  else primary.

End Collation.

(** ** Protocol manifests ([constants/protocols.ts]) *)

Module ModelDefinition.
Record t : Type := {
  name : jsstring;
  schema : record;
  description : option jsstring
}.
End ModelDefinition.

Module HandlerDefinition.
Record t : Type := {
  name : jsstring;
  messageType : jsstring;
  responseType : option jsstring;
  description : option jsstring
}.
End HandlerDefinition.

Module ProtocolManifest.
Record t : Type := {
  name : jsstring;
  version : jsstring;
  digest : jsstring;
  description : option jsstring;
  models : list ModelDefinition.t;
  handlers : list HandlerDefinition.t
}.
End ProtocolManifest.

(** ** [utils/protocolUtils.ts] *)

Module ProtocolUtils.

(** [Object.keys] of an array: its indices. *)
Definition index_keys (n : nat) : list jsstring :=
  map (fun i => number_to_string (Z.of_nat i)) (seq 0 n).

(** [sorted[key] = value] for every key of [keys], in that order, the values
    being taken from [entries]. *)
Definition assign_all (keys : list jsstring) (entries : record) : record :=
  fold_left
    (fun sorted key =>
       match get key entries with
       | Some value => assign sorted key value
       | None => sorted
       end)
    keys [].

(** [canonicalizeSchema], on any value whose [typeof] is ['object']: the
    object itself, or an array met as an item of an array, whose keys are its
    indices.  The values are canonicalized first and then assigned in the
    order of the sorted keys, which is the loop of the source with the
    recursive calls hoisted. *)
Fixpoint canonicalize (schema : json) : record :=
  let value (v : json) : json :=
    match v with
    | JObj _ => JObj (canonicalize v)
    | JArr items =>
        JArr (map (fun item =>
                     match item with
                     | JObj _ | JArr _ => JObj (canonicalize item)
                     | _ => item
                     end) items)
    | _ => v
    end in
  match schema with
  | JObj o =>
      assign_all (sort str_leb (map fst o)) (map (fun kv => (fst kv, value (snd kv))) o)
  | JArr l =>
      assign_all (sort str_leb (index_keys (List.length l)))
                 (combine (index_keys (List.length l)) (map value l))
  | _ => []
  end.

Definition canonicalizeSchema (schema : record) : record := canonicalize (JObj schema).

(** [hash.toString('base64').replace(/[+/=]/g, '').slice(0, 32)] *)
Definition short_hash (text : jsstring) : jsstring :=
  firstn 32
    (filter (fun c => negb ((c =? 43) || (c =? 47) || (c =? 61)))
       (Base64.encode (Sha256.digest (Utf8.encode text)))).

Definition model_canonical (m : ModelDefinition.t) : json :=
  JObj [(u "name", JStr (ModelDefinition.name m));
        (u "schema", JObj (canonicalizeSchema (ModelDefinition.schema m)))].

Definition computeModelDigest (model : ModelDefinition.t) : jsstring :=
  u "model:" ++ short_hash (stringify (model_canonical model)).

Section WithLocale.

Variable localeCompare : jsstring -> jsstring -> Z.

(** The comparator [(a, b) => a.name.localeCompare(b.name)], as the
    test [<= 0]. *)
Definition by_name (a b : ModelDefinition.t) : bool :=
  localeCompare (ModelDefinition.name a) (ModelDefinition.name b) <=? 0.

Definition sortedModels (manifest : ProtocolManifest.t) : list ModelDefinition.t :=
  sort by_name (ProtocolManifest.models manifest).

Definition canonical (manifest : ProtocolManifest.t) : json :=
  JObj [(u "name", JStr (ProtocolManifest.name manifest));
        (u "version", JStr (ProtocolManifest.version manifest));
        (u "models", JArr (map model_canonical (sortedModels manifest)))].

Definition computeProtocolDigest (manifest : ProtocolManifest.t) : jsstring :=
  u "proto:" ++ short_hash (stringify (canonical manifest)).

Definition createProtocolManifest
  (name version : jsstring) (models : list ModelDefinition.t)
  (handlers : option (list HandlerDefinition.t)) (description : option jsstring)
  : ProtocolManifest.t :=
  let manifest :=
    {| ProtocolManifest.name := name;
       ProtocolManifest.version := version;
       ProtocolManifest.digest := [];
       ProtocolManifest.description := description;
       ProtocolManifest.models := models;
       ProtocolManifest.handlers := match handlers with Some h => h | None => [] end |} in
  {| ProtocolManifest.name := ProtocolManifest.name manifest;
     ProtocolManifest.version := ProtocolManifest.version manifest;
     ProtocolManifest.digest := computeProtocolDigest manifest;
     ProtocolManifest.description := ProtocolManifest.description manifest;
     ProtocolManifest.models := ProtocolManifest.models manifest;
     ProtocolManifest.handlers := ProtocolManifest.handlers manifest |}.

End WithLocale.

(** [new Set(array)]: the distinct elements, in the order of their first
    occurrence. *)
Definition set_has (s : list jsstring) (x : jsstring) : bool := existsb (str_eqb x) s.

Definition set_add (s : list jsstring) (x : jsstring) : list jsstring :=
  if set_has s x then s else s ++ [x].

Definition new_Set (l : list jsstring) : list jsstring := fold_left set_add l [].

Definition areProtocolsCompatible (protocol1 protocol2 : ProtocolManifest.t) : bool :=
  let models1 := new_Set (map computeModelDigest (ProtocolManifest.models protocol1)) in
  let models2 := map computeModelDigest (ProtocolManifest.models protocol2) in
  existsb (fun digest => set_has models1 digest) models2.

(** [new Map()] with string keys: the entries in the order in which their
    keys were first set. *)
Definition map_has {V : Type} (m : list (jsstring * V)) (k : jsstring) : bool :=
  existsb (fun kv => str_eqb k (fst kv)) m.

(** One turn of the loop of [mergeProtocols]. *)
Definition add_model (modelMap : list (jsstring * ModelDefinition.t))
  (model : ModelDefinition.t) : list (jsstring * ModelDefinition.t) :=
  let digest := computeModelDigest model in
  if negb (map_has modelMap digest) then modelMap ++ [(digest, model)] else modelMap.

Definition mergeProtocols (localeCompare : jsstring -> jsstring -> Z)
  (protocol1 protocol2 : ProtocolManifest.t) (newName newVersion : jsstring)
  : ProtocolManifest.t :=
  let modelMap :=
    fold_left add_model
      (ProtocolManifest.models protocol1 ++ ProtocolManifest.models protocol2) [] in
  let handlers :=
    ProtocolManifest.handlers protocol1 ++ ProtocolManifest.handlers protocol2 in
  createProtocolManifest localeCompare newName newVersion (map snd modelMap)
    (Some handlers)
    (Some (u "Merged from " ++ ProtocolManifest.name protocol1 ++ u " and "
             ++ ProtocolManifest.name protocol2)).

Definition getModelNames (protocol : ProtocolManifest.t) : list jsstring :=
  map ModelDefinition.name (ProtocolManifest.models protocol).

Definition getHandler (protocol : ProtocolManifest.t) (messageType : jsstring)
  : option HandlerDefinition.t :=
  find (fun h => str_eqb (HandlerDefinition.messageType h) messageType)
       (ProtocolManifest.handlers protocol).

Definition createSimpleProtocol (localeCompare : jsstring -> jsstring -> Z)
  (name version : jsstring) (requestSchema responseSchema : record)
  : ProtocolManifest.t :=
  createProtocolManifest localeCompare name version
    [ {| ModelDefinition.name := u "Request"; ModelDefinition.schema := requestSchema;
         ModelDefinition.description := None |};
      {| ModelDefinition.name := u "Response"; ModelDefinition.schema := responseSchema;
         ModelDefinition.description := None |} ]
    (Some [ {| HandlerDefinition.name := u "handleRequest";
               HandlerDefinition.messageType := u "Request";
               HandlerDefinition.responseType := Some (u "Response");
               HandlerDefinition.description := None |} ])
    (Some (u "Simple request-response protocol for " ++ name)).

Inductive digest_type : Type := type_proto | type_model | type_unknown.

Record parsed_digest : Type := { type : digest_type; hash : jsstring }.

(** [s.startsWith(p)] *)
Definition startsWith (s p : jsstring) : bool :=
  match strip_prefix p s with
  | Some _ => true
  | None => false
  end.

(** [s.slice(n)] for a non-negative [n]. *)
Definition slice_from (n : nat) (s : jsstring) : jsstring := skipn n s.

Definition parseProtocolDigest (digest : jsstring) : parsed_digest :=
  if startsWith digest (u "proto:")
  then {| type := type_proto; hash := slice_from 6 digest |}
  else if startsWith digest (u "model:")
  then {| type := type_model; hash := slice_from 6 digest |}
  else {| type := type_unknown; hash := digest |}.

Definition finish (errors : list jsstring) : validation :=
  {| valid := Nat.eqb (List.length errors) 0; errors := errors |}.

Open Scope completion_scope.

(** The body of [manifest.models.forEach((model, index) => ...)]. *)
Definition validate_model (errors : list jsstring) (model : json) (index : nat)
  : completion (list jsstring) :=
  name <- property model (u "name") ;;
  let errors :=
    if negb (truthy name)
    then errors ++ [u "Model at index " ++ number_to_string (Z.of_nat index)
                      ++ u " missing name"]
    else errors in
  schema <- property model (u "schema") ;;
  Normal
    (if negb (truthy schema) || negb (is_object schema)
     then errors ++ [u "Model "
                       ++ to_string (value_or name (JNum (Z.of_nat index)))
                       ++ u " missing or invalid schema"]
     else errors).

Fixpoint validate_models (errors : list jsstring) (models : list json) (index : nat)
  : completion (list jsstring) :=
  match models with
  | [] => Normal errors
  | model :: rest =>
      errors <- validate_model errors model index ;;
      validate_models errors rest (S index)
  end.

(** The manifest is the value handed over at run time, before any check of
    its shape. *)
Definition validateProtocolManifest (manifest : json) : completion validation :=
  name <- property manifest (u "name") ;;
  let errors :=
    if negb (truthy name) || negb (is_string name)
    then [u "Missing or invalid protocol name"] else [] in
  version <- property manifest (u "version") ;;
  let errors :=
    if negb (truthy version) || negb (is_string version)
    then errors ++ [u "Missing or invalid protocol version"] else errors in
  models <- property manifest (u "models") ;;
  errors <-
    (if negb (truthy models) || negb (is_array models)
     then Normal (errors ++ [u "Missing or invalid models array"])
     else
       match models with
       | Some (JArr l) => validate_models errors l 0
       | _ => Normal errors
       end) ;;
  Normal (finish errors).

Close Scope completion_scope.

End ProtocolUtils.

(** ** Envelopes ([constants/protocols.ts]) *)

Module AgentEnvelope.
Record t : Type := {
  version : Z;
  sender : jsstring;
  target : jsstring;
  session : jsstring;
  schemaDigest : jsstring;
  protocolDigest : option jsstring;
  payload : jsstring;
  expires : option Z;
  nonce : option jsstring;
  signature : option jsstring
}.

Definition with_protocolDigest (e : t) (d : option jsstring) : t :=
  {| version := version e; sender := sender e; target := target e;
     session := session e; schemaDigest := schemaDigest e;
     protocolDigest := d; payload := payload e; expires := expires e;
     nonce := nonce e; signature := signature e |}.

(** [{ ...e, signature: s }] *)
Definition with_signature (e : t) (s : option jsstring) : t :=
  {| version := version e; sender := sender e; target := target e;
     session := session e; schemaDigest := schemaDigest e;
     protocolDigest := protocolDigest e; payload := payload e;
     expires := expires e; nonce := nonce e; signature := s |}.
End AgentEnvelope.

Definition ENVELOPE_VERSION : Z := 1.
Definition DEFAULT_MESSAGE_EXPIRY : Z := 300.

(** ** The clock and the random source

    [clock] is what [Date.now()] returns, in milliseconds; [random] is the
    stream of bytes behind [crypto.randomBytes] and [crypto.randomUUID], of
    which [drawn] have been used. *)

Record world : Type := { clock : Z; random : nat -> Z; drawn : nat }.

Definition io (A : Type) : Type := world -> A * world.

Definition ret {A} (a : A) : io A := fun w => (a, w).

Definition io_bind {A B} (m : io A) (k : A -> io B) : io B :=
  fun w => let (a, w') := m w in k a w'.

Declare Scope io_scope.
Delimit Scope io_scope with io.
Notation "x <- m ;; k" := (io_bind m (fun x => k))
  (at level 61, m at next level, right associativity) : io_scope.

Definition Date_now : io Z := fun w => (clock w, w).

Definition randomBytes (n : nat) : io bytes :=
  fun w =>
    (map (fun i => random w (drawn w + i)%nat mod 256) (seq 0 n),
     {| clock := clock w; random := random w; drawn := (drawn w + n)%nat |}).

(** [buffer.toString('hex')] *)
Definition hex (bs : bytes) : jsstring :=
  flat_map (fun b => [hex_digit (b / 16); hex_digit (b mod 16)]) bs.

(** [crypto.randomUUID()]: 16 random bytes with the version and variant bits
    of a version 4 UUID, written [8-4-4-4-12]. *)
Definition randomUUID : io jsstring :=
  fun w =>
    let (bs, w') := randomBytes 16 w in
    let bs :=
      map (fun ib =>
             let (i, b) := (ib : nat * Z) in
             if Nat.eqb i 6 then Z.lor (Z.land b 0x0f) 0x40
             else if Nat.eqb i 8 then Z.lor (Z.land b 0x3f) 0x80
             else b)
          (combine (seq 0 16) bs) in
    let part (a b : nat) := hex (firstn (b - a) (skipn a bs)) in
    (part 0%nat 4%nat ++ 45 :: part 4%nat 6%nat ++ 45 :: part 6%nat 8%nat
       ++ 45 :: part 8%nat 10%nat ++ 45 :: part 10%nat 16%nat, w').

(** ** [utils/messageUtils.ts] *)

Module MessageUtils.

Open Scope io_scope.

Definition createSessionId : io jsstring := randomUUID.

Definition createNonce : io jsstring :=
  bs <- randomBytes 16 ;; ret (hex bs).

(** [Math.floor(Date.now() / 1000)] *)
Definition now_seconds : io Z := ms <- Date_now ;; ret (ms / 1000).

Definition calculateExpiry (ttlSeconds : option Z) : io Z :=
  let ttlSeconds :=
    match ttlSeconds with Some t => t | None => DEFAULT_MESSAGE_EXPIRY end in
  now <- now_seconds ;; ret (now + ttlSeconds).

Definition isExpired (expiryTimestamp : Z) : io bool :=
  now <- now_seconds ;; ret (now >? expiryTimestamp).

Record options : Type := {
  opt_session : option jsstring;
  opt_protocolDigest : option jsstring;
  opt_expirySeconds : option Z
}.

Definition no_options : options :=
  {| opt_session := None; opt_protocolDigest := None; opt_expirySeconds := None |}.

(** [s || fallback] on an optional string: the empty string is falsy. *)
Definition string_or (s : option jsstring) (fallback : io jsstring) : io jsstring :=
  match s with
  | Some (c :: r) => ret (c :: r)
  | _ => fallback
  end.

(** [n || fallback] on an optional number: zero is falsy. *)
Definition number_or (n : option Z) (fallback : Z) : Z :=
  match n with
  | Some n => if n =? 0 then fallback else n
  | None => fallback
  end.

Definition encodePayload (payload : record) : jsstring :=
  Base64.encode (Utf8.encode (stringify (JObj payload))).

Definition decodePayload (envelope : AgentEnvelope.t) : completion json :=
  let jsonStr := Utf8.decode (Base64.decode (AgentEnvelope.payload envelope)) in
  parse jsonStr.

Definition createEnvelope
  (sender target : jsstring) (payload : record) (schemaDigest : jsstring)
  (options : options) : io AgentEnvelope.t :=
  let payloadJson := stringify (JObj payload) in
  let payloadBase64 := Base64.encode (Utf8.encode payloadJson) in
  session <- string_or (opt_session options) createSessionId ;;
  expires <- calculateExpiry
               (Some (number_or (opt_expirySeconds options) DEFAULT_MESSAGE_EXPIRY)) ;;
  nonce <- createNonce ;;
  ret {| AgentEnvelope.version := ENVELOPE_VERSION;
         AgentEnvelope.sender := sender;
         AgentEnvelope.target := target;
         AgentEnvelope.session := session;
         AgentEnvelope.schemaDigest := schemaDigest;
         AgentEnvelope.protocolDigest := opt_protocolDigest options;
         AgentEnvelope.payload := payloadBase64;
         AgentEnvelope.expires := Some expires;
         AgentEnvelope.nonce := Some nonce;
         AgentEnvelope.signature := None |}.

(** The text of an object literal; a property whose value is [undefined] is
    left out by [JSON.stringify]. *)
Definition stringify_literal (fields : list (jsstring * option json)) : jsstring :=
  stringify
    (JObj (flat_map (fun kv => match snd kv with
                               | Some v => [(fst kv, v)]
                               | None => []
                               end) fields)).

Definition signingFields (envelope : AgentEnvelope.t) : list (jsstring * option json) :=
  [(u "version", Some (JNum (AgentEnvelope.version envelope)));
   (u "sender", Some (JStr (AgentEnvelope.sender envelope)));
   (u "target", Some (JStr (AgentEnvelope.target envelope)));
   (u "session", Some (JStr (AgentEnvelope.session envelope)));
   (u "schemaDigest", Some (JStr (AgentEnvelope.schemaDigest envelope)));
   (u "payload", Some (JStr (AgentEnvelope.payload envelope)));
   (u "expires", option_map JNum (AgentEnvelope.expires envelope));
   (u "nonce", option_map JStr (AgentEnvelope.nonce envelope))].

Definition signingPayload (envelope : AgentEnvelope.t) : jsstring :=
  stringify_literal (signingFields envelope).

Section WithCrypto.

(** [crypto.createSign('SHA256')] and [crypto.createVerify('SHA256')] with a
    DER key: the key, the data, (the signature); either may throw, on a key
    or a signature that cannot be decoded.  Where the scheme of the key
    signs with fresh randomness, [crypto_sign] is the signing for one
    draw. *)
Variable crypto_sign : bytes -> jsstring -> completion bytes.
Variable crypto_verify : bytes -> jsstring -> bytes -> completion bool.

Definition signEnvelope (envelope : AgentEnvelope.t) (privateKey : bytes)
  : completion AgentEnvelope.t :=
  bind (crypto_sign privateKey (signingPayload envelope))
       (fun signature =>
          Normal (AgentEnvelope.with_signature envelope
                    (Some (Base64.encode signature)))).

(** The result is a [completion] so that "never throws" is a statement
    about the function and not a choice of its type.  [!envelope.signature]
    holds of an absent and of an empty signature. *)
Definition verifyEnvelope (envelope : AgentEnvelope.t) (publicKey : bytes)
  : completion bool :=
  match AgentEnvelope.signature envelope with
  | None | Some [] => Normal false
  | Some signature =>
      let signingPayload := signingPayload envelope in
      Normal
        (try_catch
           (crypto_verify publicKey signingPayload (Base64.decode signature))
           false)
  end.

End WithCrypto.

Definition push_if (test : bool) (message : jsstring) (errors : list jsstring)
  : list jsstring :=
  if test then errors ++ [message] else errors.

(** The fields are read at their declared types, so that [!s] is "[s] is
    empty" and the [typeof] tests are settled. *)
Definition validateEnvelope (envelope : AgentEnvelope.t) : io validation :=
  let errors :=
    push_if (negb (AgentEnvelope.version envelope =? ENVELOPE_VERSION))
      (u "Invalid version: expected " ++ number_to_string ENVELOPE_VERSION
         ++ u ", got " ++ number_to_string (AgentEnvelope.version envelope)) [] in
  let errors :=
    push_if (str_eqb (AgentEnvelope.sender envelope) [])
      (u "Missing or invalid sender") errors in
  let errors :=
    push_if (str_eqb (AgentEnvelope.target envelope) [])
      (u "Missing or invalid target") errors in
  let errors :=
    push_if (str_eqb (AgentEnvelope.session envelope) [])
      (u "Missing or invalid session") errors in
  let errors :=
    push_if (str_eqb (AgentEnvelope.schemaDigest envelope) [])
      (u "Missing or invalid schemaDigest") errors in
  let errors :=
    push_if (str_eqb (AgentEnvelope.payload envelope) [])
      (u "Missing or invalid payload") errors in
  expired <-
    match AgentEnvelope.expires envelope with
    | Some expires => if expires =? 0 then ret false else isExpired expires
    | None => ret false
    end ;;
  let errors := push_if expired (u "Message has expired") errors in
  ret {| valid := Nat.eqb (List.length errors) 0; errors := errors |}.

Definition createResponseEnvelope
  (originalEnvelope : AgentEnvelope.t) (sender : jsstring)
  (responsePayload : record) (responseSchemaDigest : jsstring) : io AgentEnvelope.t :=
  createEnvelope sender (AgentEnvelope.sender originalEnvelope) responsePayload
    responseSchemaDigest
    {| opt_session := Some (AgentEnvelope.session originalEnvelope);
       opt_protocolDigest := AgentEnvelope.protocolDigest originalEnvelope;
       opt_expirySeconds := None |}.

Definition error_payload (errorCode errorMessage : jsstring) : record :=
  [(u "type", JStr (u "error"));
   (u "code", JStr errorCode);
   (u "message", JStr errorMessage)].

Definition createErrorEnvelope
  (originalEnvelope : AgentEnvelope.t) (sender errorCode errorMessage : jsstring)
  : io AgentEnvelope.t :=
  createEnvelope sender (AgentEnvelope.sender originalEnvelope)
    (error_payload errorCode errorMessage)
    (u "model:error-v1")
    {| opt_session := Some (AgentEnvelope.session originalEnvelope);
       opt_protocolDigest := None;
       opt_expirySeconds := None |}.

(** [JSON.stringify(value, keys)], with an array of keys as the replacer.
    The keys are the property list of every object of the value, at any
    depth: an object is written with the properties that the list names, in
    the order of the list, each read with [Get].  Of the properties that a
    plain object inherits, the functions are left out as [undefined] is, and
    [__proto__] reads as [Object.prototype], whose own [__proto__] reads as
    [null].  The items of an array are all written. *)
Definition inherited_proto : jsstring :=
  123 :: quote proto_key ++ 58 :: u "null" ++ [125].

Fixpoint stringify_keys (keys : list jsstring) (v : json) : jsstring :=
  match v with
  | JArr l => 91 :: join 44 (map (stringify_keys keys) l) ++ [93]
  | JObj o =>
      let texts := map (fun kv => (fst kv, stringify_keys keys (snd kv))) o in
      123 :: join 44
               (flat_map
                  (fun k =>
                     match find (fun kt => str_eqb k (fst kt)) texts with
                     | Some kt => [quote k ++ 58 :: snd kt]
                     | None =>
                         if str_eqb k proto_key
                         then [quote k ++ 58 :: inherited_proto]
                         else []
                     end) keys) ++ [125]
  | _ => stringify v
  end.

(** The replacer is [Object.keys(model).sort()]; [JSON.stringify] takes each
    key of it once. *)
Definition computeSchemaDigest (model : record) : jsstring :=
  let sortedJson :=
    stringify_keys (ProtocolUtils.new_Set (sort str_leb (map fst model))) (JObj model) in
  let hash := Sha256.digest (Utf8.encode sortedJson) in
  u "model:" ++ firstn 32 (Base64.encode hash).

(** The properties of an envelope that [createEnvelope] and [signEnvelope]
    have built, in the order in which these wrote them. *)
Definition envelopeFields (envelope : AgentEnvelope.t) : list (jsstring * option json) :=
  [(u "version", Some (JNum (AgentEnvelope.version envelope)));
   (u "sender", Some (JStr (AgentEnvelope.sender envelope)));
   (u "target", Some (JStr (AgentEnvelope.target envelope)));
   (u "session", Some (JStr (AgentEnvelope.session envelope)));
   (u "schemaDigest", Some (JStr (AgentEnvelope.schemaDigest envelope)));
   (u "protocolDigest", option_map JStr (AgentEnvelope.protocolDigest envelope));
   (u "payload", Some (JStr (AgentEnvelope.payload envelope)));
   (u "expires", option_map JNum (AgentEnvelope.expires envelope));
   (u "nonce", option_map JStr (AgentEnvelope.nonce envelope));
   (u "signature", option_map JStr (AgentEnvelope.signature envelope))].

Definition serializeEnvelope (envelope : AgentEnvelope.t) : jsstring :=
  stringify_literal (envelopeFields envelope).

(** The value is returned as it was read: the cast checks nothing. *)
Definition deserializeEnvelope (data : jsstring) : completion json := parse data.

Close Scope io_scope.

End MessageUtils.

(** ** Notions used in the statements *)

Module Notions.

Definition is_alnum (c : Z) : bool :=
  in_range 48 57 c || in_range 65 90 c || in_range 97 122 c.

(** A character of a base64 text. *)
Definition base64_char (c : Z) : Prop :=
  is_alnum c = true \/ c = 43 \/ c = 47 \/ c = 61.

(** The tag that [parseProtocolDigest] took off. *)
Definition type_prefix (t : ProtocolUtils.digest_type) : jsstring :=
  match t with
  | ProtocolUtils.type_proto => u "proto:"
  | ProtocolUtils.type_model => u "model:"
  | ProtocolUtils.type_unknown => []
  end.

(** What [canonicalizeSchema] stores for an item of an array and for the
    value of a property. *)
Definition canonical_item (item : json) : json :=
  match item with
  | JObj _ | JArr _ => JObj (ProtocolUtils.canonicalize item)
  | _ => item
  end.

Definition canonical_value (v : json) : json :=
  match v with
  | JObj _ => JObj (ProtocolUtils.canonicalize v)
  | JArr items => JArr (map canonical_item items)
  | _ => v
  end.

(** The objects that the typed values are at run time: the properties of
    their interfaces, an optional one being absent when it is not given. *)
Definition optional (k : jsstring) (v : option jsstring) : record :=
  match v with
  | Some s => [(k, JStr s)]
  | None => []
  end.

Definition model_value (m : ModelDefinition.t) : json :=
  JObj ([(u "name", JStr (ModelDefinition.name m));
         (u "schema", JObj (ModelDefinition.schema m))]
          ++ optional (u "description") (ModelDefinition.description m)).

Definition handler_value (h : HandlerDefinition.t) : json :=
  JObj ([(u "name", JStr (HandlerDefinition.name h));
         (u "messageType", JStr (HandlerDefinition.messageType h))]
          ++ optional (u "responseType") (HandlerDefinition.responseType h)
          ++ optional (u "description") (HandlerDefinition.description h)).

Definition manifest_value (p : ProtocolManifest.t) : json :=
  JObj ([(u "name", JStr (ProtocolManifest.name p));
         (u "version", JStr (ProtocolManifest.version p));
         (u "digest", JStr (ProtocolManifest.digest p))]
          ++ optional (u "description") (ProtocolManifest.description p)
          ++ [(u "models", JArr (map model_value (ProtocolManifest.models p)));
              (u "handlers", JArr (map handler_value (ProtocolManifest.handlers p)))]).

(** A digit of [toString('hex')]. *)
Definition is_lower_hex (c : Z) : bool := in_range 48 57 c || in_range 97 102 c.

(** An envelope whose strings are sequences of code units and whose numbers
    are safe integers. *)
Definition optional_ok {A} (ok : A -> bool) (v : option A) : bool :=
  match v with
  | Some x => ok x
  | None => true
  end.

Definition envelope_ok (e : AgentEnvelope.t) : bool :=
  safe_integer (AgentEnvelope.version e)
  && valid_stringb (AgentEnvelope.sender e)
  && valid_stringb (AgentEnvelope.target e)
  && valid_stringb (AgentEnvelope.session e)
  && valid_stringb (AgentEnvelope.schemaDigest e)
  && optional_ok valid_stringb (AgentEnvelope.protocolDigest e)
  && valid_stringb (AgentEnvelope.payload e)
  && optional_ok safe_integer (AgentEnvelope.expires e)
  && optional_ok valid_stringb (AgentEnvelope.nonce e)
  && optional_ok valid_stringb (AgentEnvelope.signature e).

(** The fields of an envelope, read off a value by their names. *)
Definition read_string (v : option json) : option jsstring :=
  match v with
  | Some (JStr s) => Some s
  | _ => None
  end.

Definition read_number (v : option json) : option Z :=
  match v with
  | Some (JNum n) => Some n
  | _ => None
  end.

Definition read_envelope (v : json) : option AgentEnvelope.t :=
  match v with
  | JObj o =>
      match read_number (get (u "version") o), read_string (get (u "sender") o),
            read_string (get (u "target") o), read_string (get (u "session") o),
            read_string (get (u "schemaDigest") o), read_string (get (u "payload") o)
      with
      | Some version, Some sender, Some target, Some session, Some schemaDigest,
        Some payload =>
          Some {| AgentEnvelope.version := version;
                  AgentEnvelope.sender := sender;
                  AgentEnvelope.target := target;
                  AgentEnvelope.session := session;
                  AgentEnvelope.schemaDigest := schemaDigest;
                  AgentEnvelope.protocolDigest := read_string (get (u "protocolDigest") o);
                  AgentEnvelope.payload := payload;
                  AgentEnvelope.expires := read_number (get (u "expires") o);
                  AgentEnvelope.nonce := read_string (get (u "nonce") o);
                  AgentEnvelope.signature := read_string (get (u "signature") o) |}
      | _, _, _, _, _, _ => None
      end
  | _ => None
  end.

(** The order of the properties of a canonical object: the array indices by
    their value, then the other keys by their code units. *)
Definition key_le (k1 k2 : jsstring) : bool :=
  match array_index k1, array_index k2 with
  | Some a, Some b => a <=? b
  | Some _, None => true
  | None, Some _ => false
  | None, None => str_leb k1 k2
  end.

(** Every object of the value lists a key once. *)
Fixpoint well_keyed (v : json) : bool :=
  match v with
  | JArr l => forallb well_keyed l
  | JObj o => distinct_keys (map fst o) && forallb (fun kv => well_keyed (snd kv)) o
  | _ => true
  end.

(** The same value, up to the order in which the objects list their keys:
    arrays agree item by item, objects have as many properties and agree key
    by key. *)
Fixpoint same_content (a b : json) : bool :=
  match a, b with
  | JNull, JNull => true
  | JBool x, JBool y => Bool.eqb x y
  | JNum x, JNum y => x =? y
  | JDbl x, JDbl y => Number.eqb x y
  | JStr x, JStr y => str_eqb x y
  | JArr l, JArr l' =>
      (fix items (l l' : list json) : bool :=
         match l, l' with
         | [], [] => true
         | x :: r, y :: r' => same_content x y && items r r'
         | _, _ => false
         end) l l'
  | JObj o, JObj o' =>
      Nat.eqb (List.length o) (List.length o')
      && (fix members (o : record) : bool :=
            match o with
            | [] => true
            | (k, v) :: r =>
                match get k o' with
                | Some v' => same_content v v'
                | None => false
                end && members r
            end) o
  | _, _ => false
  end.

(** A JSON-serializable value: every number is a finite value of the
    format, every string is a sequence of code units, and every object lists
    distinct keys in property order (as every JavaScript object does). *)
Fixpoint json_serializable (v : json) : bool :=
  match v with
  | JNull => true
  | JBool _ => true
  | JNum n => Number.is_finite (Number.of_Z n)
  | JDbl x => Number.is_finite x && Number.valid x
  | JStr s => valid_stringb s
  | JArr l => forallb json_serializable l
  | JObj o =>
      forallb (fun kv => valid_stringb (fst kv) && json_serializable (snd kv)) o
      && object_ok o
  end.

(** A finite Number as [JSON.parse] gives it: a safe integer is [JNum], and
    the negative zero, which [JSON.stringify] writes as [0], is the zero. *)
Definition as_read (x : Number.t) : json :=
  match x with
  | Number.Zero _ => JNum 0
  | _ => of_number x
  end.

(** The value with its numbers as [JSON.parse] gives them. *)
Fixpoint normal (v : json) : json :=
  match v with
  | JNum n => as_read (Number.of_Z n)
  | JDbl x => as_read x
  | JArr l => JArr (map normal l)
  | JObj o => JObj (map (fun kv => (fst kv, normal (snd kv))) o)
  | _ => v
  end.

(** Structural equality: the same kind of value; numbers that are [===];
    strings of the same code units; arrays that are equal item by item; and
    objects with the same keys in the same order and equal values. *)
Fixpoint structurally_equal (a b : json) : bool :=
  match a, b with
  | JNull, JNull => true
  | JBool x, JBool y => Bool.eqb x y
  | JNum x, JNum y => Number.equal (Number.of_Z x) (Number.of_Z y)
  | JNum x, JDbl y => Number.equal (Number.of_Z x) y
  | JDbl x, JNum y => Number.equal x (Number.of_Z y)
  | JDbl x, JDbl y => Number.equal x y
  | JStr x, JStr y => str_eqb x y
  | JArr l, JArr l' =>
      (fix items (l l' : list json) : bool :=
         match l, l' with
         | [], [] => true
         | x :: r, y :: r' => structurally_equal x y && items r r'
         | _, _ => false
         end) l l'
  | JObj o, JObj o' =>
      (fix members (o o' : record) : bool :=
         match o, o' with
         | [], [] => true
         | (k, x) :: r, (k', y) :: r' =>
             str_eqb k k' && structurally_equal x y && members r r'
         | _, _ => false
         end) o o'
  | _, _ => false
  end.

End Notions.

(** ** Sample data *)

Module Samples.

(** A text in which ['] stands for the double quote. *)
Definition text (s : string) : jsstring :=
  map (fun c => if c =? 39 then 34 else c) (u s).

Definition sample_payload : record :=
  [(u "message", JStr (u "test")); (u "count", JNum 3);
   (u "tags", JArr [JStr [104; 233; 55357; 56832]; JNull; JBool true])].

(** A payload with a fraction, a negative zero, a magnitude beyond the safe
    integers and an integer written as any other number. *)
Definition measured_payload : record :=
  [(u "ratio", JDbl (Number.Finite false 3 (- 1)));
   (u "offset", JDbl (Number.Zero true));
   (u "mass", JDbl (Number.Finite false 5 70));
   (u "count", JDbl (Number.Finite false 3 2));
   (u "tags", JArr [JNum 7; JStr (u "a")])].

Definition sample_world : world :=
  {| clock := 1700000000123; random := fun i => Z.of_nat (i * 37 + 11); drawn := 0 |}.

Definition sample_original (session : jsstring) : AgentEnvelope.t :=
  {| AgentEnvelope.version := 1; AgentEnvelope.sender := u "agent1qsender";
     AgentEnvelope.target := u "agent1qtarget"; AgentEnvelope.session := session;
     AgentEnvelope.schemaDigest := u "model:test123";
     AgentEnvelope.protocolDigest := Some (u "proto:abc");
     AgentEnvelope.payload := u "e30="; AgentEnvelope.expires := Some 1700000300;
     AgentEnvelope.nonce := Some (u "00"); AgentEnvelope.signature := None |}.

Definition empty_manifest : record :=
  [(u "name", JStr (u "ping")); (u "version", JStr (u "1.0"));
   (u "digest", JStr []); (u "models", JArr []); (u "handlers", JArr [])].

Definition model (name : jsstring) (schema : record) : ModelDefinition.t :=
  {| ModelDefinition.name := name; ModelDefinition.schema := schema;
     ModelDefinition.description := None |}.

Definition manifest (models : list ModelDefinition.t) : ProtocolManifest.t :=
  {| ProtocolManifest.name := u "model1"; ProtocolManifest.version := u "1.0";
     ProtocolManifest.digest := []; ProtocolManifest.description := None;
     ProtocolManifest.models := models; ProtocolManifest.handlers := [] |}.

(** Strict order on the UTF-8 bytes, between neighbours. *)
Definition bytes_ltb (a b : jsstring) : bool :=
  str_ltb (Utf8.encode a) (Utf8.encode b).

Fixpoint ascending (ltb : jsstring -> jsstring -> bool) (l : list jsstring) : bool :=
  match l with
  | [] => true
  | a :: r =>
      match r with
      | [] => true
      | b :: _ => ltb a b && ascending ltb r
      end
  end.

Definition mixed_case : ProtocolManifest.t :=
  manifest [model (u "B") [(u "x", JStr (u "string"))];
            model (u "a") [(u "y", JStr (u "string"))]].

Definition same_name : list ModelDefinition.t :=
  [model (u "A") [(u "x", JStr (u "string"))];
   model (u "A") [(u "y", JStr (u "string"))]].

Definition request_response : list ModelDefinition.t :=
  [model (u "Request") [(u "foo", JStr (u "string"))];
   model (u "Response") [(u "bar", JStr (u "string"))]].

(** A schema with a nested object, and the same schema written with its
    keys in another order at both levels. *)
Definition nested_schema : record :=
  [(u "type", JStr (u "object"));
   (u "properties",
    JObj [(u "id", JObj [(u "type", JStr (u "number")); (u "minimum", JNum 0)]);
          (u "tags", JArr [JStr (u "a"); JObj [(u "b", JNum 1); (u "a", JNum 2)]])]);
   (u "required", JArr [JStr (u "id")])].

(** A keyed hash in the place of a signature scheme: the key that verifies
    is the key that signs. *)
Definition keyed_sign (key : bytes) (data : jsstring) : completion bytes :=
  Normal (1 :: Sha256.digest (key ++ Utf8.encode data)).

Definition keyed_verify (key : bytes) (data : jsstring) (signature : bytes)
  : completion bool :=
  Normal (str_eqb signature (1 :: Sha256.digest (key ++ Utf8.encode data))).

(** Two models that differ below the top level only. *)
Definition point_model : record :=
  [(u "type", JStr (u "object"));
   (u "properties", JObj [(u "x", JStr (u "number")); (u "y", JStr (u "number"))])].

Definition label_model : record :=
  [(u "type", JStr (u "object"));
   (u "properties", JObj [(u "label", JStr (u "string"))])].

Definition nested_schema_reordered : record :=
  [(u "required", JArr [JStr (u "id")]);
   (u "properties",
    JObj [(u "tags", JArr [JStr (u "a"); JObj [(u "a", JNum 2); (u "b", JNum 1)]]);
          (u "id", JObj [(u "minimum", JNum 0); (u "type", JStr (u "number"))])]);
   (u "type", JStr (u "object"))].

End Samples.

(** * Properties *)

Lemma str_eqb_eq a b : str_eqb a b = true <-> a = b.
Proof.
  revert b; induction a as [|x a IH]; intros [|y b]; simpl; split; intro H;
    try reflexivity; try discriminate.
  - apply andb_true_iff in H as [H1 H2]. apply Z.eqb_eq in H1.
    apply IH in H2. congruence.
  - inversion H; subst. rewrite Z.eqb_refl. simpl. now apply IH.
Qed.

Lemma str_eqb_refl a : str_eqb a a = true.
Proof. now apply str_eqb_eq. Qed.

Lemma str_eqb_neq a b : str_eqb a b = false <-> a <> b.
Proof.
  split.
  - intros H E. apply str_eqb_eq in E. congruence.
  - intros H. destruct (str_eqb a b) eqn:E; [|reflexivity].
    apply str_eqb_eq in E. contradiction.
Qed.

Module Base64Facts.

Import Base64.

Ltac split_tests :=
  repeat match goal with
         | |- context [?a <=? ?b] => destruct (Z.leb_spec a b); cbn [andb orb negb]; try lia
         | |- context [?a <? ?b] => destruct (Z.ltb_spec a b); cbn [andb orb negb]; try lia
         | |- context [?a =? ?b] => destruct (Z.eqb_spec a b); cbn [andb orb negb]; try lia
         end.

Lemma enc_range i : 0 <= i < 64 -> 0 <= enc i < 128.
Proof. unfold enc; intros H. split_tests. Qed.

Lemma dec_enc i : 0 <= i < 64 -> dec (enc i) = Some i.
Proof.
  intros H. unfold enc. split_tests; unfold dec, in_range; split_tests; f_equal; lia.
Qed.

Lemma dec_enc_low i : 0 <= i < 64 -> dec (enc i mod 256) = Some i.
Proof.
  intros H. rewrite Z.mod_small by (pose proof (enc_range i H); lia).
  apply dec_enc. exact H.
Qed.

Lemma base64_decode_encode bs : Forall is_byte bs -> decode (encode bs) = bs.
Proof.
  unfold decode.
  assert (IH3 : forall n bs, (length bs <= n)%nat -> Forall is_byte bs ->
                             groups (sextets (encode bs)) = bs).
  { induction n as [|n IH]; intros l Hl Hb.
    - destruct l; [reflexivity | simpl in Hl; lia].
    - destruct l as [|a [|b [|c r]]]; [reflexivity | | |].
      + inversion Hb as [|? ? Ha _]; subst. unfold is_byte in Ha.
        cbn [encode sextets]. cbv zeta. rewrite !dec_enc_low by euclid.
        change (pad mod 256) with pad.
        change (dec pad) with (@None Z). rewrite Z.eqb_refl.
        cbn [groups]. f_equal. euclid.
      + inversion Hb as [|? ? Ha Hb']; subst. inversion Hb' as [|? ? Hb0 _]; subst.
        unfold is_byte in *.
        cbn [encode sextets]. cbv zeta. rewrite !dec_enc_low by euclid.
        change (pad mod 256) with pad.
        change (dec pad) with (@None Z). rewrite Z.eqb_refl.
        cbn [groups]. f_equal; [|f_equal]; euclid.
      + inversion Hb as [|? ? Ha Hb']; subst. inversion Hb' as [|? ? Hb0 Hb'']; subst.
        inversion Hb'' as [|? ? Hc Hr]; subst. unfold is_byte in *.
        cbn [encode sextets]. cbv zeta.
        rewrite !dec_enc_low by euclid. cbn [groups].
        rewrite (IH r) by (simpl in Hl; lia || assumption).
        f_equal; [|f_equal; [|f_equal]]; euclid. }
  intros H. apply (IH3 (length bs)); [lia | assumption].
Qed.

Lemma encode_ascii bs : Forall is_byte bs -> Forall (fun c => 0 <= c < 128) (encode bs).
Proof.
  assert (IH3 : forall n bs, (length bs <= n)%nat -> Forall is_byte bs ->
                             Forall (fun c => 0 <= c < 128) (encode bs)).
  { induction n as [|n IH]; intros l Hl Hb.
    - destruct l; [constructor | simpl in Hl; lia].
    - destruct l as [|a [|b [|c r]]]; [constructor | | |].
      + inversion Hb as [|? ? Ha _]; subst. unfold is_byte in Ha. cbn [encode].
        repeat constructor; try (apply enc_range; euclid); unfold pad; lia.
      + inversion Hb as [|? ? Ha Hb']; subst. inversion Hb' as [|? ? Hb0 _]; subst.
        unfold is_byte in *. cbn [encode].
        repeat constructor; try (apply enc_range; euclid); unfold pad; lia.
      + inversion Hb as [|? ? Ha Hb']; subst. inversion Hb' as [|? ? Hb0 Hb'']; subst.
        inversion Hb'' as [|? ? Hc Hr]; subst. unfold is_byte in *.
        cbn [encode].
        repeat (constructor; [apply enc_range; euclid|]).
        apply IH; [simpl in Hl; lia | assumption]. }
  intros H. apply (IH3 (length bs)); [lia | assumption].
Qed.

End Base64Facts.

Module Utf8Facts.

Import Utf8.

(** Decide the test of the outermost conditional. *)
Ltac head_if :=
  match goal with
  | |- (if ?c then _ else _) = _ =>
      first [ replace c with true by (unfold is_high, is_low, is_cont, in_range; lia)
            | replace c with false by (unfold is_high, is_low, is_cont, in_range; lia) ]
  end.

Ltac some_if :=
  match goal with
  | |- context [if ?c then _ else _] =>
      first [ replace c with true by (unfold is_high, is_low, is_cont, in_range; lia)
            | replace c with false by (unfold is_high, is_low, is_cont, in_range; lia) ]
  end.

Lemma decode_1 b r : 0 <= b < 0x80 -> decode (b :: r) = b :: decode r.
Proof. intros H. cbn [decode]. head_if. reflexivity. Qed.

Lemma decode_2 b1 b2 r :
  0xC2 <= b1 <= 0xDF -> 0x80 <= b2 <= 0xBF ->
  decode (b1 :: b2 :: r) = ((b1 - 0xC0) * 64 + (b2 - 0x80)) :: decode r.
Proof. intros H1 H2. cbn [decode]. repeat head_if. reflexivity. Qed.

Lemma decode_3 b1 b2 b3 r :
  0xE0 <= b1 <= 0xEF -> lower b1 <= b2 <= upper b1 -> 0x80 <= b3 <= 0xBF ->
  decode (b1 :: b2 :: b3 :: r)
  = ((b1 - 0xE0) * 4096 + (b2 - 0x80) * 64 + (b3 - 0x80)) :: decode r.
Proof. intros H1 H2 H3. cbn [decode]. repeat head_if. reflexivity. Qed.

Lemma decode_4 b1 b2 b3 b4 r :
  0xF0 <= b1 <= 0xF4 -> lower b1 <= b2 <= upper b1 -> 0x80 <= b3 <= 0xBF ->
  0x80 <= b4 <= 0xBF ->
  decode (b1 :: b2 :: b3 :: b4 :: r)
  = to_units ((b1 - 0xF0) * 262144 + (b2 - 0x80) * 4096
              + (b3 - 0x80) * 64 + (b4 - 0x80)) ++ decode r.
Proof. intros H1 H2 H3 H4. cbn [decode]. repeat head_if. reflexivity. Qed.

(** The digits of a code point in base 64. *)
Lemma code_point_digits cp :
  0 <= cp < 0x110000 ->
  exists d3 d2 d1 d0,
    cp = 262144 * d3 + 4096 * d2 + 64 * d1 + d0
    /\ 0 <= d3 < 5 /\ 0 <= d2 < 64 /\ 0 <= d1 < 64 /\ 0 <= d0 < 64
    /\ cp / 262144 = d3 /\ cp / 4096 mod 64 = d2
    /\ cp / 64 mod 64 = d1 /\ cp mod 64 = d0
    /\ cp / 4096 = 64 * d3 + d2 /\ cp / 64 = 4096 * d3 + 64 * d2 + d1.
Proof.
  intros H.
  exists (cp / 262144), (cp / 4096 mod 64), (cp / 64 mod 64), (cp mod 64).
  repeat split; euclid.
Qed.

Ltac bounds :=
  unfold lower, upper;
  repeat match goal with
         | |- context [?a =? ?b] => destruct (Z.eqb_spec a b)
         end; lia.

Lemma decode_scalar cp rest :
  0 <= cp < 0x110000 -> is_high cp = false -> is_low cp = false ->
  decode (encode_scalar cp ++ rest) = to_units cp ++ decode rest.
Proof.
  unfold is_high, is_low, in_range. intros Hr Hh Hl.
  destruct (code_point_digits cp Hr)
    as (d3 & d2 & d1 & d0 & E & B3 & B2 & B1 & B0 & E3 & E2 & E1 & E0 & E2' & E1').
  unfold encode_scalar.
  destruct (Z.ltb_spec cp 0x80); [|destruct (Z.ltb_spec cp 0x800);
    [|destruct (Z.ltb_spec cp 0x10000)]]; cbn [app].
  - rewrite decode_1 by lia. unfold to_units. some_if. reflexivity.
  - rewrite E1', E0, decode_2 by lia. unfold to_units. some_if.
    cbn [app]. f_equal. lia.
  - rewrite E2', E1, E0, decode_3 by bounds. unfold to_units. some_if.
    cbn [app]. f_equal. lia.
  - rewrite E3, E2, E1, E0, decode_4 by bounds. do 2 f_equal. lia.
Qed.

Lemma well_formed_app a b :
  well_formed a = true -> well_formed b = true -> well_formed (a ++ b) = true.
Proof.
  assert (G : forall n a, (List.length a <= n)%nat -> well_formed a = true ->
                          well_formed b = true -> well_formed (a ++ b) = true).
  { induction n as [|n IH]; intros l Hn Ha Hb.
    - destruct l; [assumption | simpl in Hn; lia].
    - destruct l as [|c r]; [assumption|].
      cbn [well_formed app] in *. destruct (is_high c).
      + destruct r as [|d r']; [discriminate|]. cbn [app].
        apply andb_true_iff in Ha as [Hd Hr]. rewrite Hd. cbn [andb].
        apply IH; [simpl in Hn; lia | assumption | assumption].
      + apply andb_true_iff in Ha as [Hc Hr]. rewrite Hc. cbn [andb].
        apply IH; [simpl in Hn; lia | assumption | assumption]. }
  intros Ha Hb. apply (G (List.length a)); [lia | assumption | assumption].
Qed.

Lemma utf8_decode_encode s : well_formed s = true -> decode (encode s) = s.
Proof.
  assert (G : forall n s, (List.length s <= n)%nat -> well_formed s = true ->
                          decode (encode s) = s).
  { induction n as [|n IH]; intros l Hn Hw.
    - destruct l; [reflexivity | simpl in Hn; lia].
    - destruct l as [|c r]; [reflexivity|].
      cbn [well_formed encode] in *. destruct (is_high c) eqn:Hc.
      + destruct r as [|d r']; [discriminate|].
        apply andb_true_iff in Hw as [Hd Hr]. rewrite Hd.
        unfold is_high, is_low, in_range in Hc, Hd.
        rewrite decode_scalar, IH; try assumption;
          try (simpl in Hn; lia);
          try (unfold pair_code_point, is_high, is_low, in_range; lia).
        unfold to_units, pair_code_point. some_if.
        cbn [app]. f_equal; [euclid | f_equal; euclid].
      + apply andb_true_iff in Hw as [Hw Hr].
        apply andb_true_iff in Hw as [Hl Hx].
        apply negb_true_iff in Hl. rewrite Hl.
        unfold in_range in Hx.
        rewrite decode_scalar, IH; try assumption;
          try (simpl in Hn; lia).
        unfold to_units. some_if. reflexivity. }
  intros H. apply (G (List.length s)); [lia | assumption].
Qed.

Lemma ascii_well_formed s :
  Forall (fun c => 0 <= c < 128) s -> well_formed s = true.
Proof.
  induction 1 as [|c r Hc _ IH]; [reflexivity|].
  cbn [well_formed].
  replace (is_high c) with false by (unfold is_high, in_range; lia).
  replace (is_low c) with false by (unfold is_low, in_range; lia).
  replace (in_range 0 65535 c) with true by (unfold in_range; lia).
  exact IH.
Qed.

Lemma well_formed_ascii_cons c r :
  0 <= c < 128 -> well_formed (c :: r) = well_formed r.
Proof.
  intros H. cbn [well_formed].
  replace (is_high c) with false by (unfold is_high, in_range; lia).
  replace (is_low c) with false by (unfold is_low, in_range; lia).
  replace (in_range 0 65535 c) with true by (unfold in_range; lia).
  reflexivity.
Qed.

Lemma encode_scalar_bytes cp :
  0 <= cp < 0x110000 -> Forall is_byte (encode_scalar cp).
Proof.
  intros H. unfold encode_scalar, is_byte.
  destruct (Z.ltb_spec cp 0x80); [|destruct (Z.ltb_spec cp 0x800);
    [|destruct (Z.ltb_spec cp 0x10000)]]; repeat constructor; euclid.
Qed.

Lemma encode_bytes s : well_formed s = true -> Forall is_byte (encode s).
Proof.
  assert (G : forall n s, (List.length s <= n)%nat -> well_formed s = true ->
                          Forall is_byte (encode s)).
  { induction n as [|n IH]; intros l Hn Hw.
    - destruct l; [constructor | simpl in Hn; lia].
    - destruct l as [|c r]; [constructor|].
      cbn [well_formed encode] in *. destruct (is_high c) eqn:Hc.
      + destruct r as [|d r']; [discriminate|].
        apply andb_true_iff in Hw as [Hd Hr]. rewrite Hd.
        unfold is_high, is_low, in_range in Hc, Hd.
        apply Forall_app. split.
        * apply encode_scalar_bytes. unfold pair_code_point. lia.
        * apply IH; [cbn [List.length] in Hn; lia | assumption].
      + apply andb_true_iff in Hw as [Hw Hr].
        apply andb_true_iff in Hw as [Hl Hx].
        apply negb_true_iff in Hl. rewrite Hl. unfold in_range in Hx.
        apply Forall_app. split.
        * apply encode_scalar_bytes. lia.
        * apply IH; [cbn [List.length] in Hn; lia | assumption]. }
  intros H. apply (G (List.length s)); [lia | assumption].
Qed.

End Utf8Facts.

(** ** Numbers *)

Module NumberFacts.

Import Number.

Lemma value_app a b :
  value (a ++ b) = value a * 10 ^ Z.of_nat (List.length b) + value b.
Proof.
  unfold value.
  assert (G : forall l acc,
             fold_left (fun acc c => acc * 10 + (c - 48)) l acc
             = acc * 10 ^ Z.of_nat (List.length l)
               + fold_left (fun acc c => acc * 10 + (c - 48)) l 0).
  { induction l as [|c l IH]; intros acc; cbn [fold_left List.length].
    - change (10 ^ Z.of_nat 0) with 1. lia.
    - rewrite (IH (acc * 10 + (c - 48))), (IH (0 * 10 + (c - 48))).
      rewrite Nat2Z.inj_succ, Z.pow_succ_r by lia. ring. }
  rewrite fold_left_app, G. reflexivity.
Qed.

Lemma digits_length k s : List.length (digits k s) = k.
Proof.
  revert s. induction k as [|k IH]; intros s; cbn [digits]; [reflexivity|].
  rewrite length_app, IH. cbn [List.length]. lia.
Qed.

Lemma digits_all k s : all_digits (digits k s).
Proof.
  revert s. induction k as [|k IH]; intros s; cbn [digits]; [constructor|].
  apply Forall_app. split; [apply IH|]. constructor; [|constructor].
  unfold is_digit, in_range. euclid.
Qed.

Lemma value_digits k s : 0 <= s -> value (digits k s) = s mod 10 ^ Z.of_nat k.
Proof.
  revert s. induction k as [|k IH]; intros s Hs; cbn [digits].
  - change (10 ^ Z.of_nat 0) with 1. rewrite Z.mod_1_r. reflexivity.
  - rewrite value_app, IH by (apply Z.div_pos; lia).
    cbn [List.length]. change (10 ^ Z.of_nat 1) with 10.
    change (value [48 + s mod 10]) with (0 * 10 + (48 + s mod 10 - 48)).
    rewrite Nat2Z.inj_succ, Z.pow_succ_r by lia.
    assert (Hp : 0 < 10 ^ Z.of_nat k) by (apply Z.pow_pos_nonneg; lia).
    rewrite (Z.rem_mul_r s 10 (10 ^ Z.of_nat k)) by lia. ring.
Qed.

Lemma value_digits_small k s :
  0 <= s < 10 ^ Z.of_nat k -> value (digits k s) = s.
Proof.
  intros H. rewrite value_digits by lia. apply Z.mod_small. exact H.
Qed.

Lemma digits_split a b s :
  digits (a + b) s = digits a (s / 10 ^ Z.of_nat b) ++ digits b s.
Proof.
  revert s. induction b as [|b IH]; intros s.
  - rewrite Nat.add_0_r. change (10 ^ Z.of_nat 0) with 1. rewrite Z.div_1_r.
    cbn [digits]. symmetry. apply app_nil_r.
  - rewrite Nat.add_succ_r. cbn [digits]. rewrite IH, <- app_assoc.
    rewrite Nat2Z.inj_succ, Z.pow_succ_r by lia.
    rewrite Z.div_div by (try apply Z.pow_pos_nonneg; lia).
    reflexivity.
Qed.

Lemma span_digits_app ds rest :
  all_digits ds ->
  match rest with [] => True | c :: _ => is_digit c = false end ->
  span_digits (ds ++ rest) = (ds, rest).
Proof.
  intros Hd Hr. induction Hd as [|c ds Hc _ IH]; cbn [app span_digits].
  - destruct rest as [|c r]; [reflexivity|]. cbn [span_digits]. rewrite Hr. reflexivity.
  - rewrite Hc, IH. reflexivity.
Qed.

Lemma count_digits_spec fuel : forall p,
  1 <= p < 2 ^ Z.of_nat fuel ->
  1 <= count_digits fuel p
  /\ 10 ^ (count_digits fuel p - 1) <= p < 10 ^ count_digits fuel p.
Proof.
  induction fuel as [|f IH]; intros p Hp.
  - change (2 ^ Z.of_nat 0) with 1 in Hp. lia.
  - cbn [count_digits]. destruct (p <? 10) eqn:E.
    + change (10 ^ (1 - 1)) with 1. change (10 ^ 1) with 10. lia.
    + rewrite Nat2Z.inj_succ, Z.pow_succ_r in Hp by lia.
      destruct (IH (p / 10)) as (H1 & H2 & H3); [euclid|].
      replace (1 + count_digits f (p / 10) - 1) with (Z.succ (count_digits f (p / 10) - 1))
        by lia.
      replace (1 + count_digits f (p / 10)) with (Z.succ (count_digits f (p / 10)))
        by lia.
      rewrite !Z.pow_succ_r by lia. split; [lia|]. euclid.
Qed.

Lemma ndigits_spec p :
  1 <= p -> 1 <= ndigits p /\ 10 ^ (ndigits p - 1) <= p < 10 ^ ndigits p.
Proof.
  intros Hp. unfold ndigits. apply count_digits_spec.
  rewrite Nat2Z.inj_succ, Z2Nat.id by (apply Z.log2_nonneg).
  split; [exact Hp|]. apply Z.log2_spec. lia.
Qed.

Lemma round_equal negative p q :
  QArith_base.Qeq p q -> round negative p = round negative q.
Proof.
  intros H. unfold round. rewrite (Qreduction.Qred_complete p q H). reflexivity.
Qed.

Lemma strip_odd m e : is_odd m = true -> strip m e = (m, e).
Proof. destruct m; [reflexivity | discriminate | reflexivity]. Qed.

Lemma strip_shift (j : nat) : forall m e0,
  is_odd m = true ->
  strip (Z.to_pos (Z.pos m * 2 ^ Z.of_nat j)) e0 = (m, e0 + Z.of_nat j).
Proof.
  induction j as [|j IH]; intros m e0 Hm.
  - change (2 ^ Z.of_nat 0) with 1. rewrite Z.mul_1_r, Z.add_0_r.
    cbn [Z.to_pos]. apply strip_odd. exact Hm.
  - rewrite Nat2Z.inj_succ, Z.pow_succ_r by lia.
    assert (Hp : 0 < Z.pos m * 2 ^ Z.of_nat j)
      by (apply Z.mul_pos_pos; [lia | apply Z.pow_pos_nonneg; lia]).
    replace (Z.pos m * (2 * 2 ^ Z.of_nat j)) with (2 * (Z.pos m * 2 ^ Z.of_nat j))
      by ring.
    destruct (Z.pos m * 2 ^ Z.of_nat j) as [|p|p] eqn:E; try lia.
    change (2 * Z.pos p) with (Z.pos (xO p)).
    cbn [Z.to_pos strip]. specialize (IH m (e0 + 1) Hm). rewrite E in IH.
    cbn [Z.to_pos] in IH. rewrite IH. f_equal. lia.
Qed.

Lemma strip_spec p : forall e0 m e,
  strip p e0 = (m, e) ->
  is_odd m = true /\ e0 <= e /\ Z.pos p = Z.pos m * 2 ^ (e - e0).
Proof.
  induction p as [p IH | p IH | ]; intros e0 m e H; cbn [strip] in H.
  - inversion H; subst. rewrite Z.sub_diag. cbn [is_odd]. lia.
  - apply IH in H as (H1 & H2 & H3). split; [exact H1|]. split; [lia|].
    replace (e - e0) with (Z.succ (e - (e0 + 1))) by lia.
    rewrite Z.pow_succ_r by lia. lia.
  - inversion H; subst. rewrite Z.sub_diag. cbn [is_odd]. lia.
Qed.

Lemma odd_gcd_pow2 m j : is_odd m = true -> 0 <= j -> Z.gcd (Z.pos m) (2 ^ j) = 1.
Proof.
  intros Hm Hj. apply Zdivisibility.Z.coprime_pow_r; [exact Hj|].
  unfold Zdivisibility.Z.coprime. rewrite Z.gcd_comm.
  apply Zdivisibility.Z.coprime_prime_l; [apply Zdivisibility.Z.prime_2|].
  intros [c Hc]. destruct m; [lia | discriminate | lia].
Qed.

Lemma round_half_even_exact b c : 0 < b -> round_half_even (b * c) b = c.
Proof.
  intros Hb. unfold round_half_even.
  rewrite (Z.mul_comm b c), Z.div_mul, Z.mod_mul by lia.
  replace (2 * 0 <? b) with true by lia. reflexivity.
Qed.

Lemma floor_log2_exact m e :
  (if 0 <=? e then floor_log2 (Z.pos m * 2 ^ e) 1
   else floor_log2 (Z.pos m) (2 ^ (- e)))
  = Z.log2 (Z.pos m) + e.
Proof.
  pose proof (Z.log2_spec (Z.pos m) ltac:(lia)) as [Hlo _].
  pose proof (Z.log2_nonneg (Z.pos m)) as Hnn.
  unfold floor_log2, scale2. destruct (0 <=? e) eqn:E.
  - rewrite Z.log2_mul_pow2 by lia. change (Z.log2 1) with 0.
    replace (0 <=? e + Z.log2 (Z.pos m) - 0) with true by lia.
    replace (1 * 2 ^ (e + Z.log2 (Z.pos m) - 0) <=? Z.pos m * 2 ^ e) with true.
    + lia.
    + symmetry. apply Z.leb_le.
      replace (e + Z.log2 (Z.pos m) - 0) with (Z.log2 (Z.pos m) + e) by lia.
      rewrite Z.pow_add_r by lia.
      assert (0 < 2 ^ e) by (apply Z.pow_pos_nonneg; lia). nia.
  - rewrite Z.log2_pow2 by lia.
    assert (Hj : 0 < 2 ^ (- e)) by (apply Z.pow_pos_nonneg; lia).
    destruct (0 <=? Z.log2 (Z.pos m) - - e) eqn:E2.
    + replace (2 ^ (- e) * 2 ^ (Z.log2 (Z.pos m) - - e) <=? Z.pos m) with true; [lia|].
      symmetry. apply Z.leb_le. rewrite <- Z.pow_add_r by lia.
      replace (- e + (Z.log2 (Z.pos m) - - e)) with (Z.log2 (Z.pos m)) by lia. exact Hlo.
    + replace (2 ^ (- e) <=? Z.pos m * 2 ^ (- (Z.log2 (Z.pos m) - - e))) with true; [lia|].
      symmetry. apply Z.leb_le.
      replace (- e) with (Z.log2 (Z.pos m) + - (Z.log2 (Z.pos m) - - e)) at 1 by lia.
      rewrite Z.pow_add_r by lia.
      assert (0 < 2 ^ (- (Z.log2 (Z.pos m) - - e))) by (apply Z.pow_pos_nonneg; lia).
      nia.
Qed.

(** A value of the format is the Number value of itself. *)
Lemma round_exact negative m e :
  valid (Finite negative m e) = true ->
  round negative (exact m e) = Finite negative m e.
Proof.
  cbn [valid]. rewrite !andb_true_iff.
  intros (((Hodd & Hm) & He) & Hmax).
  pose proof (floor_log2_exact m e) as Hlog.
  assert (Hred : Qreduction.Qred (exact m e) = exact m e).
  { apply Qcanon.Qred_identity. unfold exact. destruct (0 <=? e) eqn:E.
    - cbn [QArith_base.Qnum QArith_base.Qden]. apply Z.gcd_1_r.
    - cbn [QArith_base.Qnum QArith_base.Qden].
      rewrite Z2Pos.id by (apply Z.pow_pos_nonneg; lia).
      apply odd_gcd_pow2; [exact Hodd | lia]. }
  unfold round. rewrite Hred. unfold exact in *. destruct (0 <=? e) eqn:E.
  - cbn [QArith_base.Qnum QArith_base.Qden].
    assert (Hp : 0 < Z.pos m * 2 ^ e)
      by (apply Z.mul_pos_pos; [lia | apply Z.pow_pos_nonneg; lia]).
    destruct (Z.pos m * 2 ^ e) as [|n|n] eqn:En; try lia.
    unfold of_ratio. rewrite Hlog.
    set (ebin := Z.max (Z.log2 (Z.pos m) + e - 52) (- 1074)).
    assert (Hb : ebin <= e) by lia.
    set (j := e - ebin).
    assert (Hr : (let (a, b) := scale2 (Z.pos n) 1 ebin in round_half_even a b)
                 = Z.pos m * 2 ^ j).
    { unfold scale2. destruct (0 <=? ebin) eqn:Eb.
      - replace (Z.pos n) with (1 * 2 ^ ebin * (Z.pos m * 2 ^ j)).
        + apply round_half_even_exact. apply Z.mul_pos_pos; [lia|].
          apply Z.pow_pos_nonneg; lia.
        + rewrite <- En. unfold j. replace e with (ebin + (e - ebin)) at 2 by lia.
          rewrite Z.pow_add_r by lia. ring.
      - replace (Z.pos n * 2 ^ (- ebin)) with (1 * (Z.pos m * 2 ^ j)).
        + apply round_half_even_exact. lia.
        + rewrite <- En. unfold j. replace (e - ebin) with (e + - ebin) by lia.
          rewrite Z.pow_add_r by lia. ring. }
    destruct (scale2 (Z.pos n) 1 ebin) as [a b]. rewrite Hr.
    assert (Hp' : 0 < Z.pos m * 2 ^ j)
      by (apply Z.mul_pos_pos; [lia | apply Z.pow_pos_nonneg; lia]).
    destruct (Z.pos m * 2 ^ j) as [|p|p] eqn:Ep; try lia.
    pose proof (strip_shift (Z.to_nat j) m ebin Hodd) as Hs.
    rewrite Z2Nat.id, Ep in Hs by lia. cbn [Z.to_pos] in Hs. rewrite Hs.
    replace (ebin + j) with e by lia.
    replace (Z.log2 (Z.pos m) + e <? 1024) with true by lia. reflexivity.
  - cbn [QArith_base.Qnum QArith_base.Qden].
    assert (Hj : 0 < 2 ^ (- e)) by (apply Z.pow_pos_nonneg; lia).
    rewrite Z2Pos.id by exact Hj.
    unfold of_ratio. rewrite Hlog.
    set (ebin := Z.max (Z.log2 (Z.pos m) + e - 52) (- 1074)).
    assert (Hb : ebin <= e) by lia.
    set (j := e - ebin).
    assert (Hr : (let (a, b) := scale2 (Z.pos m) (2 ^ (- e)) ebin in
                  round_half_even a b)
                 = Z.pos m * 2 ^ j).
    { unfold scale2. replace (0 <=? ebin) with false by lia.
      replace (Z.pos m * 2 ^ (- ebin)) with (2 ^ (- e) * (Z.pos m * 2 ^ j)).
      - apply round_half_even_exact. exact Hj.
      - unfold j. replace (- ebin) with (- e + (e - ebin)) by lia.
        rewrite Z.pow_add_r by lia. ring. }
    destruct (scale2 (Z.pos m) (2 ^ (- e)) ebin) as [a b]. rewrite Hr.
    assert (Hp' : 0 < Z.pos m * 2 ^ j)
      by (apply Z.mul_pos_pos; [lia | apply Z.pow_pos_nonneg; lia]).
    destruct (Z.pos m * 2 ^ j) as [|p|p] eqn:Ep; try lia.
    pose proof (strip_shift (Z.to_nat j) m ebin Hodd) as Hs.
    rewrite Z2Nat.id, Ep in Hs by lia. cbn [Z.to_pos] in Hs. rewrite Hs.
    replace (ebin + j) with e by lia.
    replace (Z.log2 (Z.pos m) + e <? 1024) with true by lia. reflexivity.
Qed.

Lemma eqb_eq a b : eqb a b = true -> a = b.
Proof.
  destruct a as [s m e | s | s | ], b as [s' m' e' | s' | s' | ]; cbn [eqb];
    try discriminate; try reflexivity.
  - rewrite !andb_true_iff. intros [[H1 H2] H3].
    apply Bool.eqb_prop in H1. apply Pos.eqb_eq in H2. apply Z.eqb_eq in H3.
    congruence.
  - intros H. apply Bool.eqb_prop in H. congruence.
  - intros H. apply Bool.eqb_prop in H. congruence.
Qed.

Lemma pow10_pos j : 0 <= j -> 0 < 10 ^ j.
Proof. intros H. apply Z.pow_pos_nonneg; lia. Qed.

(** Moving zeros between the digits and the exponent keeps the decimal. *)
Lemma decimal_shift M E j :
  0 <= j -> QArith_base.Qeq (decimal (M * 10 ^ j) (E - j)) (decimal M E).
Proof.
  intros Hj. unfold decimal, QArith_base.Qeq.
  destruct (0 <=? E - j) eqn:E1, (0 <=? E) eqn:E2; try lia;
    cbn [QArith_base.Qnum QArith_base.Qden];
    rewrite ?Z2Pos.id by (apply pow10_pos; lia).
  - replace E with (j + (E - j)) at 2 by lia. rewrite Z.pow_add_r by lia. ring.
  - replace j with (E + - (E - j)) at 1 by lia. rewrite Z.pow_add_r by lia. ring.
  - replace (- (E - j)) with (j + - E) by lia. rewrite Z.pow_add_r by lia. ring.
Qed.

Lemma exact_decimal m e :
  QArith_base.Qeq
    (decimal (if 0 <=? e then Z.pos m * 2 ^ e else Z.pos m * 5 ^ (- e)) (Z.min e 0))
    (exact m e).
Proof.
  unfold decimal, exact, QArith_base.Qeq. destruct (0 <=? e) eqn:E.
  - rewrite Z.min_r by lia. change (0 <=? 0) with true.
    cbn [QArith_base.Qnum QArith_base.Qden]. change (10 ^ 0) with 1. ring.
  - rewrite Z.min_l by lia. replace (0 <=? e) with false by lia.
    cbn [QArith_base.Qnum QArith_base.Qden].
    rewrite !Z2Pos.id by (apply Z.pow_pos_nonneg; lia).
    replace 10 with (5 * 2) by lia. rewrite Z.pow_mul_l. ring.
Qed.

Lemma search_spec m e D K n (fuel : nat) : forall k s' n' k',
  1 <= k -> k + Z.of_nat fuel = K ->
  10 ^ (K - 1) <= D < 10 ^ K ->
  round false (decimal D (n - K)) = Finite false m e ->
  search m e D K n fuel k = (s', n', k') ->
  1 <= k' /\ 10 ^ (k' - 1) <= s' < 10 ^ k'
  /\ round false (decimal s' (n' - k')) = Finite false m e.
Proof.
  induction fuel as [|f IH]; intros k s' n' k' Hk HK HD Hexact; cbn [search].
  - intros H. inversion H; subst. split; [lia|]. split; assumption.
  - destruct (find (accepts m e n k) (candidates D K k)) as [s|] eqn:Ef.
    + apply find_some in Ef as [Hin Hacc]. apply eqb_eq in Hacc.
      assert (Hlo : 10 ^ (k - 1) <= D / 10 ^ (K - k) < 10 ^ k).
      { assert (E1 : 10 ^ (K - 1) = 10 ^ (k - 1) * 10 ^ (K - k))
          by (rewrite <- Z.pow_add_r by lia; f_equal; lia).
        assert (E2 : 10 ^ K = 10 ^ k * 10 ^ (K - k))
          by (rewrite <- Z.pow_add_r by lia; f_equal; lia).
        assert (Hp : 0 < 10 ^ (K - k)) by (apply pow10_pos; lia).
        split.
        - apply Z.div_le_lower_bound; [exact Hp|]. lia.
        - apply Z.div_lt_upper_bound; [exact Hp|]. lia. }
      assert (Hs : 10 ^ (k - 1) <= s <= 10 ^ k).
      { unfold candidates in Hin.
        cbv zeta in Hin.
        destruct ((2 * (D mod 10 ^ (K - k)) <? 10 ^ (K - k))
                  || ((2 * (D mod 10 ^ (K - k)) =? 10 ^ (K - k))
                      && Z.even (D / 10 ^ (K - k))));
          cbn [In] in Hin; lia. }
      destruct (s =? 10 ^ k) eqn:Es.
      * intros H. inversion H; subst. split; [lia|].
        change (10 ^ (1 - 1)) with 1. change (10 ^ 1) with 10. split; [lia|].
        rewrite <- Hacc. apply round_equal.
        apply Z.eqb_eq in Es. rewrite Es.
        replace (n + 1 - 1) with n by lia.
        rewrite <- (Z.mul_1_l (10 ^ k)).
        symmetry. apply decimal_shift. lia.
      * intros H. inversion H; subst. split; [lia|]. split; [lia | exact Hacc].
    + apply IH; try assumption; lia.
Qed.

Lemma shortest_spec m e s n k :
  valid (Finite false m e) = true ->
  shortest m e = (s, n, k) ->
  1 <= k /\ 10 ^ (k - 1) <= s < 10 ^ k
  /\ round false (decimal s (n - k)) = Finite false m e.
Proof.
  intros Hv. unfold shortest.
  set (D := if 0 <=? e then Z.pos m * 2 ^ e else Z.pos m * 5 ^ (- e)).
  assert (HD : 1 <= D).
  { unfold D. destruct (0 <=? e) eqn:E.
    - assert (0 < 2 ^ e) by (apply Z.pow_pos_nonneg; lia). nia.
    - assert (0 < 5 ^ (- e)) by (apply Z.pow_pos_nonneg; lia). nia. }
  destruct (ndigits_spec D HD) as (HK & Hb).
  apply search_spec; [lia | lia | exact Hb |].
  replace (ndigits D + Z.min e 0 - ndigits D) with (Z.min e 0) by lia.
  unfold D. rewrite (round_equal false _ _ (exact_decimal m e)).
  apply round_exact. exact Hv.
Qed.


(** ** Reading back what [Number::toString] writes *)

Lemma round_sign negative q m e :
  round false q = Finite false m e -> round negative q = Finite negative m e.
Proof.
  unfold round, of_ratio. destruct (QArith_base.Qnum (Qreduction.Qred q)); try discriminate.
  destruct (scale2 _ _ _) as [a b]. destruct (round_half_even a b); try discriminate.
  destruct (strip _ _) as [m' e']. destruct (_ <? 1024); intros H; inversion H.
  reflexivity.
Qed.

Lemma ndigits_pos p : 1 <= ndigits p.
Proof.
  unfold ndigits. cbn [count_digits]. destruct (p <? 10); [lia|].
  assert (G : forall fuel q, 0 <= count_digits fuel q).
  { induction fuel as [|f IH]; intros q; cbn [count_digits]; [lia|].
    destruct (q <? 10); [lia|]. specialize (IH (q / 10)). lia. }
  specialize (G (Z.to_nat (Z.log2 p)) (p / 10)). lia.
Qed.

Lemma value_ndigits y :
  0 <= y -> value (digits (Z.to_nat (ndigits y)) y) = y.
Proof.
  intros Hy. apply value_digits_small.
  rewrite Z2Nat.id by (pose proof (ndigits_pos y); lia).
  destruct (Z.eq_dec y 0) as [->|Hn]; [split; [lia|]; apply pow10_pos; vm_compute; discriminate|].
  pose proof (ndigits_spec y). lia.
Qed.

Lemma value_zeros j : value (repeat 48 j) = 0.
Proof.
  induction j as [|j IH]; [reflexivity|].
  change (repeat 48 (S j)) with ([48] ++ repeat 48 j).
  rewrite value_app, IH. reflexivity.
Qed.

Lemma zeros_all j : all_digits (repeat 48 j).
Proof. induction j; constructor; [reflexivity | assumption]. Qed.

(** The first of the [k] digits of a number with exactly [k] digits is not
    a zero. *)
Lemma digits_head k s :
  1 <= k -> 10 ^ (k - 1) <= s < 10 ^ k ->
  exists d ds, digits (Z.to_nat k) s = d :: ds /\ d <> 48
               /\ List.length ds = Z.to_nat (k - 1).
Proof.
  intros Hk Hs.
  replace (Z.to_nat k) with (1 + Z.to_nat (k - 1))%nat by lia.
  rewrite digits_split. rewrite Z2Nat.id by lia.
  cbn [digits app].
  exists (48 + (s / 10 ^ (k - 1)) mod 10), (digits (Z.to_nat (k - 1)) s).
  split; [reflexivity|]. split; [|apply digits_length].
  assert (Hp : 0 < 10 ^ (k - 1)) by (apply pow10_pos; lia).
  assert (Hq : 10 ^ k = 10 * 10 ^ (k - 1)).
  { replace k with (Z.succ (k - 1)) at 1 by lia. apply Z.pow_succ_r. lia. }
  assert (H1 : 1 <= s / 10 ^ (k - 1) < 10).
  { split.
    - apply Z.div_le_lower_bound; lia.
    - apply Z.div_lt_upper_bound; lia. }
  rewrite Z.mod_small by lia. lia.
Qed.

Lemma parse_fraction_none s :
  match s with [] => True | c :: _ => c <> 46 end ->
  parse_fraction s = Some ([], s).
Proof.
  destruct s as [|c r]; [reflexivity|]. intros H. cbn [parse_fraction].
  destruct (Z.eqb_spec c 46); [contradiction | reflexivity].
Qed.

Lemma parse_fraction_some fs rest :
  all_digits fs -> fs <> [] ->
  match rest with [] => True | c :: _ => is_digit c = false end ->
  parse_fraction (46 :: fs ++ rest) = Some (fs, rest).
Proof.
  intros Hd Hn Hr. cbn [parse_fraction]. change (46 =? 46) with true. cbv iota.
  rewrite span_digits_app by assumption.
  destruct fs; [contradiction | reflexivity].
Qed.

Lemma parse_exponent_none s :
  match s with [] => True | c :: _ => c <> 101 /\ c <> 69 end ->
  parse_exponent s = Some (0, s).
Proof.
  destruct s as [|c r]; [reflexivity|]. intros [H1 H2]. cbn [parse_exponent].
  destruct (Z.eqb_spec c 101); [contradiction|].
  destruct (Z.eqb_spec c 69); [contradiction | reflexivity].
Qed.

Lemma parse_exponent_some x rest :
  match rest with [] => True | c :: _ => is_digit c = false end ->
  parse_exponent
    (101 :: (if x <? 0 then 45 else 43)
         :: digits (Z.to_nat (ndigits (Z.abs x))) (Z.abs x) ++ rest)
  = Some (x, rest).
Proof.
  intros Hr. cbn [parse_exponent]. change (101 =? 101) with true. cbn [orb]. cbv iota.
  assert (Hv := value_ndigits (Z.abs x) (Z.abs_nonneg x)).
  assert (Hl := digits_length (Z.to_nat (ndigits (Z.abs x))) (Z.abs x)).
  pose proof (ndigits_pos (Z.abs x)) as Hp.
  set (ds := digits (Z.to_nat (ndigits (Z.abs x))) (Z.abs x)) in *.
  assert (Hs : span_digits (ds ++ rest) = (ds, rest))
    by (apply span_digits_app; [apply digits_all | exact Hr]).
  destruct (x <? 0) eqn:E.
  - change (45 =? 45) with true. cbv iota. rewrite Hs.
    destruct ds as [|d ds']; [cbn [List.length] in Hl; lia|].
    rewrite Hv. f_equal. f_equal. lia.
  - change (43 =? 45) with false. change (43 =? 43) with true. cbv iota. rewrite Hs.
    destruct ds as [|d ds']; [cbn [List.length] in Hl; lia|].
    rewrite Hv. f_equal. f_equal. lia.
Qed.

(** A literal reads as the decimal that its digits and exponent write. *)
Lemma parse_literal negative ip fs exponent rest :
  all_digits ip ->
  match ip with [] => False | d :: ds => d = 48 -> ds = [] end ->
  all_digits fs ->
  number_end rest ->
  value (ip ++ fs) <> 0 ->
  parse (sign negative ++ literal ip fs exponent ++ rest)
  = Some (round negative
            (decimal (value (ip ++ fs))
               (match exponent with Some x => x | None => 0 end
                - Z.of_nat (List.length fs))), rest).
Proof.
  intros Hip Hz Hfs Hr Hv.
  destruct ip as [|d ds]; [contradiction|].
  assert (Hd : is_digit d = true) by (inversion Hip; assumption).
  set (X := match exponent with
            | Some x =>
                101 :: (if x <? 0 then 45 else 43)
                    :: digits (Z.to_nat (ndigits (Z.abs x))) (Z.abs x)
            | None => []
            end).
  set (F := match fs with [] => [] | _ => 46 :: fs end).
  assert (Hl : literal (d :: ds) fs exponent ++ rest = (d :: ds) ++ F ++ X ++ rest).
  { unfold literal. fold F. fold X. rewrite <- !app_assoc. reflexivity. }
  assert (Hrest : match rest with [] => True | c :: _ => is_digit c = false end).
  { destruct rest as [|c r]; [exact I | apply Hr]. }
  assert (Hrest' : forall c r, rest = c :: r -> c <> 46 /\ c <> 101 /\ c <> 69).
  { intros c r ->. destruct Hr as [_ Hr]. unfold is_fraction_or_exponent in Hr.
    lia. }
  assert (HX : match X ++ rest with [] => True | c :: _ => is_digit c = false end).
  { destruct exponent; [reflexivity | exact Hrest]. }
  assert (HFX : match F ++ X ++ rest with [] => True | c :: _ => is_digit c = false end).
  { destruct fs; [exact HX | reflexivity]. }
  assert (Hsign : forall t : jsstring,
            t = sign negative ++ (d :: ds) ++ F ++ X ++ rest ->
            match t with
            | c :: r => if c =? 45 then (true, r) else (false, t)
            | [] => (false, t)
            end = (negative, (d :: ds) ++ F ++ X ++ rest)).
  { intros t ->. destruct negative; cbn [sign app]; [reflexivity|].
    unfold is_digit, in_range in Hd. destruct (Z.eqb_spec d 45); [lia | reflexivity]. }
  unfold parse. rewrite Hl, (Hsign _ eq_refl).
  rewrite span_digits_app by assumption.
  replace ((d =? 48) && negb (Nat.eqb (List.length ds) 0)) with false.
  2:{ destruct (Z.eqb_spec d 48) as [E|E]; [|reflexivity].
      rewrite (Hz E). reflexivity. }
  assert (HF : parse_fraction (F ++ X ++ rest) = Some (fs, X ++ rest)).
  { unfold F. destruct fs as [|f fs'].
    - apply parse_fraction_none. cbn [app]. unfold X.
      destruct exponent; cbn [app]; [discriminate|].
      destruct rest as [|c r]; [exact I | apply (Hrest' c r eq_refl)].
    - apply (parse_fraction_some (f :: fs')); [assumption | discriminate | exact HX]. }
  rewrite HF.
  assert (HE : parse_exponent (X ++ rest)
               = Some (match exponent with Some x => x | None => 0 end, rest)).
  { unfold X. destruct exponent as [x|].
    - apply parse_exponent_some. exact Hrest.
    - apply parse_exponent_none.
      destruct rest as [|c r]; [exact I | apply (Hrest' c r eq_refl)]. }
  rewrite HE. cbv zeta.
  change (d :: ds ++ fs) with ((d :: ds) ++ fs).
  destruct (Z.eqb_spec (value ((d :: ds) ++ fs)) 0); [contradiction | reflexivity].
Qed.

(** What [format] lays out reads as the decimal [s * 10 ^ (n - k)]. *)
Lemma parse_format negative s n k rest :
  1 <= k -> 10 ^ (k - 1) <= s < 10 ^ k -> number_end rest ->
  parse (sign negative ++ format s n k ++ rest)
  = Some (round negative (decimal s (n - k)), rest).
Proof.
  intros Hk Hs Hr.
  destruct (digits_head k s Hk Hs) as (d & ds & Hds & Hd & Hlen).
  assert (Hall := digits_all (Z.to_nat k) s).
  assert (Hp : 0 < 10 ^ (k - 1)) by (apply pow10_pos; lia).
  assert (Hval : value (digits (Z.to_nat k) s) = s).
  { apply value_digits_small. rewrite Z2Nat.id by lia. lia. }
  assert (Hklen := digits_length (Z.to_nat k) s).
  assert (Hparts : forall j, all_digits (firstn j (digits (Z.to_nat k) s))
                             /\ all_digits (skipn j (digits (Z.to_nat k) s))).
  { intros j. apply Forall_app. rewrite firstn_skipn. exact Hall. }
  unfold format. cbv zeta.
  destruct ((k <=? n) && (n <=? 21)) eqn:Ea.
  { rewrite parse_literal.
    - rewrite app_nil_r, value_app, Hval, value_zeros, repeat_length.
      cbn [List.length]. rewrite Z.add_0_r, Z2Nat.id by lia.
      f_equal. f_equal. apply round_equal.
      replace (0 - Z.of_nat 0) with (n - k - (n - k)) by lia.
      apply decimal_shift. lia.
    - apply Forall_app. split; [exact Hall | apply zeros_all].
    - rewrite Hds. cbn [app]. intros E. contradiction.
    - constructor.
    - exact Hr.
    - rewrite app_nil_r, value_app, Hval, value_zeros, repeat_length.
      assert (0 < 10 ^ Z.of_nat (Z.to_nat (n - k))) by (apply pow10_pos; lia).
      nia. }
  destruct ((0 <? n) && (n <=? 21)) eqn:Eb.
  { rewrite parse_literal.
    - rewrite firstn_skipn, Hval, length_skipn, Hklen.
      replace (0 - Z.of_nat (Z.to_nat k - Z.to_nat n)) with (n - k) by lia.
      reflexivity.
    - apply (Hparts (Z.to_nat n)).
    - rewrite Hds. replace (Z.to_nat n) with (S (Z.to_nat (n - 1))) by lia.
      cbn [firstn]. intros E. contradiction.
    - apply (Hparts (Z.to_nat n)).
    - exact Hr.
    - rewrite firstn_skipn, Hval. lia. }
  destruct ((- 6 <? n) && (n <=? 0)) eqn:Ec.
  { rewrite parse_literal.
    - change ([48] ++ repeat 48 (Z.to_nat (- n)) ++ digits (Z.to_nat k) s)
        with (repeat 48 (S (Z.to_nat (- n))) ++ digits (Z.to_nat k) s).
      rewrite value_app, value_zeros, Hval, length_app, repeat_length, Hklen.
      replace (0 - Z.of_nat (Z.to_nat (- n) + Z.to_nat k)) with (n - k) by lia.
      reflexivity.
    - constructor; [reflexivity | constructor].
    - reflexivity.
    - apply Forall_app. split; [apply zeros_all | exact Hall].
    - exact Hr.
    - change ([48] ++ repeat 48 (Z.to_nat (- n)) ++ digits (Z.to_nat k) s)
        with (repeat 48 (S (Z.to_nat (- n))) ++ digits (Z.to_nat k) s).
      rewrite value_app, value_zeros, Hval. lia. }
  rewrite parse_literal.
  - rewrite firstn_skipn, Hval, length_skipn, Hklen.
    replace (n - 1 - Z.of_nat (Z.to_nat k - 1)) with (n - k) by lia.
    reflexivity.
  - rewrite Hds. cbn [firstn]. constructor; [|constructor].
    rewrite Hds in Hall. inversion Hall; assumption.
  - rewrite Hds. cbn [firstn]. reflexivity.
  - rewrite Hds. cbn [skipn]. rewrite Hds in Hall. inversion Hall; assumption.
  - exact Hr.
  - rewrite firstn_skipn, Hval. lia.
Qed.

(** Every Number value with a finite non-zero magnitude is read back from
    the string that [Number::toString] gives it. *)
Lemma parse_to_string negative m e rest :
  valid (Finite negative m e) = true ->
  number_end rest ->
  parse (to_string (Finite negative m e) ++ rest) = Some (Finite negative m e, rest).
Proof.
  intros Hv Hr. cbn [to_string].
  destruct (shortest m e) as [[s n] k] eqn:Es.
  destruct (shortest_spec m e s n k Hv Es) as (Hk & Hs & Hround).
  rewrite <- app_assoc, parse_format by assumption.
  rewrite (round_sign negative _ m e Hround). reflexivity.
Qed.


(** ** The shape of what [Number::toString] writes *)

Lemma search_length m e D K n (fuel : nat) : forall k s' n' k',
  1 <= k -> 1 <= K -> search m e D K n fuel k = (s', n', k') -> 1 <= k'.
Proof.
  induction fuel as [|f IH]; intros k s' n' k' Hk HK; cbn [search].
  - intros H. inversion H; subst. exact HK.
  - destruct (find (accepts m e n k) (candidates D K k)) as [s|].
    + destruct (s =? 10 ^ k); intros H; inversion H; subst; lia.
    + apply IH; lia.
Qed.

Lemma shortest_length m e s n k : shortest m e = (s, n, k) -> 1 <= k.
Proof.
  unfold shortest. apply search_length; [lia | apply ndigits_pos].
Qed.

Lemma is_digit_ascii c : is_digit c = true -> 0 <= c < 128.
Proof. unfold is_digit, in_range. lia. Qed.

Lemma digits_ascii k s : Forall (fun c => 0 <= c < 128) (digits k s).
Proof.
  eapply Forall_impl; [|apply digits_all]. intros c. apply is_digit_ascii.
Qed.

Lemma literal_ascii ip fs exponent :
  all_digits ip -> all_digits fs ->
  Forall (fun c => 0 <= c < 128) (literal ip fs exponent).
Proof.
  intros Hi Hf. unfold literal. apply Forall_app. split.
  - eapply Forall_impl; [|exact Hi]. intros c. apply is_digit_ascii.
  - apply Forall_app. split.
    + destruct fs as [|f fs']; constructor; [lia|].
      eapply Forall_impl; [|exact Hf]. intros c. apply is_digit_ascii.
    + destruct exponent as [x|]; constructor; [lia|].
      constructor; [destruct (x <? 0); lia | apply digits_ascii].
Qed.

Lemma digits_parts k s j :
  all_digits (firstn j (digits k s)) /\ all_digits (skipn j (digits k s)).
Proof. apply Forall_app. rewrite firstn_skipn. apply digits_all. Qed.

Lemma format_ascii s n k : Forall (fun c => 0 <= c < 128) (format s n k).
Proof.
  unfold format. cbv zeta.
  destruct ((k <=? n) && (n <=? 21));
    [|destruct ((0 <? n) && (n <=? 21)); [|destruct ((- 6 <? n) && (n <=? 0))]];
    apply literal_ascii;
    try apply digits_parts; try (constructor; constructor);
    try (apply Forall_app; split; (apply digits_all || apply zeros_all)).
Qed.

Lemma digits_cons k s :
  (0 < k)%nat -> exists d ds, digits k s = d :: ds /\ is_digit d = true.
Proof.
  intros Hk. pose proof (digits_all k s) as Ha. pose proof (digits_length k s) as Hl.
  destruct (digits k s) as [|d ds]; [cbn [List.length] in Hl; lia|].
  exists d, ds. split; [reflexivity|]. inversion Ha; assumption.
Qed.

Lemma format_head s n k :
  1 <= k -> exists c t, format s n k = c :: t /\ is_digit c = true.
Proof.
  intros Hk. destruct (digits_cons (Z.to_nat k) s) as (d & ds & E & Hd); [lia|].
  unfold format, literal. cbv zeta. rewrite E.
  destruct ((k <=? n) && (n <=? 21)) eqn:Ea.
  { cbn [app]. eexists; eexists. split; [reflexivity | exact Hd]. }
  destruct ((0 <? n) && (n <=? 21)) eqn:Eb.
  { replace (Z.to_nat n) with (S (Z.to_nat (n - 1))) by lia. cbn [firstn app].
    eexists; eexists. split; [reflexivity | exact Hd]. }
  destruct ((- 6 <? n) && (n <=? 0)) eqn:Ec.
  { cbn [app]. eexists; eexists. split; [reflexivity | reflexivity]. }
  cbn [firstn app]. eexists; eexists. split; [reflexivity | exact Hd].
Qed.

Lemma to_string_head negative m e :
  exists c t, to_string (Finite negative m e) = c :: t
              /\ (is_digit c = true \/ c = 45).
Proof.
  cbn [to_string]. destruct (shortest m e) as [[s n] k] eqn:Es.
  destruct negative; cbn [sign app].
  - eexists; eexists. split; [reflexivity | right; reflexivity].
  - destruct (format_head s n k (shortest_length _ _ _ _ _ Es)) as (c & t & E & Hc).
    exists c, t. split; [exact E | left; exact Hc].
Qed.

Lemma to_string_ascii x : Forall (fun c => 0 <= c < 128) (to_string x).
Proof.
  destruct x as [negative m e | negative | [|] | ]; cbn [to_string];
    try (repeat constructor; lia).
  destruct (shortest m e) as [[s n] k]. apply Forall_app. split.
  - destruct negative; repeat constructor; lia.
  - apply format_ascii.
Qed.

(** ** Every rounding gives a value of the format *)

Lemma scale2_shift N D k j :
  0 <= j ->
  fst (scale2 N D (k - j)) * snd (scale2 N D k)
  = fst (scale2 N D k) * snd (scale2 N D (k - j)) * 2 ^ j.
Proof.
  intros Hj. unfold scale2.
  destruct (0 <=? k) eqn:E1, (0 <=? k - j) eqn:E2; cbn [fst snd]; try lia.
  - replace k with ((k - j) + j) at 1 by lia. rewrite Z.pow_add_r by lia. ring.
  - replace j with (- (k - j) + k) at 2 by lia. rewrite Z.pow_add_r by lia. ring.
  - replace (- (k - j)) with (- k + j) by lia. rewrite Z.pow_add_r by lia. ring.
Qed.

Lemma scale2_pos N D k : 0 < N -> 0 < D -> 0 < fst (scale2 N D k) /\ 0 < snd (scale2 N D k).
Proof.
  intros HN HD. unfold scale2. destruct (0 <=? k) eqn:E; cbn [fst snd].
  - split; [exact HN|]. apply Z.mul_pos_pos; [exact HD | apply Z.pow_pos_nonneg; lia].
  - split; [|exact HD]. apply Z.mul_pos_pos; [exact HN | apply Z.pow_pos_nonneg; lia].
Qed.

Lemma floor_log2_upper N D :
  0 < N -> 0 < D ->
  fst (scale2 N D (floor_log2 N D + 1)) < snd (scale2 N D (floor_log2 N D + 1)).
Proof.
  intros HN HD. unfold floor_log2.
  pose proof (Z.log2_spec N HN) as [_ H1]. pose proof (Z.log2_spec D HD) as [H2 _].
  pose proof (Z.log2_nonneg N) as H3. pose proof (Z.log2_nonneg D) as H4.
  set (lN := Z.log2 N) in *. set (lD := Z.log2 D) in *.
  destruct (scale2 N D (lN - lD)) as [a b] eqn:E.
  destruct (b <=? a) eqn:Eb.
  - unfold scale2. destruct (0 <=? lN - lD + 1) eqn:E1; cbn [fst snd].
    + assert (Hp : 2 ^ Z.succ lN = 2 ^ lD * 2 ^ (lN - lD + 1))
        by (rewrite <- Z.pow_add_r by lia; f_equal; lia).
      assert (0 < 2 ^ (lN - lD + 1)) by (apply Z.pow_pos_nonneg; lia).
      nia.
    + assert (Hp : 2 ^ lD = 2 ^ Z.succ lN * 2 ^ (- (lN - lD + 1)))
        by (rewrite <- Z.pow_add_r by lia; f_equal; lia).
      assert (0 < 2 ^ (- (lN - lD + 1))) by (apply Z.pow_pos_nonneg; lia).
      nia.
  - replace (lN - lD - 1 + 1) with (lN - lD) by lia. rewrite E. cbn [fst snd]. lia.
Qed.

Lemma round_half_even_bound a b c :
  0 < b -> 0 <= a -> a < c * b -> 0 <= round_half_even a b <= c.
Proof.
  intros Hb Ha Hc. unfold round_half_even.
  assert (H1 : 0 <= a / b) by (apply Z.div_pos; lia).
  assert (H2 : a / b < c) by (apply Z.div_lt_upper_bound; lia).
  destruct (2 * (a mod b) <? b); [lia|].
  destruct (b <? 2 * (a mod b)); [lia|].
  destruct (Z.even (a / b)); lia.
Qed.

Lemma odd_below p : is_odd p = true -> Z.pos p <= 2 ^ 53 -> Z.pos p < 2 ^ 53.
Proof.
  intros Ho Hp. destruct (Z.eq_dec (Z.pos p) (2 ^ 53)) as [E|E]; [|lia].
  change (2 ^ 53) with (Z.pos 9007199254740992) in E. inversion E; subst.
  discriminate.
Qed.

Lemma of_ratio_valid negative N D :
  0 < N -> 0 < D -> valid (of_ratio negative N D) = true.
Proof.
  intros HN HD. unfold of_ratio.
  set (fl := floor_log2 N D). set (ebin := Z.max (fl - 52) (- 1074)).
  pose proof (floor_log2_upper N D HN HD) as Hup. fold fl in Hup.
  pose proof (scale2_pos N D ebin HN HD) as [Ha Hb].
  pose proof (scale2_pos N D (fl + 1) HN HD) as [Ha' Hb'].
  assert (Hlt : fst (scale2 N D ebin) < 2 ^ 53 * snd (scale2 N D ebin)).
  { destruct (Z.le_gt_cases ebin (fl + 1)) as [Hle|Hgt].
    - pose proof (scale2_shift N D (fl + 1) (fl + 1 - ebin)) as Hs.
      replace (fl + 1 - (fl + 1 - ebin)) with ebin in Hs by lia.
      specialize (Hs ltac:(lia)).
      assert (Hj : 2 ^ (fl + 1 - ebin) <= 2 ^ 53) by (apply Z.pow_le_mono_r; lia).
      assert (Hj0 : 0 < 2 ^ (fl + 1 - ebin)) by (apply Z.pow_pos_nonneg; lia).
      set (a := fst (scale2 N D ebin)) in *. set (b := snd (scale2 N D ebin)) in *.
      set (a' := fst (scale2 N D (fl + 1))) in *.
      set (b' := snd (scale2 N D (fl + 1))) in *.
      set (t := 2 ^ (fl + 1 - ebin)) in *.
      assert (a * b' < b * t * b') by nia.
      assert (a < b * t) by nia.
      nia.
    - pose proof (scale2_shift N D ebin (ebin - (fl + 1))) as Hs.
      replace (ebin - (ebin - (fl + 1))) with (fl + 1) in Hs by lia.
      specialize (Hs ltac:(lia)).
      assert (Hj0 : 1 <= 2 ^ (ebin - (fl + 1)))
        by (change 1 with (2 ^ 0); apply Z.pow_le_mono_r; lia).
      set (a := fst (scale2 N D ebin)) in *. set (b := snd (scale2 N D ebin)) in *.
      set (a' := fst (scale2 N D (fl + 1))) in *.
      set (b' := snd (scale2 N D (fl + 1))) in *.
      set (t := 2 ^ (ebin - (fl + 1))) in *.
      assert (a * b' * t < b * b') by nia.
      assert (a * t < b) by nia.
      change (2 ^ 53) with 9007199254740992. nia. }
  destruct (scale2 N D ebin) as [a b] eqn:E. cbn [fst snd] in *.
  pose proof (round_half_even_bound a b (2 ^ 53) Hb ltac:(lia) Hlt) as [_ Hq].
  destruct (round_half_even a b) as [|p|p]; try reflexivity.
  destruct (strip p ebin) as [m e] eqn:Es.
  apply strip_spec in Es as (Hodd & He & Hv).
  destruct (Z.log2 (Z.pos m) + e <? 1024) eqn:Emax; [|reflexivity].
  cbn [valid]. rewrite Hodd, Emax. cbn [andb]. rewrite andb_true_r.
  apply andb_true_iff. split; [|unfold ebin in *; lia].
  apply Z.ltb_lt. apply Z.log2_lt_pow2; [lia|].
  apply odd_below; [exact Hodd|].
  assert (1 <= 2 ^ (e - ebin)) by (change 1 with (2 ^ 0); apply Z.pow_le_mono_r; lia).
  nia.
Qed.

Lemma round_valid negative q : valid (round negative q) = true.
Proof.
  unfold round. destruct (QArith_base.Qnum (Qreduction.Qred q)); try reflexivity.
  apply of_ratio_valid; lia.
Qed.

Lemma of_Z_valid n : valid (of_Z n) = true.
Proof. destruct n; [reflexivity | apply round_valid | apply round_valid]. Qed.

(** ** Safe integers *)

Lemma round_integer negative m e :
  is_odd m = true -> 0 <= e -> Z.pos m * 2 ^ e <= 9007199254740991 ->
  valid (Finite negative m e) = true
  /\ round negative (decimal (Z.pos m * 2 ^ e) 0) = Finite negative m e.
Proof.
  intros Hodd He Hmax.
  assert (Hp : 0 < 2 ^ e) by (apply Z.pow_pos_nonneg; lia).
  assert (Hlog : Z.log2 (Z.pos m * 2 ^ e) = e + Z.log2 (Z.pos m))
    by (apply Z.log2_mul_pow2; lia).
  assert (Hlt : Z.log2 (Z.pos m * 2 ^ e) < 53).
  { apply Z.log2_lt_pow2; [nia|]. change (2 ^ 53) with 9007199254740992. lia. }
  assert (Hv : valid (Finite negative m e) = true).
  { cbn [valid]. rewrite Hodd. cbn [andb].
    pose proof (Z.log2_nonneg (Z.pos m)). lia. }
  split; [exact Hv|].
  rewrite <- (round_exact negative m e Hv). apply round_equal.
  unfold decimal, exact. change (0 <=? 0) with true. cbv iota.
  replace (0 <=? e) with true by lia.
  change (10 ^ 0) with 1. rewrite Z.mul_1_r. reflexivity.
Qed.

Lemma of_Z_safe n :
  - 9007199254740991 <= n <= 9007199254740991 -> n <> 0 ->
  exists m e, of_Z n = Finite (n <? 0) m e
              /\ valid (Finite (n <? 0) m e) = true
              /\ to_safe_integer (Finite (n <? 0) m e) = Some n.
Proof.
  intros Hs Hn.
  assert (G : forall p negative, Z.pos p <= 9007199254740991 ->
              exists m e, round negative (decimal (Z.pos p) 0) = Finite negative m e
                          /\ valid (Finite negative m e) = true
                          /\ 0 <= e /\ Z.pos m * 2 ^ e = Z.pos p).
  { intros p negative Hp. destruct (strip p 0) as [m e] eqn:E.
    apply strip_spec in E as (Hodd & He & Hv). rewrite Z.sub_0_r in Hv.
    exists m, e. rewrite Hv in *.
    destruct (round_integer negative m e Hodd He Hp) as [H1 H2]. auto. }
  destruct n as [|p|p]; [congruence| |].
  - destruct (G p false) as (m & e & H1 & H2 & H3 & H4); [lia|].
    exists m, e. change (Z.pos p <? 0) with false. cbn [of_Z].
    split; [exact H1|]. split; [exact H2|]. cbn [to_safe_integer].
    rewrite H4. replace ((0 <=? e) && (Z.pos p <=? 9007199254740991)) with true by lia.
    reflexivity.
  - destruct (G p true) as (m & e & H1 & H2 & H3 & H4); [lia|].
    exists m, e. change (Z.neg p <? 0) with true. cbn [of_Z].
    split; [exact H1|]. split; [exact H2|]. cbn [to_safe_integer].
    rewrite H4. replace ((0 <=? e) && (Z.pos p <=? 9007199254740991)) with true by lia.
    reflexivity.
Qed.

Lemma to_safe_integer_of_Z x n :
  valid x = true -> to_safe_integer x = Some n ->
  - 9007199254740991 <= n <= 9007199254740991 /\ of_Z n = x.
Proof.
  intros Hv H. destruct x as [negative m e | [|] | s | ]; try discriminate.
  - cbn [to_safe_integer] in H.
    destruct ((0 <=? e) && (Z.pos m * 2 ^ e <=? 9007199254740991)) eqn:E; [|discriminate].
    apply andb_true_iff in E as [He Hmax].
    assert (Hodd : is_odd m = true).
    { cbn [valid] in Hv. rewrite !andb_true_iff in Hv. tauto. }
    assert (Hp : 0 < 2 ^ e) by (apply Z.pow_pos_nonneg; lia).
    destruct (Z.pos m * 2 ^ e) as [|p|p] eqn:Ep; try nia.
    destruct negative; inversion H; subst n.
    + split; [lia|]. change (- Z.pos p) with (Z.neg p). cbn [of_Z].
      rewrite <- Ep. apply round_integer; lia.
    + split; [lia|]. cbn [of_Z]. rewrite <- Ep. apply round_integer; lia.
  - inversion H; subst. split; [lia | reflexivity].
Qed.

Lemma eqb_refl x : eqb x x = true.
Proof.
  destruct x as [s m e | s | s | ]; cbn [eqb];
    rewrite ?Bool.eqb_reflx, ?Pos.eqb_refl, ?Z.eqb_refl; reflexivity.
Qed.

(** The literal [0], after a sign or none. *)
Lemma parse_zero negative rest :
  number_end rest -> parse (sign negative ++ 48 :: rest) = Some (Zero negative, rest).
Proof.
  intros Hr.
  assert (Hd : match rest with [] => True | c :: _ => is_digit c = false end).
  { destruct rest; [exact I | apply Hr]. }
  assert (Hf : parse_fraction rest = Some ([], rest)).
  { apply parse_fraction_none. destruct rest as [|c r]; [exact I|].
    destruct Hr as [_ Hr]. unfold is_fraction_or_exponent in Hr. lia. }
  assert (He : parse_exponent rest = Some (0, rest)).
  { apply parse_exponent_none. destruct rest as [|c r]; [exact I|].
    destruct Hr as [_ Hr]. unfold is_fraction_or_exponent in Hr. lia. }
  assert (Hs : span_digits (48 :: rest) = ([48], rest)).
  { apply (span_digits_app [48] rest); [repeat constructor | exact Hd]. }
  unfold parse. destruct negative; cbn [sign app].
  - change (45 =? 45) with true. cbv iota. rewrite Hs.
    cbn [List.length Nat.eqb negb andb]. rewrite andb_false_r, Hf, He. reflexivity.
  - change (48 =? 45) with false. cbv iota. rewrite Hs.
    cbn [List.length Nat.eqb negb andb]. rewrite andb_false_r, Hf, He. reflexivity.
Qed.

End NumberFacts.

Module JsonFacts.

Import Json.

Lemma json_induction (P : json -> Prop) :
  P JNull -> (forall b, P (JBool b)) -> (forall n, P (JNum n)) ->
  (forall x, P (JDbl x)) -> (forall s, P (JStr s)) ->
  (forall l, Forall P l -> P (JArr l)) ->
  (forall o, Forall (fun kv => P (snd kv)) o -> P (JObj o)) ->
  forall v, P v.
Proof.
  intros Hnull Hbool Hnum Hdbl Hstr Harr Hobj.
  fix IH 1. intros [ | b | n | x | s | l | o ].
  - exact Hnull.
  - apply Hbool.
  - apply Hnum.
  - apply Hdbl.
  - apply Hstr.
  - apply Harr. induction l as [|x l IHl]; constructor; [apply IH | exact IHl].
  - apply Hobj. induction o as [|[k x] o IHo]; constructor; [apply IH | exact IHo].
Qed.

Lemma valid_stringb_spec s : valid_stringb s = true -> valid_string s.
Proof.
  unfold valid_stringb, valid_string. rewrite forallb_forall, Forall_forall.
  intros H c Hc. apply H in Hc. unfold in_range, code_unit in *. lia.
Qed.

(** *** Numbers are read back *)

Lemma safe_integer_spec n :
  safe_integer n = true <-> - 9007199254740991 <= n <= 9007199254740991.
Proof. unfold safe_integer. lia. Qed.

Lemma number_text_finite x :
  Number.is_finite x = true -> number_text x = Number.to_string x.
Proof. intros H. unfold number_text. rewrite H. reflexivity. Qed.

(** A safe integer is read back as the integer. *)
Lemma parse_number_to_string n rest :
  safe_integer n = true -> number_end rest ->
  number_text (Number.of_Z n) = number_to_string n
  /\ option_map (fun xr => (of_number (fst xr), snd xr))
       (Number.parse (number_to_string n ++ rest))
     = Some (JNum n, rest).
Proof.
  intros Hs Hr. apply safe_integer_spec in Hs. unfold number_to_string.
  destruct (Z.eq_dec n 0) as [->|Hn].
  - split; [reflexivity|].
    change (Number.to_string (Number.of_Z 0) ++ rest) with (Number.sign false ++ 48 :: rest).
    rewrite NumberFacts.parse_zero by exact Hr. reflexivity.
  - destruct (NumberFacts.of_Z_safe n Hs Hn) as (m & e & E & Hv & Hi).
    rewrite E. split; [reflexivity|].
    rewrite NumberFacts.parse_to_string by assumption.
    cbn [option_map fst snd]. unfold of_number. rewrite Hi. reflexivity.
Qed.

(** A number that is not a safe integer is read back as it is. *)
Lemma parse_proper_double x rest :
  proper_double x = true -> number_end rest ->
  number_text x = Number.to_string x
  /\ option_map (fun xr => (of_number (fst xr), snd xr))
       (Number.parse (Number.to_string x ++ rest))
     = Some (JDbl x, rest).
Proof.
  intros Hp Hr. destruct x as [negative m e | | | ]; try discriminate.
  unfold proper_double in Hp. apply andb_true_iff in Hp as [Hv Hi].
  split; [reflexivity|].
  rewrite NumberFacts.parse_to_string by assumption.
  cbn [option_map fst snd]. unfold of_number.
  destruct (Number.to_safe_integer (Number.Finite negative m e));
    [discriminate | reflexivity].
Qed.

(** *** Strings are read back *)

Lemma hex_value_digit n : 0 <= n < 16 -> hex_value (hex_digit n) = Some n.
Proof.
  intros H. unfold hex_digit.
  destruct (Z.ltb_spec n 10); unfold hex_value, in_range;
    repeat decide_if; f_equal; lia.
Qed.

Lemma hex4_escape c :
  code_unit c ->
  hex4 (hex_digit (c / 4096)) (hex_digit (c / 256 mod 16))
       (hex_digit (c / 16 mod 16)) (hex_digit (c mod 16)) = Some c.
Proof.
  unfold code_unit. intros H. unfold hex4.
  rewrite !hex_value_digit by euclid. f_equal. euclid.
Qed.

Lemma parse_unicode_escape c t :
  code_unit c -> parse_chars (unicode_escape c ++ t) = prepend c (parse_chars t).
Proof.
  intros H. unfold unicode_escape. cbn [app parse_chars].
  repeat decide_if. rewrite hex4_escape by assumption. reflexivity.
Qed.

Lemma parse_plain c t :
  32 <= c -> c <> 34 -> c <> 92 -> parse_chars (c :: t) = prepend c (parse_chars t).
Proof. intros H1 H2 H3. cbn [parse_chars]. repeat decide_if. reflexivity. Qed.

Lemma parse_quote_unit c t :
  code_unit c -> parse_chars (quote_unit c ++ t) = prepend c (parse_chars t).
Proof.
  intros H. unfold quote_unit.
  destruct (Z.eqb_spec c 8); [subst; reflexivity|].
  destruct (Z.eqb_spec c 9); [subst; reflexivity|].
  destruct (Z.eqb_spec c 10); [subst; reflexivity|].
  destruct (Z.eqb_spec c 12); [subst; reflexivity|].
  destruct (Z.eqb_spec c 13); [subst; reflexivity|].
  destruct (Z.eqb_spec c 34); [subst; reflexivity|].
  destruct (Z.eqb_spec c 92); [subst; reflexivity|].
  destruct (Z.ltb_spec c 32).
  - apply parse_unicode_escape; assumption.
  - apply parse_plain; assumption.
Qed.

Lemma parse_quote_units s rest :
  valid_string s -> parse_chars (quote_units s ++ 34 :: rest) = Some (s, rest).
Proof.
  assert (G : forall n s, (List.length s <= n)%nat -> valid_string s ->
                          parse_chars (quote_units s ++ 34 :: rest) = Some (s, rest)).
  { induction n as [|n IH]; intros l Hn Hv.
    - destruct l; [reflexivity | simpl in Hn; lia].
    - destruct l as [|c r]; [reflexivity|].
      inversion Hv as [|? ? Hc Hr]; subst. cbn [quote_units].
      destruct (Utf8.is_high c) eqn:Hh.
      + destruct r as [|d r'].
        * rewrite parse_unicode_escape by assumption. reflexivity.
        * destruct (Utf8.is_low d) eqn:Hl.
          -- inversion Hr as [|? ? Hd Hr']; subst.
             unfold Utf8.is_high, Utf8.is_low, in_range in Hh, Hl.
             cbn [app]. rewrite parse_plain by lia. rewrite parse_plain by lia.
             rewrite IH by (try assumption; cbn [List.length] in *; lia). reflexivity.
          -- rewrite <- app_assoc, parse_unicode_escape by assumption.
             rewrite IH by (try assumption; cbn [List.length] in *; lia). reflexivity.
      + destruct (Utf8.is_low c) eqn:Hl.
        * rewrite <- app_assoc, parse_unicode_escape by assumption.
          rewrite IH by (try assumption; cbn [List.length] in *; lia). reflexivity.
        * rewrite <- app_assoc, parse_quote_unit by assumption.
          rewrite IH by (try assumption; cbn [List.length] in *; lia). reflexivity. }
  intros H. apply (G (List.length s)); [lia | assumption].
Qed.

(** *** An object is rebuilt from its own entries *)

Lemma str_eqb_sym a b : str_eqb a b = str_eqb b a.
Proof.
  destruct (str_eqb a b) eqn:E.
  - apply str_eqb_eq in E. subst. symmetry. apply str_eqb_refl.
  - symmetry. apply str_eqb_neq. apply str_eqb_neq in E. congruence.
Qed.

Lemma distinct_keys_last l k :
  distinct_keys (l ++ [k]) = true ->
  distinct_keys l = true /\ existsb (str_eqb k) l = false.
Proof.
  induction l as [|k1 r IH]; cbn [app distinct_keys existsb]; [auto|].
  intros H. apply andb_true_iff in H as [H1 H2].
  apply IH in H2 as [H2 H3]. apply negb_true_iff in H1.
  rewrite existsb_app in H1. apply orb_false_iff in H1 as [H1 H4].
  cbn [existsb] in H4. rewrite orb_false_r in H4.
  rewrite H1, H2, H3, (str_eqb_sym k k1), H4. auto.
Qed.

Lemma has_key_existsb k o : has_key k o = existsb (str_eqb k) (map fst o).
Proof.
  induction o as [|[k' v] o IH]; [reflexivity|].
  cbn [has_key map existsb fst]. rewrite IH. reflexivity.
Qed.

Lemma key_order_last l k :
  key_order (l ++ [k]) = true ->
  key_order l = true
  /\ forall n, array_index k = Some n ->
               Forall (fun k' => exists m, array_index k' = Some m /\ m < n) l.
Proof.
  induction l as [|k1 r IH]; [intros _; split; [reflexivity | constructor]|].
  destruct r as [|k2 r'].
  - cbn [app key_order]. intros H. split; [reflexivity|]. intros n Hn.
    rewrite Hn in H. constructor; [|constructor].
    destruct (array_index k1) as [a|]; [|discriminate]. exists a. split; [reflexivity | lia].
  - change (((k1 :: k2 :: r') ++ [k])) with (k1 :: (k2 :: r') ++ [k]).
    set (tail := (k2 :: r') ++ [k]) in *.
    intros H. assert (H' : match array_index k1, array_index k2 with
                           | Some a, Some b => a <? b
                           | Some _, None => true
                           | None, Some _ => false
                           | None, None => true
                           end && key_order tail = true) by exact H.
    clear H. apply andb_true_iff in H' as [H1 H2].
    apply IH in H2 as [H2 H3]. split.
    + cbn [key_order]. cbn [key_order] in H2. rewrite H1. exact H2.
    + intros n Hn. specialize (H3 n Hn). constructor; [|exact H3].
      inversion H3 as [|? ? (m & Em & Hm) _]; subst. rewrite Em in H1.
      destruct (array_index k1) as [a|]; [|discriminate].
      exists a. split; [reflexivity | lia].
Qed.

Lemma insert_index_last n k v o :
  Forall (fun k' => exists m, array_index k' = Some m /\ m < n) (map fst o) ->
  insert_index n k v o = o ++ [(k, v)].
Proof.
  induction o as [|[k' v'] o IH]; [reflexivity|].
  cbn [map fst]. intros H. inversion H as [|? ? (m & Em & Hm) Ho]; subst.
  cbn [insert_index app]. rewrite Em.
  replace (m <? n) with true by lia. rewrite IH by assumption. reflexivity.
Qed.

Lemma define_last o k v :
  object_ok (o ++ [(k, v)]) = true -> define o k v = o ++ [(k, v)].
Proof.
  unfold object_ok. rewrite map_app. cbn [map fst]. intros H.
  apply andb_true_iff in H as [Hd Ho].
  apply distinct_keys_last in Hd as [_ Hk]. apply key_order_last in Ho as [_ Ho].
  unfold define. rewrite has_key_existsb, Hk.
  destruct (array_index k) as [n|] eqn:E; [|reflexivity].
  apply insert_index_last. apply Ho. reflexivity.
Qed.

Lemma object_ok_prefix o x : object_ok (o ++ [x]) = true -> object_ok o = true.
Proof.
  unfold object_ok. rewrite map_app. cbn [map]. intros H.
  apply andb_true_iff in H as [Hd Ho].
  apply distinct_keys_last in Hd as [Hd _]. apply key_order_last in Ho as [Ho _].
  rewrite Hd, Ho. reflexivity.
Qed.

Lemma from_entries_ok o : object_ok o = true -> from_entries o = o.
Proof.
  unfold from_entries. induction o as [|[k v] o IH] using rev_ind; [reflexivity|].
  intros H. rewrite fold_left_app. cbn [fold_left fst snd].
  rewrite IH by (eapply object_ok_prefix; exact H).
  apply define_last. exact H.
Qed.

(** *** Values are read back *)

Lemma skip_ws_head c t : is_ws c = false -> skip_ws (c :: t) = c :: t.
Proof. intros H. cbn [skip_ws]. rewrite H. reflexivity. Qed.

Lemma expect_head c c' t :
  is_ws c' = false -> expect c (c' :: t) = if c' =? c then Some t else None.
Proof. intros H. unfold expect. rewrite skip_ws_head by assumption. reflexivity. Qed.

(** The text of a number starts with a digit, with a minus sign or with the
    [n] of [null]. *)
Lemma number_text_head x :
  exists c t, number_text x = c :: t
              /\ (is_digit c = true \/ c = 45 \/ c = 110).
Proof.
  unfold number_text. destruct x as [negative m e | negative | negative | ];
    cbn [Number.is_finite];
    try (eexists; eexists; split; [reflexivity | auto]).
  destruct (NumberFacts.to_string_head negative m e) as (c & t & E & Hc).
  exists c, t. split; [exact E | tauto].
Qed.

(** A value never starts with white space nor with a closing bracket. *)
Lemma stringify_head v :
  exists c t, stringify v = c :: t /\ is_ws c = false /\ c <> 93.
Proof.
  destruct v as [ | [|] | n | x | s | l | o ];
    try (eexists; eexists; split; [reflexivity | split; [reflexivity | discriminate]]).
  - destruct (number_text_head (Number.of_Z n)) as (c & t & E & Hc).
    exists c, t. split; [exact E|]. unfold is_ws, is_digit, in_range in *. lia.
  - destruct (number_text_head x) as (c & t & E & Hc).
    exists c, t. split; [exact E|]. unfold is_ws, is_digit, in_range in *. lia.
Qed.

Lemma number_end_delimiter c t :
  c = 44 \/ c = 93 \/ c = 125 -> number_end (c :: t).
Proof.
  intros H. unfold number_end, is_digit, in_range, is_fraction_or_exponent. lia.
Qed.

(** The parser reads a number where the text starts with a digit or with a
    minus sign. *)
Lemma number_read_back text v rest f :
  (exists c t, text = c :: t /\ (is_digit c = true \/ c = 45)) ->
  option_map (fun xr => (of_number (fst xr), snd xr)) (Number.parse (text ++ rest))
  = Some (v, rest) ->
  parse_value (S f) (text ++ rest) = Some (v, rest).
Proof.
  intros (c & t & E & Hc) Hp. rewrite E in *. cbn [app] in *. cbn [parse_value].
  assert (Hw : is_ws c = false) by (unfold is_ws, is_digit, in_range in *; lia).
  rewrite skip_ws_head by assumption.
  unfold is_digit, in_range in Hc. repeat decide_if.
  destruct (Number.parse (c :: t ++ rest)) as [[x r]|]; [|discriminate].
  exact Hp.
Qed.

Lemma elements_read_back l :
  Forall reads_back l -> forallb serializable l = true -> l <> [] ->
  forall fuel rest, (list_sum (map (fun x => S (cost x)) l) < fuel)%nat ->
    parse_elements fuel (join 44 (map stringify l) ++ 93 :: rest) = Some (l, rest).
Proof.
  induction 1 as [|x l Hx Hl IH]; [congruence|].
  intros Hs _ fuel rest Hf.
  cbn [forallb] in Hs. apply andb_true_iff in Hs as [Hsx Hsl].
  cbn [map list_sum fold_right] in Hf.
  destruct fuel as [|f]; [lia|]. cbn [parse_elements].
  destruct l as [|y l'].
  - cbn [map join]. rewrite Hx; [|assumption|lia|apply number_end_delimiter; lia].
    reflexivity.
  - change (join 44 (map stringify (x :: y :: l')))
      with (stringify x ++ 44 :: join 44 (map stringify (y :: l'))).
    rewrite <- app_assoc. cbn [app].
    rewrite Hx; [|assumption|lia|apply number_end_delimiter; lia].
    rewrite skip_ws_head by reflexivity. cbn [Z.eqb Pos.eqb].
    rewrite IH; [reflexivity|assumption|discriminate|unfold list_sum in *; lia].
Qed.

Lemma members_read_back o :
  Forall (fun kv => reads_back (snd kv)) o ->
  forallb (fun kv => valid_stringb (fst kv) && serializable (snd kv)) o = true ->
  o <> [] ->
  forall fuel rest, (list_sum (map (fun kv => S (cost (snd kv))) o) < fuel)%nat ->
    parse_members fuel (join 44 (map (member stringify) o) ++ 125 :: rest) = Some (o, rest).
Proof.
  induction 1 as [|[k x] o Hx Ho IH]; [congruence|].
  intros Hs _ fuel rest Hf.
  cbn [forallb fst snd] in Hs. apply andb_true_iff in Hs as [Hsx Hso].
  apply andb_true_iff in Hsx as [Hk Hsx]. apply valid_stringb_spec in Hk.
  cbn [map list_sum fold_right snd] in Hf. cbn [snd] in Hx.
  destruct fuel as [|f]; [lia|]. cbn [parse_members].
  assert (Hhead : forall tail,
             (member stringify (k, x) ++ tail)
             = 34 :: quote_units k ++ 34 :: 58 :: stringify x ++ tail).
  { intros tail. unfold member, quote. cbn [fst snd app].
    rewrite <- !app_assoc. reflexivity. }
  destruct o as [|kv o'].
  - cbn [map join]. rewrite Hhead.
    rewrite expect_head by reflexivity. cbn [Z.eqb Pos.eqb].
    rewrite parse_quote_units by assumption.
    rewrite expect_head by reflexivity. cbn [Z.eqb Pos.eqb].
    rewrite Hx; [|assumption|lia|apply number_end_delimiter; lia].
    reflexivity.
  - change (join 44 (map (member stringify) ((k, x) :: kv :: o')))
      with (member stringify (k, x) ++ 44 :: join 44 (map (member stringify) (kv :: o'))).
    rewrite <- app_assoc. rewrite Hhead.
    rewrite expect_head by reflexivity. cbn [Z.eqb Pos.eqb].
    rewrite parse_quote_units by assumption.
    rewrite expect_head by reflexivity. cbn [Z.eqb Pos.eqb].
    cbn [app].
    rewrite Hx; [|assumption|lia|apply number_end_delimiter; lia].
    rewrite skip_ws_head by reflexivity. cbn [Z.eqb Pos.eqb].
    rewrite IH; [reflexivity|assumption|discriminate|unfold list_sum in *; lia].
Qed.

Lemma parse_value_stringify v : reads_back v.
Proof.
  induction v as [ | b | n | x | s | l Hl | o Ho ] using json_induction;
    intros Hs fuel rest Hf Hr; (destruct fuel as [|f]; [cbn [cost] in Hf; lia|]).
  - reflexivity.
  - destruct b; reflexivity.
  - destruct (parse_number_to_string n rest Hs Hr) as [Ht Hp].
    cbn [stringify]. rewrite Ht. unfold number_to_string in *.
    apply number_read_back; [|exact Hp].
    destruct (Z.eq_dec n 0) as [->|Hn]; [exists 48, []; split; [reflexivity | auto]|].
    apply safe_integer_spec in Hs.
    destruct (NumberFacts.of_Z_safe n Hs Hn) as (m & e & E & _). rewrite E.
    apply NumberFacts.to_string_head.
  - destruct (parse_proper_double x rest Hs Hr) as [Ht Hp].
    cbn [stringify]. rewrite Ht. apply number_read_back; [|exact Hp].
    destruct x as [negative m e | | | ]; try discriminate.
    apply NumberFacts.to_string_head.
  - cbn [stringify serializable] in *. apply valid_stringb_spec in Hs.
    unfold quote. cbn [app parse_value]. rewrite skip_ws_head by reflexivity.
    cbn [Z.eqb Pos.eqb]. rewrite <- app_assoc. cbn [app].
    rewrite parse_quote_units by assumption. reflexivity.
  - cbn [stringify serializable cost] in *. cbn [app parse_value].
    rewrite skip_ws_head by reflexivity. cbn [Z.eqb Pos.eqb].
    destruct l as [|x l'].
    + reflexivity.
    + rewrite <- app_assoc. cbn [app].
      destruct (stringify_head x) as (c & t & E & Hw & Hc).
      assert (Hx : expect 93 (join 44 (map stringify (x :: l')) ++ 93 :: rest) = None).
      { destruct l'; cbn [map join]; rewrite E; cbn [app];
          rewrite expect_head by assumption; replace (c =? 93) with false by lia;
          reflexivity. }
      rewrite Hx, elements_read_back; [reflexivity|assumption..|discriminate|lia].
  - cbn [stringify serializable cost] in *. cbn [app parse_value].
    rewrite skip_ws_head by reflexivity. cbn [Z.eqb Pos.eqb].
    apply andb_true_iff in Hs as [Hs Hok].
    destruct o as [|kv o'].
    + reflexivity.
    + rewrite <- app_assoc. cbn [app].
      assert (Hx : expect 125 (join 44 (map (member stringify) (kv :: o')) ++ 125 :: rest)
                   = None).
      { destruct o'; cbn [map join]; unfold member at 1, quote; cbn [app];
          rewrite expect_head by reflexivity; reflexivity. }
      assert (Hm : parse_members f (join 44 (map (member stringify) (kv :: o')) ++ 125 :: rest)
                   = Some (kv :: o', rest)).
      { apply members_read_back; [assumption | assumption | discriminate | lia]. }
      rewrite Hx, Hm.
      rewrite from_entries_ok by assumption. reflexivity.
Qed.

Lemma join_length l :
  (list_sum (map (@List.length Z) l) <= List.length (join 44 l))%nat.
Proof.
  induction l as [|x [|y r] IH]; cbn [map list_sum fold_right join List.length] in *.
  - lia.
  - lia.
  - rewrite length_app. cbn [List.length]. unfold list_sum in *. lia.
Qed.

Lemma cost_length v : (cost v < List.length (stringify v))%nat.
Proof.
  induction v as [ | b | n | x | s | l Hl | o Ho ] using json_induction.
  - cbn. lia.
  - destruct b; cbn; lia.
  - destruct (number_text_head (Number.of_Z n)) as (c & t & E & _).
    cbn [cost stringify]. rewrite E. cbn [List.length]. lia.
  - destruct (number_text_head x) as (c & t & E & _).
    cbn [cost stringify]. rewrite E. cbn [List.length]. lia.
  - cbn [cost stringify]. unfold quote. cbn [List.length]. lia.
  - cbn [cost stringify List.length]. rewrite length_app. cbn [List.length].
    assert (Hle : (list_sum (map (fun x => S (cost x)) l)
                   <= list_sum (map (@List.length Z) (map stringify l)))%nat).
    { induction Hl as [|x l' Hx _ IH]; cbn [map list_sum fold_right]; [lia|].
      unfold list_sum in IH. lia. }
    pose proof (join_length (map stringify l)) as Hj. lia.
  - cbn [cost stringify List.length]. rewrite length_app. cbn [List.length].
    assert (Hle : (list_sum (map (fun kv => S (cost (snd kv))) o)
                   <= list_sum (map (@List.length Z) (map (member stringify) o)))%nat).
    { induction Ho as [|x l' Hx _ IH]; cbn [map list_sum fold_right]; [lia|].
      unfold list_sum in IH. unfold member at 1. rewrite length_app.
      cbn [List.length]. lia. }
    pose proof (join_length (map (member stringify) o)) as Hj. lia.
Qed.

(** [JSON.parse(JSON.stringify(v))] is [v]. *)
Lemma parse_stringify v : serializable v = true -> parse (stringify v) = Normal v.
Proof.
  intros Hs. unfold parse.
  pose proof (parse_value_stringify v Hs (S (List.length (stringify v))) []) as H.
  rewrite app_nil_r in H. rewrite H; [reflexivity | | exact I].
  pose proof (cost_length v). lia.
Qed.

(** *** The text of a value has no lone surrogate *)

Lemma number_text_ascii x : Forall (fun c => 0 <= c < 128) (number_text x).
Proof.
  unfold number_text. destruct (Number.is_finite x).
  - apply NumberFacts.to_string_ascii.
  - repeat constructor; lia.
Qed.

Lemma hex_digit_ascii n : 0 <= n < 16 -> 0 <= hex_digit n < 128.
Proof. intros H. unfold hex_digit. destruct (Z.ltb_spec n 10); lia. Qed.

Lemma unicode_escape_ascii c :
  code_unit c -> Forall (fun c => 0 <= c < 128) (unicode_escape c).
Proof.
  unfold code_unit. intros H. unfold unicode_escape.
  repeat constructor; try lia; apply hex_digit_ascii; euclid.
Qed.

Lemma quote_unit_well_formed c :
  code_unit c -> Utf8.is_high c = false -> Utf8.is_low c = false ->
  Utf8.well_formed (quote_unit c) = true.
Proof.
  intros H Hh Hl. unfold quote_unit.
  repeat match goal with
         | |- context [if ?a =? ?b then _ else _] =>
             destruct (Z.eqb_spec a b); [reflexivity|]
         end.
  destruct (Z.ltb_spec c 32).
  - apply Utf8Facts.ascii_well_formed, unicode_escape_ascii. assumption.
  - cbn [Utf8.well_formed]. rewrite Hh, Hl. unfold code_unit in H.
    replace (in_range 0 65535 c) with true by (unfold in_range; lia). reflexivity.
Qed.

Lemma quote_units_well_formed s :
  valid_string s -> Utf8.well_formed (quote_units s) = true.
Proof.
  assert (G : forall n s, (List.length s <= n)%nat -> valid_string s ->
                          Utf8.well_formed (quote_units s) = true).
  { induction n as [|n IH]; intros l Hn Hv.
    - destruct l; [reflexivity | simpl in Hn; lia].
    - destruct l as [|c r]; [reflexivity|].
      inversion Hv as [|? ? Hc Hr]; subst. cbn [quote_units].
      destruct (Utf8.is_high c) eqn:Hh.
      + destruct r as [|d r'].
        * apply Utf8Facts.ascii_well_formed, unicode_escape_ascii. assumption.
        * destruct (Utf8.is_low d) eqn:Hl.
          -- inversion Hr as [|? ? Hd Hr']; subst.
             cbn [Utf8.well_formed]. rewrite Hh, Hl. cbn [andb].
             apply IH; [cbn [List.length] in Hn; lia | assumption].
          -- apply Utf8Facts.well_formed_app.
             ++ apply Utf8Facts.ascii_well_formed, unicode_escape_ascii. assumption.
             ++ apply IH; [cbn [List.length] in *; lia | assumption].
      + destruct (Utf8.is_low c) eqn:Hl; apply Utf8Facts.well_formed_app.
        * apply Utf8Facts.ascii_well_formed, unicode_escape_ascii. assumption.
        * apply IH; [cbn [List.length] in *; lia | assumption].
        * apply quote_unit_well_formed; assumption.
        * apply IH; [cbn [List.length] in *; lia | assumption]. }
  intros H. apply (G (List.length s)); [lia | assumption].
Qed.

Lemma quote_well_formed s : valid_string s -> Utf8.well_formed (quote s) = true.
Proof.
  intros H. unfold quote. rewrite Utf8Facts.well_formed_ascii_cons by lia.
  apply Utf8Facts.well_formed_app; [apply quote_units_well_formed; assumption | reflexivity].
Qed.

Lemma join_well_formed l :
  Forall (fun x => Utf8.well_formed x = true) l ->
  Utf8.well_formed (join 44 l) = true.
Proof.
  induction 1 as [|x l Hx Hl IH]; [reflexivity|].
  destruct l as [|y l']; [exact Hx|].
  change (join 44 (x :: y :: l')) with (x ++ 44 :: join 44 (y :: l')).
  apply Utf8Facts.well_formed_app; [exact Hx|].
  rewrite Utf8Facts.well_formed_ascii_cons by lia. exact IH.
Qed.

Lemma stringify_well_formed v :
  serializable v = true -> Utf8.well_formed (stringify v) = true.
Proof.
  induction v as [ | b | n | x | s | l Hl | o Ho ] using json_induction; intros Hs.
  - reflexivity.
  - destruct b; reflexivity.
  - apply Utf8Facts.ascii_well_formed, number_text_ascii.
  - apply Utf8Facts.ascii_well_formed, number_text_ascii.
  - apply quote_well_formed, valid_stringb_spec, Hs.
  - cbn [stringify serializable] in *.
    rewrite Utf8Facts.well_formed_ascii_cons by lia.
    apply Utf8Facts.well_formed_app; [|reflexivity].
    apply join_well_formed. rewrite Forall_map.
    rewrite forallb_forall in Hs. rewrite Forall_forall in *.
    intros x Hx. apply Hl; [exact Hx | apply Hs, Hx].
  - cbn [stringify serializable] in *. apply andb_true_iff in Hs as [Hs _].
    rewrite Utf8Facts.well_formed_ascii_cons by lia.
    apply Utf8Facts.well_formed_app; [|reflexivity].
    apply join_well_formed. rewrite Forall_map.
    rewrite forallb_forall in Hs. rewrite Forall_forall in *.
    intros [k x] Hx. specialize (Hs _ Hx). cbn [fst snd] in Hs.
    apply andb_true_iff in Hs as [Hk Hsx].
    unfold member. cbn [fst snd]. apply Utf8Facts.well_formed_app.
    + apply quote_well_formed, valid_stringb_spec, Hk.
    + rewrite Utf8Facts.well_formed_ascii_cons by lia. exact (Ho _ Hx Hsx).
Qed.

(** *** Numbers as they are read *)

Lemma as_read_spec x :
  Number.is_finite x = true -> Number.valid x = true ->
  serializable (Notions.as_read x) = true
  /\ stringify (Notions.as_read x) = number_text x
  /\ (forall n, Number.of_Z n = x ->
        Notions.structurally_equal (Notions.as_read x) (JNum n) = true)
  /\ Notions.structurally_equal (Notions.as_read x) (JDbl x) = true.
Proof.
  intros Hf Hv. destruct x as [negative m e | negative | negative | ]; try discriminate.
  - cbn [Notions.as_read]. unfold of_number.
    pose proof (NumberFacts.eqb_refl (Number.Finite negative m e)) as Hr.
    destruct (Number.to_safe_integer (Number.Finite negative m e)) as [k|] eqn:E.
    + destruct (NumberFacts.to_safe_integer_of_Z _ _ Hv E) as [Hs Hk].
      cbn [serializable stringify Notions.structurally_equal]. rewrite Hk.
      split; [apply safe_integer_spec; exact Hs|]. split; [reflexivity|].
      split; [intros n ->|]; exact Hr.
    + cbn [serializable stringify Notions.structurally_equal proper_double].
      rewrite Hv, E. split; [reflexivity|]. split; [reflexivity|].
      split; [intros n ->|]; exact Hr.
  - cbn [Notions.as_read serializable stringify Notions.structurally_equal].
    split; [reflexivity|]. split; [reflexivity|].
    split; [intros n ->|]; reflexivity.
Qed.

(** The numbers of a JSON-serializable value apart, [JSON.parse] gives the
    value back: the value that it gives has the same text, is given back as
    it is, and is structurally equal to the value. *)
Lemma normal_spec v :
  Notions.json_serializable v = true ->
  serializable (Notions.normal v) = true
  /\ stringify (Notions.normal v) = stringify v
  /\ Notions.structurally_equal (Notions.normal v) v = true.
Proof.
  induction v as [ | b | n | x | s | l Hl | o Ho ] using json_induction; intros Hs.
  - repeat split; reflexivity.
  - destruct b; repeat split; reflexivity.
  - cbn [Notions.json_serializable] in Hs. cbn [Notions.normal stringify].
    destruct (as_read_spec (Number.of_Z n) Hs (NumberFacts.of_Z_valid n))
      as (H1 & H2 & H3 & _).
    rewrite H2. split; [exact H1|]. split; [reflexivity | apply H3; reflexivity].
  - cbn [Notions.json_serializable] in Hs. apply andb_true_iff in Hs as [Hf Hv].
    cbn [Notions.normal stringify].
    destruct (as_read_spec x Hf Hv) as (H1 & H2 & _ & H4). auto.
  - cbn [Notions.json_serializable] in Hs.
    cbn [Notions.normal serializable Notions.structurally_equal].
    split; [exact Hs|]. split; [reflexivity | apply str_eqb_refl].
  - cbn [Notions.json_serializable] in Hs.
    cbn [Notions.normal serializable stringify Notions.structurally_equal].
    assert (G : forallb serializable (map Notions.normal l) = true
                /\ map stringify (map Notions.normal l) = map stringify l
                /\ (fix items (l l' : list json) : bool :=
                      match l, l' with
                      | [], [] => true
                      | x :: r, y :: r' => Notions.structurally_equal x y && items r r'
                      | _, _ => false
                      end) (map Notions.normal l) l = true).
    { induction Hl as [|x l Hx _ IH]; [repeat split; reflexivity|].
      cbn [forallb] in Hs. apply andb_true_iff in Hs as [Hsx Hsl].
      destruct (Hx Hsx) as (H1 & H2 & H3). destruct (IH Hsl) as (H4 & H5 & H6).
      cbn [map forallb]. rewrite H1, H2, H3, H4, H5, H6. repeat split; reflexivity. }
    destruct G as (G1 & G2 & G3). rewrite G2. auto.
  - cbn [Notions.json_serializable] in Hs. apply andb_true_iff in Hs as [Hs Hok].
    cbn [Notions.normal serializable stringify Notions.structurally_equal].
    assert (Hk : map fst (map (fun kv => (fst kv, Notions.normal (snd kv))) o) = map fst o).
    { rewrite map_map. reflexivity. }
    unfold object_ok. rewrite Hk. fold (object_ok o). rewrite Hok.
    assert (G : forallb (fun kv => valid_stringb (fst kv) && serializable (snd kv))
                  (map (fun kv => (fst kv, Notions.normal (snd kv))) o) = true
                /\ map (member stringify)
                     (map (fun kv => (fst kv, Notions.normal (snd kv))) o)
                   = map (member stringify) o
                /\ (fix members (o o' : record) : bool :=
                      match o, o' with
                      | [], [] => true
                      | (k, x) :: r, (k', y) :: r' =>
                          str_eqb k k' && Notions.structurally_equal x y && members r r'
                      | _, _ => false
                      end) (map (fun kv => (fst kv, Notions.normal (snd kv))) o) o = true).
    { induction Ho as [|[k x] o Hx _ IH]; [repeat split; reflexivity|].
      cbn [forallb fst snd] in Hs. apply andb_true_iff in Hs as [Hsx Hso].
      apply andb_true_iff in Hsx as [Hkey Hsx]. cbn [snd] in Hx.
      destruct (Hx Hsx) as (H1 & H2 & H3).
      assert (Hko : distinct_keys (map fst o) && key_order (map fst o) = true).
      { unfold object_ok in Hok. cbn [map fst distinct_keys key_order] in Hok.
        apply andb_true_iff in Hok as [Hd Hord].
        apply andb_true_iff in Hd as [_ Hd]. rewrite Hd. cbn [andb].
        destruct (map fst o) as [|k2 ks]; [reflexivity|].
        apply andb_true_iff in Hord as [_ Hord]. exact Hord. }
      assert (Hko' : map fst (map (fun kv => (fst kv, Notions.normal (snd kv))) o)
                     = map fst o) by (rewrite map_map; reflexivity).
      destruct (IH Hso Hko Hko') as (H4 & H5 & H6).
      cbn [map forallb fst snd]. unfold member at 1 3. cbn [fst snd].
      rewrite Hkey, H1, H2, H3, H4, H5, H6, str_eqb_refl. repeat split; reflexivity. }
    destruct G as (G1 & G2 & G3). rewrite G1, G2. auto.
Qed.

(** A value that is read back as it is has its numbers as they are read. *)
Lemma normal_fixed v : serializable v = true -> Notions.normal v = v.
Proof.
  induction v as [ | b | n | x | s | l Hl | o Ho ] using json_induction; intros Hs;
    try reflexivity.
  - cbn [serializable] in Hs. cbn [Notions.normal].
    destruct (Z.eq_dec n 0) as [->|Hn]; [reflexivity|].
    apply safe_integer_spec in Hs.
    destruct (NumberFacts.of_Z_safe n Hs Hn) as (m & e & E & _ & Hi).
    rewrite E. cbn [Notions.as_read]. unfold of_number. rewrite Hi. reflexivity.
  - cbn [serializable] in Hs. destruct x as [negative m e | | | ]; try discriminate.
    unfold proper_double in Hs. apply andb_true_iff in Hs as [_ Hs].
    cbn [Notions.normal Notions.as_read]. unfold of_number.
    destruct (Number.to_safe_integer (Number.Finite negative m e));
      [discriminate | reflexivity].
  - cbn [serializable] in Hs. cbn [Notions.normal]. f_equal.
    induction Hl as [|x l Hx _ IH]; [reflexivity|].
    cbn [forallb] in Hs. apply andb_true_iff in Hs as [Hsx Hsl].
    cbn [map]. rewrite (Hx Hsx), (IH Hsl). reflexivity.
  - cbn [serializable] in Hs. apply andb_true_iff in Hs as [Hs _].
    cbn [Notions.normal]. f_equal.
    induction Ho as [|[k x] o Hx _ IH]; [reflexivity|].
    cbn [forallb fst snd] in Hs. apply andb_true_iff in Hs as [Hsx Hso].
    apply andb_true_iff in Hsx as [_ Hsx]. cbn [snd] in Hx.
    cbn [map fst snd]. rewrite (Hx Hsx), (IH Hso). reflexivity.
Qed.

End JsonFacts.

Section SortFacts.

Context {A : Type} (leb : A -> A -> bool).

#[local] Abbreviation insert := (insert leb).
#[local] Abbreviation sort := (sort leb).
#[local] Abbreviation total_on := (total_on leb).
#[local] Abbreviation transitive_on := (transitive_on leb).
#[local] Abbreviation tie_free := (tie_free leb).
#[local] Abbreviation le := (le leb).

Lemma insert_perm x l : Permutation (x :: l) (insert x l).
Proof.
  induction l as [|y r IH]; cbn [insert]; [reflexivity|].
  destruct (leb x y); [reflexivity|].
  rewrite perm_swap. constructor. exact IH.
Qed.

Lemma sort_perm l : Permutation l (sort l).
Proof.
  induction l as [|x r IH]; cbn [sort fold_right]; [constructor|].
  rewrite <- insert_perm. constructor. exact IH.
Qed.

Lemma total_on_spec l a b :
  total_on l = true -> In a l -> In b l -> leb a b = false -> leb b a = true.
Proof.
  unfold total_on. rewrite forallb_forall. intros H Ha Hb Hab.
  specialize (H a Ha). rewrite forallb_forall in H. specialize (H b Hb).
  rewrite Hab in H. exact H.
Qed.

Lemma transitive_on_spec l a b c :
  transitive_on l = true -> In a l -> In b l -> In c l ->
  leb a b = true -> leb b c = true -> leb a c = true.
Proof.
  unfold transitive_on. rewrite forallb_forall. intros H Ha Hb Hc Hab Hbc.
  specialize (H a Ha). rewrite forallb_forall in H. specialize (H b Hb).
  rewrite forallb_forall in H. specialize (H c Hc).
  rewrite Hab, Hbc in H. exact H.
Qed.

Lemma insert_sorted univ x l :
  total_on univ = true -> In x univ -> incl l univ ->
  Sorted le l -> Sorted le (insert x l).
Proof.
  intros Ht Hx Hl Hs. induction l as [|y r IH]; cbn [insert].
  - repeat constructor.
  - destruct (leb x y) eqn:E.
    + constructor; [exact Hs | constructor; exact E].
    + inversion Hs as [|? ? Hr Hh]; subst.
      assert (Hyx : le y x).
      { apply (total_on_spec univ x y); auto. apply Hl. left. reflexivity. }
      constructor.
      * apply IH; [intros z Hz; apply Hl; right; exact Hz | exact Hr].
      * destruct r as [|z r']; cbn [insert]; [constructor; exact Hyx|].
        destruct (leb x z); constructor; [exact Hyx|].
        inversion Hh; subst. assumption.
Qed.

Lemma sort_incl l : incl (sort l) l.
Proof.
  intros x Hx. eapply Permutation_in; [symmetry; apply sort_perm | exact Hx].
Qed.

Lemma sort_sorted l : total_on l = true -> Sorted le (sort l).
Proof.
  intros Ht.
  assert (G : forall l', incl l' l -> Sorted le (sort l')).
  { induction l' as [|x r IH]; intros Hi; cbn [sort fold_right]; [constructor|].
    apply (insert_sorted l); [exact Ht | apply Hi; left; reflexivity | |].
    - intros z Hz. apply Hi. right. apply sort_incl. exact Hz.
    - apply IH. intros z Hz. apply Hi. right. exact Hz. }
  apply G. apply incl_refl.
Qed.

(** With a transitive comparator the whole tail follows the head. *)
Lemma sorted_strongly univ l :
  transitive_on univ = true -> incl l univ -> Sorted le l -> StronglySorted le l.
Proof.
  intros Htr Hi Hs. induction l as [|x r IH]; [constructor|].
  inversion Hs as [|? ? Hr Hh]; subst.
  assert (Hir : incl r univ) by (intros z Hz; apply Hi; right; exact Hz).
  specialize (IH Hir Hr). constructor; [exact IH|].
  destruct r as [|y r']; [constructor|].
  inversion Hh as [|? ? Hxy]; subst. inversion IH as [|? ? _ Hall]; subst.
  constructor; [exact Hxy|].
  rewrite Forall_forall in *. intros z Hz.
  apply (transitive_on_spec univ x y z); auto.
  - apply Hi. left. reflexivity.
  - apply Hi. right. left. reflexivity.
  - apply Hi. right. right. exact Hz.
  - apply Hall. exact Hz.
Qed.

Lemma tie_free_spec l :
  tie_free l = true ->
  forall x r1 r2, l = r1 ++ x :: r2 ->
    forall y, In y (r1 ++ r2) -> ~ (le x y /\ le y x).
Proof.
  induction l as [|a l IH]; intros Hf x r1 r2 E y Hy [Hxy Hyx].
  - destruct r1; discriminate.
  - cbn [tie_free] in Hf. apply andb_true_iff in Hf as [Ha Hl].
    rewrite forallb_forall in Ha.
    destruct r1 as [|b r1]; cbn [app] in *; inversion E; subst.
    + specialize (Ha y Hy). unfold le in *. rewrite Hxy, Hyx in Ha. discriminate.
    + destruct Hy as [Hy | Hy].
      * subst y. assert (Hx : In x (r1 ++ x :: r2)) by (apply in_elt).
        specialize (Ha x Hx). unfold le in *. rewrite Hxy, Hyx in Ha. discriminate.
      * exact (IH Hl x r1 r2 eq_refl y Hy (conj Hxy Hyx)).
Qed.

(** Two sorted arrangements of the same tie-free elements are the same. *)
Lemma sorted_unique l1 l2 :
  Permutation l1 l2 -> tie_free l1 = true ->
  StronglySorted le l1 -> StronglySorted le l2 -> l1 = l2.
Proof.
  revert l2. induction l1 as [|x t1 IH]; intros l2 Hp Hf H1 H2.
  - apply Permutation_nil in Hp. congruence.
  - destruct l2 as [|y t2]; [symmetry in Hp; apply Permutation_nil in Hp; discriminate|].
    inversion H1 as [|? ? Hs1 Ha1]; subst. inversion H2 as [|? ? Hs2 Ha2]; subst.
    rewrite Forall_forall in Ha1, Ha2.
    assert (Hxy : x = y).
    { assert (Hx : In x (y :: t2)) by (eapply Permutation_in; [exact Hp | left; reflexivity]).
      assert (Hy : In y (x :: t1))
        by (eapply Permutation_in; [symmetry; exact Hp | left; reflexivity]).
      destruct Hx as [Hx | Hx]; [congruence|].
      destruct Hy as [Hy | Hy]; [congruence|].
      exfalso. apply (tie_free_spec (x :: t1) Hf x [] t1 eq_refl y Hy).
      split; [apply Ha1; exact Hy | apply Ha2; exact Hx]. }
    subst y. f_equal. apply IH.
    + eapply Permutation_cons_inv. exact Hp.
    + cbn [tie_free] in Hf. apply andb_true_iff in Hf as [_ Hf]. exact Hf.
    + exact Hs1.
    + exact Hs2.
Qed.

Lemma tie_free_sort l : tie_free l = true -> tie_free (sort l) = true.
Proof.
  assert (Hins : forall x r, forallb (fun y => negb (leb x y && leb y x)) r = true ->
                             tie_free r = true -> tie_free (insert x r) = true).
  { intros x r. induction r as [|y r IH]; intros Hx Hr; cbn [insert].
    - reflexivity.
    - destruct (leb x y) eqn:E.
      + cbn [tie_free]. cbn [tie_free] in Hr. rewrite Hx, Hr. reflexivity.
      + cbn [tie_free forallb] in *.
        apply andb_true_iff in Hx as [Hxy Hxr]. apply andb_true_iff in Hr as [Hyr Hr].
        rewrite (IH Hxr Hr), andb_true_r.
        rewrite forallb_forall in *. intros z Hz.
        apply (Permutation_in _ (Permutation_sym (insert_perm x r))) in Hz.
        destruct Hz as [Hz | Hz]; [subst z | apply Hyr; exact Hz].
        rewrite andb_comm. exact Hxy. }
  induction l as [|x r IH]; [reflexivity|]. cbn [tie_free sort fold_right].
  intros H. apply andb_true_iff in H as [Hx Hr]. apply Hins; [|apply IH; exact Hr].
  rewrite forallb_forall in *. intros y Hy. apply Hx. apply sort_incl. exact Hy.
Qed.

Lemma insert_split x l :
  exists l1 l2,
    insert x l = l1 ++ x :: l2 /\ l = l1 ++ l2
    /\ Forall (fun y => leb x y = false) l1.
Proof.
  induction l as [|y r (l1 & l2 & E1 & E2 & Hf)]; cbn [insert].
  - exists [], []. repeat split. constructor.
  - destruct (leb x y) eqn:E.
    + exists [], (y :: r). repeat split. constructor.
    + exists (y :: l1), l2. rewrite E1, E2. repeat split.
      constructor; assumption.
Qed.

Lemma filter_nothing {B} (P : B -> bool) l :
  Forall (fun y => P y = false) l -> filter P l = [].
Proof.
  induction 1 as [|y l Hy _ IH]; cbn [filter]; [reflexivity|].
  rewrite Hy. exact IH.
Qed.

(** The sort is stable: the elements that tie with a given one come out in
    the order in which they went in. *)
Lemma sort_stable univ l z :
  transitive_on univ = true -> incl l univ -> In z univ ->
  filter (fun a => leb a z && leb z a) (sort l)
  = filter (fun a => leb a z && leb z a) l.
Proof.
  intros Htr Hl Hz. induction l as [|x r IH]; [reflexivity|].
  assert (Hr : incl r univ) by (intros y Hy; apply Hl; right; exact Hy).
  specialize (IH Hr).
  change (sort (x :: r)) with (insert x (sort r)).
  destruct (insert_split x (sort r)) as (l1 & l2 & E1 & E2 & Hf).
  rewrite E1. cbn [filter]. rewrite <- IH, E2, !filter_app. cbn [filter].
  destruct (leb x z && leb z x) eqn:Ex; [|reflexivity].
  apply andb_true_iff in Ex as [Hxz Hzx].
  replace (filter (fun a => leb a z && leb z a) l1) with (@nil A); [reflexivity|].
  symmetry. apply filter_nothing. rewrite Forall_forall in *. intros y Hy.
  destruct (leb y z && leb z y) eqn:Ey; [|reflexivity].
  apply andb_true_iff in Ey as [_ Hzy].
  assert (Hin : In y univ).
  { apply Hr. apply sort_incl. rewrite E2. apply in_or_app. left. exact Hy. }
  specialize (Hf y Hy).
  rewrite (transitive_on_spec univ x z y Htr) in Hf;
    [discriminate | apply Hl; left; reflexivity | exact Hz | exact Hin
     | exact Hxz | exact Hzy].
Qed.

(** Sorting does not depend on the order in which the elements came. *)
Lemma sort_permutation l l' :
  Permutation l l' -> total_on l = true -> transitive_on l = true ->
  tie_free l = true -> sort l' = sort l.
Proof.
  intros Hp Ht Htr Hf.
  assert (Ht' : total_on l' = true).
  { unfold total_on in *. rewrite forallb_forall in *. intros a Ha.
    apply (Permutation_in _ (Permutation_sym Hp)) in Ha. specialize (Ht a Ha).
    rewrite forallb_forall in *. intros b Hb.
    apply (Permutation_in _ (Permutation_sym Hp)) in Hb. exact (Ht b Hb). }
  symmetry. apply sorted_unique.
  - rewrite <- (sort_perm l), <- (sort_perm l'). exact Hp.
  - apply tie_free_sort. exact Hf.
  - apply (sorted_strongly l); [exact Htr | apply sort_incl | apply sort_sorted; exact Ht].
  - apply (sorted_strongly l); [exact Htr | | apply sort_sorted; exact Ht'].
    intros z Hz. apply sort_incl in Hz.
    exact (Permutation_in _ (Permutation_sym Hp) Hz).
Qed.

End SortFacts.

Module MessageUtilsFacts.

Import MessageUtils Samples Notions.

Lemma encoded_payload_decodes (v : json) :
  serializable v = true ->
  parse (Utf8.decode (Base64.decode (Base64.encode (Utf8.encode (stringify v)))))
  = Normal v.
Proof.
  intros Hs.
  pose proof (JsonFacts.stringify_well_formed v Hs) as Hw.
  rewrite Base64Facts.base64_decode_encode by (apply Utf8Facts.encode_bytes; exact Hw).
  rewrite Utf8Facts.utf8_decode_encode by exact Hw.
  apply JsonFacts.parse_stringify. exact Hs.
Qed.

(** The payload text of a JSON-serializable value decodes to the value with
    its numbers as [JSON.parse] gives them. *)
Lemma encoded_payload_reads (v : json) :
  json_serializable v = true ->
  parse (Utf8.decode (Base64.decode (Base64.encode (Utf8.encode (stringify v)))))
  = Normal (normal v).
Proof.
  intros Hs. destruct (JsonFacts.normal_spec v Hs) as (H1 & H2 & _).
  rewrite <- H2. apply encoded_payload_decodes. exact H1.
Qed.

(** C1.  Payload encoding round-trips: for every JSON-serializable payload
    object [p], decoding an envelope whose payload field is
    [encodePayload p] gives a value structurally equal to [p], and so does
    decoding the envelope that [createEnvelope] builds for [p].  The value
    is [normal (JObj p)], the payload with each number as [JSON.parse] gives
    it.  As a JavaScript value it differs from the payload only where that
    holds a negative zero, which is written as [0] and read as the zero,
    [===] to it.  When the numbers of the payload are written as
    [JSON.parse] gives them, the value is the payload itself. *)
Theorem payload_round_trip (p : record) :
  json_serializable (JObj p) = true ->
  (forall e : AgentEnvelope.t,
      AgentEnvelope.payload e = encodePayload p ->
      decodePayload e = Normal (normal (JObj p)))
  /\ (forall sender target schemaDigest options w,
         decodePayload (fst (createEnvelope sender target p schemaDigest options w))
         = Normal (normal (JObj p)))
  /\ structurally_equal (normal (JObj p)) (JObj p) = true
  /\ (serializable (JObj p) = true -> normal (JObj p) = JObj p).
Proof.
  intros Hs. split; [|split; [|split]].
  - intros e He. unfold decodePayload. rewrite He. unfold encodePayload.
    apply encoded_payload_reads. exact Hs.
  - intros sender target schemaDigest options w.
    unfold createEnvelope, io_bind, ret.
    destruct (string_or (opt_session options) createSessionId w) as [session w1].
    destruct (calculateExpiry
                (Some (number_or (opt_expirySeconds options) DEFAULT_MESSAGE_EXPIRY)) w1)
      as [expires w2].
    destruct (createNonce w2) as [nonce w3].
    cbn [fst]. unfold decodePayload. cbn [AgentEnvelope.payload].
    apply encoded_payload_reads. exact Hs.
  - apply JsonFacts.normal_spec. exact Hs.
  - apply JsonFacts.normal_fixed.
Qed.

Lemma payload_round_trip_witness :
  json_serializable (JObj measured_payload) = true
  /\ decodePayload
       (fst (createEnvelope (u "agent1qsender") (u "agent1qtarget") measured_payload
               (u "model:test123") no_options sample_world))
     = Normal (JObj [(u "ratio", JDbl (Number.Finite false 3 (- 1)));
                     (u "offset", JNum 0);
                     (u "mass", JDbl (Number.Finite false 5 70));
                     (u "count", JNum 12);
                     (u "tags", JArr [JNum 7; JStr (u "a")])]).
Proof.
  split; [reflexivity|].
  apply (proj1 (proj2 (payload_round_trip measured_payload eq_refl))).
Defined.

(** C8.  Expiry is a strict comparison with the current time in whole
    seconds: [isExpired t] holds exactly when [now > t]; so one second ago
    is expired, one second ahead is not, and the very instant [now] is not
    expired yet. *)
Theorem isExpired_strict (w : world) (t : Z) :
  (fst (isExpired t w) = true <-> clock w / 1000 > t)
  /\ fst (isExpired (clock w / 1000 - 1) w) = true
  /\ fst (isExpired (clock w / 1000 + 1) w) = false
  /\ fst (isExpired (clock w / 1000) w) = false.
Proof.
  unfold isExpired, now_seconds, io_bind, ret, Date_now. cbn [fst].
  repeat split; lia.
Qed.

Lemma createEnvelope_expires sender target p schemaDigest options w :
  AgentEnvelope.expires (fst (createEnvelope sender target p schemaDigest options w))
  = Some (clock w / 1000 + number_or (opt_expirySeconds options) DEFAULT_MESSAGE_EXPIRY).
Proof.
  unfold createEnvelope, io_bind, ret.
  unfold string_or, createSessionId, randomUUID, randomBytes, calculateExpiry,
    now_seconds, io_bind, ret, Date_now, createNonce.
  destruct (opt_session options) as [[|c r]|]; reflexivity.
Qed.

(** C9, evaluated at [expirySeconds = 0]: the envelope expires 300 seconds
    from now, not at [now + 0]; [calculateExpiry] itself, called with 0,
    returns [now + 0]. *)
Theorem createEnvelope_zero_expiry sender target p schemaDigest session pd w :
  AgentEnvelope.expires
    (fst (createEnvelope sender target p schemaDigest
            {| opt_session := session; opt_protocolDigest := pd;
               opt_expirySeconds := Some 0 |} w))
  = Some (clock w / 1000 + 300)
  /\ fst (calculateExpiry (Some 0) w) = clock w / 1000 + 0.
Proof.
  split; [apply createEnvelope_expires | reflexivity].
Qed.

(** The default and every non-zero TTL are honoured. *)
Lemma createEnvelope_expiry sender target p schemaDigest session pd w :
  (forall n, n <> 0 ->
     AgentEnvelope.expires
       (fst (createEnvelope sender target p schemaDigest
               {| opt_session := session; opt_protocolDigest := pd;
                  opt_expirySeconds := Some n |} w))
     = Some (clock w / 1000 + n))
  /\ AgentEnvelope.expires
       (fst (createEnvelope sender target p schemaDigest
               {| opt_session := session; opt_protocolDigest := pd;
                  opt_expirySeconds := None |} w))
     = Some (clock w / 1000 + DEFAULT_MESSAGE_EXPIRY).
Proof.
  split.
  - intros n Hn. rewrite createEnvelope_expires. cbn [opt_expirySeconds number_or].
    replace (n =? 0) with false by lia. reflexivity.
  - apply createEnvelope_expires.
Qed.

Section Verification.

Variable crypto_sign : bytes -> jsstring -> completion bytes.
Variable crypto_verify : bytes -> jsstring -> bytes -> completion bool.

(** C2.  Verification is total and fails closed: [verifyEnvelope] returns
    a boolean for every envelope and every key and never throws; it returns
    [false] when the signature is absent, and [false] when the cryptographic
    check throws (malformed key, malformed signature). *)
Theorem verifyEnvelope_total (e : AgentEnvelope.t) (publicKey : bytes) :
  (exists b, verifyEnvelope crypto_verify e publicKey = Normal b)
  /\ (AgentEnvelope.signature e = None ->
      verifyEnvelope crypto_verify e publicKey = Normal false)
  /\ (forall signature err,
         AgentEnvelope.signature e = Some signature ->
         crypto_verify publicKey (signingPayload e) (Base64.decode signature)
         = Throw err ->
         verifyEnvelope crypto_verify e publicKey = Normal false).
Proof.
  unfold verifyEnvelope. repeat split.
  - destruct (AgentEnvelope.signature e) as [[|c r]|]; eexists; reflexivity.
  - intros H. rewrite H. reflexivity.
  - intros signature err Hs Ht. rewrite Hs.
    destruct signature as [|c r]; [reflexivity|]. rewrite Ht. reflexivity.
Qed.

(** C3.  The signing payload leaves [protocolDigest] (and [signature]) out:
    replacing or removing the protocol digest of an envelope, signed or not,
    changes neither the text that is signed and verified nor the result of
    [verifyEnvelope].  That text is the JSON text of the object whose
    properties are version, sender, target, session, schemaDigest, payload,
    expires and nonce, in that order and with the values that the envelope
    has for them ([expires] and [nonce] being left out where the envelope
    has none), and of nothing else.  It is the text that [verifyEnvelope]
    hands to the check together with the decoded signature, and the text
    that [signEnvelope] hands to the signing function, with the protocol
    digest replaced or not. *)
Theorem signing_excludes_protocolDigest
  (e : AgentEnvelope.t) (publicKey privateKey : bytes) (d : option jsstring) :
  verifyEnvelope crypto_verify (AgentEnvelope.with_protocolDigest e d) publicKey
  = verifyEnvelope crypto_verify e publicKey
  /\ signingPayload (AgentEnvelope.with_protocolDigest e d) = signingPayload e
  /\ (forall s, signingPayload (AgentEnvelope.with_signature e s) = signingPayload e)
  /\ map fst (signingFields e)
     = [u "version"; u "sender"; u "target"; u "session"; u "schemaDigest";
        u "payload"; u "expires"; u "nonce"]
  /\ signingPayload e
     = stringify
         (JObj ([(u "version", JNum (AgentEnvelope.version e));
                 (u "sender", JStr (AgentEnvelope.sender e));
                 (u "target", JStr (AgentEnvelope.target e));
                 (u "session", JStr (AgentEnvelope.session e));
                 (u "schemaDigest", JStr (AgentEnvelope.schemaDigest e));
                 (u "payload", JStr (AgentEnvelope.payload e))]
                  ++ match AgentEnvelope.expires e with
                     | Some expires => [(u "expires", JNum expires)]
                     | None => []
                     end
                  ++ match AgentEnvelope.nonce e with
                     | Some nonce => [(u "nonce", JStr nonce)]
                     | None => []
                     end))
  /\ (forall c r,
        AgentEnvelope.signature e = Some (c :: r) ->
        verifyEnvelope crypto_verify e publicKey
        = Normal (try_catch
                    (crypto_verify publicKey (signingPayload e)
                       (Base64.decode (c :: r)))
                    false))
  /\ signEnvelope crypto_sign (AgentEnvelope.with_protocolDigest e d) privateKey
     = bind (crypto_sign privateKey (signingPayload e))
         (fun signature =>
            Normal (AgentEnvelope.with_signature
                      (AgentEnvelope.with_protocolDigest e d)
                      (Some (Base64.encode signature)))).
Proof.
  split; [reflexivity|]. split; [reflexivity|]. split; [reflexivity|].
  split; [reflexivity|]. split; [|split; [|reflexivity]].
  - unfold signingPayload, stringify_literal, signingFields.
    destruct (AgentEnvelope.expires e), (AgentEnvelope.nonce e); reflexivity.
  - intros c r H. unfold verifyEnvelope. rewrite H. reflexivity.
Qed.

End Verification.

Lemma signing_excludes_protocolDigest_witness :
  verifyEnvelope keyed_verify
    (AgentEnvelope.with_signature (sample_original (u "session-1")) (Some (u "AAAA")))
    [7; 7]
  = Normal (try_catch
              (keyed_verify [7; 7]
                 (signingPayload
                    (AgentEnvelope.with_signature (sample_original (u "session-1"))
                       (Some (u "AAAA"))))
                 (Base64.decode (u "AAAA")))
              false).
Proof.
  apply (proj1 (proj2 (proj2 (proj2 (proj2 (proj2
    (signing_excludes_protocolDigest keyed_sign keyed_verify
       (AgentEnvelope.with_signature (sample_original (u "session-1"))
          (Some (u "AAAA")))
       [7; 7] [7; 7] None))))))
    65 (u "AAA")).
  reflexivity.
Defined.

Lemma verifyEnvelope_total_witness :
  verifyEnvelope (fun _ _ _ => Throw (u "ERR_OSSL_ASN1_WRONG_TAG"))
    {| AgentEnvelope.version := 1; AgentEnvelope.sender := u "a";
       AgentEnvelope.target := u "b"; AgentEnvelope.session := u "s";
       AgentEnvelope.schemaDigest := u "model:x"; AgentEnvelope.protocolDigest := None;
       AgentEnvelope.payload := u "e30="; AgentEnvelope.expires := Some 1700000300;
       AgentEnvelope.nonce := Some (u "00"); AgentEnvelope.signature := Some (u "AAAA") |}
    [48; 0]
  = Normal false.
Proof.
  eapply (proj2 (proj2 (verifyEnvelope_total (fun _ _ _ => Throw (u "ERR_OSSL_ASN1_WRONG_TAG"))
                          _ [48; 0]))); reflexivity.
Defined.

(** The envelope that [createEnvelope] returns, field by field. *)
Lemma createEnvelope_fields sender target p schemaDigest options w :
  let e := fst (createEnvelope sender target p schemaDigest options w) in
  AgentEnvelope.version e = ENVELOPE_VERSION
  /\ AgentEnvelope.sender e = sender
  /\ AgentEnvelope.target e = target
  /\ AgentEnvelope.session e
     = fst (string_or (opt_session options) createSessionId w)
  /\ AgentEnvelope.schemaDigest e = schemaDigest
  /\ AgentEnvelope.protocolDigest e = opt_protocolDigest options
  /\ AgentEnvelope.payload e = encodePayload p
  /\ AgentEnvelope.signature e = None.
Proof.
  unfold createEnvelope, io_bind, ret.
  destruct (string_or (opt_session options) createSessionId w) as [session w1].
  destruct (calculateExpiry
              (Some (number_or (opt_expirySeconds options) DEFAULT_MESSAGE_EXPIRY)) w1)
    as [expires w2].
  destruct (createNonce w2) as [nonce w3].
  cbn. repeat split.
Qed.

(** C10, as the code has it.  The error envelope is unsigned and has no
    protocol digest, whatever the original carries; its target is the
    original sender and its schema digest is ['model:error-v1']; its session
    is the original one when that is not empty; its payload decodes to
    [{type:'error', code, message}]; a response envelope, unlike it, carries
    the protocol digest of the original. *)
Theorem createErrorEnvelope_fields
  (o : AgentEnvelope.t) (sender errorCode errorMessage : jsstring) (w : world) :
  AgentEnvelope.signature (fst (createErrorEnvelope o sender errorCode errorMessage w))
  = None
  /\ AgentEnvelope.protocolDigest
       (fst (createErrorEnvelope o sender errorCode errorMessage w)) = None
  /\ (AgentEnvelope.session o <> [] ->
      AgentEnvelope.session (fst (createErrorEnvelope o sender errorCode errorMessage w))
      = AgentEnvelope.session o)
  /\ AgentEnvelope.target (fst (createErrorEnvelope o sender errorCode errorMessage w))
     = AgentEnvelope.sender o
  /\ AgentEnvelope.schemaDigest
       (fst (createErrorEnvelope o sender errorCode errorMessage w))
     = u "model:error-v1"
  /\ (valid_stringb errorCode = true -> valid_stringb errorMessage = true ->
      decodePayload (fst (createErrorEnvelope o sender errorCode errorMessage w))
      = Normal (JObj [(u "type", JStr (u "error")); (u "code", JStr errorCode);
                      (u "message", JStr errorMessage)]))
  /\ (forall responsePayload responseSchemaDigest,
         AgentEnvelope.protocolDigest
           (fst (createResponseEnvelope o sender responsePayload responseSchemaDigest w))
         = AgentEnvelope.protocolDigest o).
Proof.
  unfold createErrorEnvelope, createResponseEnvelope.
  match goal with
  | |- context [createEnvelope ?s ?t ?p ?d ?opts w] =>
      pose proof (createEnvelope_fields s t p d opts w) as H
  end.
  cbv zeta in H. destruct H as (_ & _ & Ht & Hs & Hd & Hp & Hpay & Hsig).
  repeat split; try assumption.
  - intros Hne. rewrite Hs. cbn [opt_session string_or].
    destruct (AgentEnvelope.session o); [congruence | reflexivity].
  - intros Hc Hm. unfold decodePayload. rewrite Hpay. unfold encodePayload.
    apply encoded_payload_decodes. cbn. rewrite Hc, Hm. reflexivity.
  - intros responsePayload responseSchemaDigest.
    match goal with
    | |- context [createEnvelope ?s ?t ?p ?d ?opts w] =>
        pose proof (createEnvelope_fields s t p d opts w) as H'
    end.
    cbv zeta in H'. destruct H' as (_ & _ & _ & _ & _ & Hp' & _). exact Hp'.
Qed.

Lemma createErrorEnvelope_fields_witness :
  AgentEnvelope.session
    (fst (createErrorEnvelope (sample_original (u "session-1")) (u "agent1qtarget")
            (u "E42") (u "bad input") sample_world))
  = u "session-1"
  /\ decodePayload
       (fst (createErrorEnvelope (sample_original (u "session-1")) (u "agent1qtarget")
               (u "E42") (u "bad input") sample_world))
     = Normal (JObj [(u "type", JStr (u "error")); (u "code", JStr (u "E42"));
                     (u "message", JStr (u "bad input"))]).
Proof.
  split.
  - apply (proj1 (proj2 (proj2
      (createErrorEnvelope_fields (sample_original (u "session-1")) (u "agent1qtarget")
         (u "E42") (u "bad input") sample_world)))).
    discriminate.
  - apply (proj1 (proj2 (proj2 (proj2 (proj2 (proj2
      (createErrorEnvelope_fields (sample_original (u "session-1")) (u "agent1qtarget")
         (u "E42") (u "bad input") sample_world))))))); reflexivity.
Defined.

Lemma push_if_keeps test message errors x :
  In x errors -> In x (push_if test message errors).
Proof.
  intros H. unfold push_if. destruct test; [apply in_or_app; left|]; exact H.
Qed.

Lemma push_if_true message errors : In message (push_if true message errors).
Proof. unfold push_if. apply in_or_app. right. left. reflexivity. Qed.

(** An empty session is a missing session for the validator too. *)
Lemma validateEnvelope_empty_session (e : AgentEnvelope.t) (w : world) :
  AgentEnvelope.session e = [] ->
  In (u "Missing or invalid session") (errors (fst (validateEnvelope e w)))
  /\ valid (fst (validateEnvelope e w)) = false.
Proof.
  intros Hs.
  assert (Hin : In (u "Missing or invalid session")
                   (errors (fst (validateEnvelope e w)))).
  { unfold validateEnvelope, io_bind, ret. rewrite Hs.
    change (str_eqb [] []) with true.
    match goal with
    | |- context [let (_, _) := ?m in _] => destruct m as [expired w']
    end.
    cbn [fst errors]. do 3 apply push_if_keeps. apply push_if_true. }
  split; [exact Hin|].
  revert Hin. unfold validateEnvelope, io_bind, ret.
  match goal with
  | |- context [let (_, _) := ?m in _] => destruct m as [expired w']
  end.
  cbn [fst errors valid].
  match goal with |- In _ ?l -> _ => destruct l; [contradiction | reflexivity] end.
Qed.

(** C10 as stated fails on an original whose session is the empty string:
    the error envelope gets a fresh session id. *)
Lemma createErrorEnvelope_empty_session :
  AgentEnvelope.session
    (fst (createErrorEnvelope (sample_original []) (u "agent1qtarget") (u "E42")
            (u "bad input") sample_world))
  <> AgentEnvelope.session (sample_original []).
Proof. vm_compute. discriminate. Qed.

End MessageUtilsFacts.

Module ProtocolUtilsFacts.

Import ProtocolUtils Samples.

Lemma set_has_spec s x : set_has s x = true <-> In x s.
Proof.
  unfold set_has. rewrite existsb_exists. split.
  - intros (y & Hy & E). apply str_eqb_eq in E. subst. exact Hy.
  - intros H. exists x. split; [exact H | apply str_eqb_refl].
Qed.

Lemma new_Set_spec l x : set_has (new_Set l) x = true <-> In x l.
Proof.
  unfold new_Set.
  assert (G : forall acc, set_has (fold_left set_add l acc) x = true
                          <-> In x acc \/ In x l).
  { induction l as [|y l IH]; intros acc; cbn [fold_left].
    - rewrite set_has_spec. cbn [In]. tauto.
    - rewrite IH. unfold set_add. destruct (set_has acc y) eqn:E.
      + apply set_has_spec in E. cbn [In]. split; [tauto|].
        intros [H | [H | H]]; subst; tauto.
      + rewrite in_app_iff. cbn [In]. tauto. }
  rewrite G. cbn [In]. tauto.
Qed.




(** C5, as the code has it.  A manifest whose name and version are
    non-empty strings and whose models are an empty array is valid: no check
    asks for a model. *)
Theorem validate_empty_models (o : record) (name version : jsstring) :
  get (u "name") o = Some (JStr name) -> name <> [] ->
  get (u "version") o = Some (JStr version) -> version <> [] ->
  get (u "models") o = Some (JArr []) ->
  validateProtocolManifest (JObj o) = Normal {| valid := true; errors := [] |}.
Proof.
  intros Hn Hne Hv Hve Hm. unfold validateProtocolManifest, property, bind.
  rewrite Hn, Hv, Hm.
  destruct name as [|c r]; [congruence|]. destruct version as [|c' r']; [congruence|].
  reflexivity.
Qed.

Lemma validate_empty_models_witness :
  validateProtocolManifest (JObj empty_manifest)
  = Normal {| valid := true; errors := [] |}.
Proof.
  apply (validate_empty_models empty_manifest (u "ping") (u "1.0"));
    (reflexivity || discriminate).
Defined.

(** C5 as stated fails: [empty_manifest] has no model and is reported
    valid, without any error. *)
Lemma validate_accepts_empty_models :
  ~ (exists r, validateProtocolManifest (JObj empty_manifest) = Normal r
               /\ valid r = false /\ errors r <> []).
Proof.
  intros (r & H & Hv & _). vm_compute in H. inversion H; subst. discriminate.
Qed.

Lemma StronglySorted_weaken {A} (R R' : A -> A -> Prop) l :
  (forall a b, R a b -> R' a b) -> StronglySorted R l -> StronglySorted R' l.
Proof.
  intros HR. induction 1 as [|x l Hs IH Hh]; constructor; [exact IH|].
  rewrite Forall_forall in *. intros y Hy. apply HR, Hh, Hy.
Qed.

Lemma Sorted_weaken {A} (R R' : A -> A -> Prop) l :
  (forall a b, R a b -> R' a b) -> Sorted R l -> Sorted R' l.
Proof.
  intros HR. induction 1 as [|x l Hs IH Hh]; constructor; [exact IH|].
  destruct Hh; constructor. apply HR. assumption.
Qed.

Section WithLocale.

Variable localeCompare : jsstring -> jsstring -> Z.

(** C4, as the code has it.  Where [localeCompare] is consistent (total
    and transitive) on the names of the models, the models that go into the
    digest preimage are the models of the manifest, all of them, arranged by
    [localeCompare] on their names: of two neighbours, and of any two models
    at all, the first does not compare after the second.  The sort is
    stable: the models whose names tie with the name of a given model come
    out in the order in which the manifest lists them.  Nothing is removed,
    and the order is the one of the host's collation, not the one of the
    UTF-8 bytes. *)
Theorem sortedModels_order (m : ProtocolManifest.t) :
  total_on (by_name localeCompare) (ProtocolManifest.models m) = true ->
  transitive_on (by_name localeCompare) (ProtocolManifest.models m) = true ->
  Permutation (ProtocolManifest.models m) (sortedModels localeCompare m)
  /\ Sorted (fun a b => localeCompare (ModelDefinition.name a) (ModelDefinition.name b) <= 0)
       (sortedModels localeCompare m)
  /\ StronglySorted
       (fun a b => localeCompare (ModelDefinition.name a) (ModelDefinition.name b) <= 0)
       (sortedModels localeCompare m)
  /\ canonical localeCompare m
     = JObj [(u "name", JStr (ProtocolManifest.name m));
             (u "version", JStr (ProtocolManifest.version m));
             (u "models", JArr (map model_canonical (sortedModels localeCompare m)))]
  /\ computeProtocolDigest localeCompare m
     = u "proto:" ++ short_hash (stringify (canonical localeCompare m))
  /\ (forall x,
        In x (ProtocolManifest.models m) ->
        filter
          (fun a =>
             (localeCompare (ModelDefinition.name a) (ModelDefinition.name x) <=? 0)
             && (localeCompare (ModelDefinition.name x) (ModelDefinition.name a) <=? 0))
          (sortedModels localeCompare m)
        = filter
            (fun a =>
               (localeCompare (ModelDefinition.name a) (ModelDefinition.name x) <=? 0)
               && (localeCompare (ModelDefinition.name x) (ModelDefinition.name a) <=? 0))
            (ProtocolManifest.models m)).
Proof.
  intros Ht Htr. unfold sortedModels.
  assert (Hle : forall a b, le (by_name localeCompare) a b ->
                            localeCompare (ModelDefinition.name a)
                              (ModelDefinition.name b) <= 0).
  { unfold le, by_name. intros a b H. lia. }
  pose proof (sort_sorted _ _ Ht) as Hs.
  split; [apply sort_perm|]. split; [|split; [|split; [|split]]]; try reflexivity.
  - exact (Sorted_weaken _ _ _ Hle Hs).
  - apply (StronglySorted_weaken _ _ _ Hle).
    apply (sorted_strongly _ (ProtocolManifest.models m)); [exact Htr | | exact Hs].
    apply sort_incl.
  - intros x Hx.
    exact (sort_stable (by_name localeCompare) (ProtocolManifest.models m)
             (ProtocolManifest.models m) x Htr (incl_refl _) Hx).
Qed.

(** C6, as the code has it.  When the comparison is consistent on the
    names of the models and no two names tie, the digest that
    [createProtocolManifest] computes does not depend on the order in which
    the models are given.  In every case the digest starts with [proto:]
    and is [computeProtocolDigest] of the manifest returned. *)
Theorem createProtocolManifest_digest
  (name version : jsstring) (models : list ModelDefinition.t)
  (handlers : option (list HandlerDefinition.t)) (description : option jsstring) :
  (forall models',
      Permutation models models' ->
      total_on (by_name localeCompare) models = true ->
      transitive_on (by_name localeCompare) models = true ->
      tie_free (by_name localeCompare) models = true ->
      ProtocolManifest.digest
        (createProtocolManifest localeCompare name version models' handlers description)
      = ProtocolManifest.digest
          (createProtocolManifest localeCompare name version models handlers description))
  /\ firstn 6 (ProtocolManifest.digest
                 (createProtocolManifest localeCompare name version models handlers
                    description))
     = u "proto:"
  /\ ProtocolManifest.digest
       (createProtocolManifest localeCompare name version models handlers description)
     = computeProtocolDigest localeCompare
         (createProtocolManifest localeCompare name version models handlers description).
Proof.
  repeat split.
  intros models' Hp Ht Htr Hf.
  unfold createProtocolManifest. cbn [ProtocolManifest.digest].
  unfold computeProtocolDigest, canonical, sortedModels.
  cbn [ProtocolManifest.name ProtocolManifest.version ProtocolManifest.models].
  rewrite (sort_permutation _ models models' Hp Ht Htr Hf). reflexivity.
Qed.

End WithLocale.

Lemma sortedModels_order_witness :
  Permutation (ProtocolManifest.models mixed_case)
    (sortedModels Collation.compare mixed_case)
  /\ Sorted (fun a b => Collation.compare (ModelDefinition.name a)
                          (ModelDefinition.name b) <= 0)
       (sortedModels Collation.compare mixed_case).
Proof.
  split.
  - apply (proj1 (sortedModels_order Collation.compare mixed_case eq_refl eq_refl)).
  - apply (proj1 (proj2 (sortedModels_order Collation.compare mixed_case eq_refl
                           eq_refl))).
Defined.

(** C4 as stated fails.  The host puts [a] before [B], whose byte is the
    smaller one; and two models of the same name are both kept, so that
    their names do not ascend strictly, whatever the comparison. *)
Lemma sortedModels_not_byte_order :
  map ModelDefinition.name (sortedModels Collation.compare mixed_case) = [u "a"; u "B"]
  /\ ascending bytes_ltb
       (map ModelDefinition.name (sortedModels Collation.compare mixed_case)) = false
  /\ (forall localeCompare,
         ascending bytes_ltb
           (map ModelDefinition.name (sortedModels localeCompare (manifest same_name)))
         = false).
Proof.
  repeat split.
  intros localeCompare. unfold sortedModels, same_name, manifest.
  cbn [ProtocolManifest.models sort fold_right insert].
  destruct (by_name localeCompare _ _); reflexivity.
Qed.

Lemma createProtocolManifest_digest_witness :
  ProtocolManifest.digest
    (createProtocolManifest Collation.compare (u "model1") (u "1.0")
       (rev request_response) None None)
  = ProtocolManifest.digest
      (createProtocolManifest Collation.compare (u "model1") (u "1.0")
         request_response None None).
Proof.
  apply (proj1 (createProtocolManifest_digest Collation.compare (u "model1") (u "1.0")
                  request_response None None));
    [apply perm_swap | reflexivity | reflexivity | reflexivity].
Defined.

(** C6 as stated fails: two models of the same name and of different
    schemas give one digest in one order and another in the other. *)
Lemma createProtocolManifest_digest_order :
  ProtocolManifest.digest
    (createProtocolManifest Collation.compare (u "model1") (u "1.0")
       (rev same_name) None None)
  <> ProtocolManifest.digest
       (createProtocolManifest Collation.compare (u "model1") (u "1.0")
          same_name None None).
Proof. vm_compute. discriminate. Qed.

End ProtocolUtilsFacts.

(** ** Further properties of [utils/protocolUtils.ts] *)

Module ProtocolUtilsMore.

Import ProtocolUtils Notions Samples.

Lemma strip_prefix_app p s : strip_prefix p (p ++ s) = Some s.
Proof.
  induction p as [|c p IH]; cbn [strip_prefix app]; [reflexivity|].
  rewrite Z.eqb_refl. exact IH.
Qed.

Lemma strip_prefix_inv p s r : strip_prefix p s = Some r -> s = p ++ r.
Proof.
  revert s. induction p as [|c p IH]; intros s H; cbn [strip_prefix] in H.
  - inversion H. reflexivity.
  - destruct s as [|d s]; [discriminate|].
    destruct (Z.eqb_spec c d); [|discriminate]. subst d.
    cbn [app]. f_equal. apply IH. exact H.
Qed.

(** X1.  Parsing a digest loses nothing: the tag of the type found followed by
    the hash is the string that was parsed; and the type is [unknown]
    exactly when the string starts with neither tag. *)
Theorem parseProtocolDigest_lossless (digest : jsstring) :
  type_prefix (type (parseProtocolDigest digest)) ++ hash (parseProtocolDigest digest)
  = digest
  /\ (type (parseProtocolDigest digest) = type_unknown
      <-> startsWith digest (u "proto:") = false
          /\ startsWith digest (u "model:") = false).
Proof.
  unfold parseProtocolDigest, startsWith.
  destruct (strip_prefix (u "proto:") digest) as [r|] eqn:E1.
  - apply strip_prefix_inv in E1. subst digest. cbn [type hash type_prefix].
    split; [reflexivity|]. split; [discriminate | intros [H _]; discriminate].
  - destruct (strip_prefix (u "model:") digest) as [r|] eqn:E2.
    + apply strip_prefix_inv in E2. subst digest. cbn [type hash type_prefix].
      split; [reflexivity|]. split; [discriminate | intros [_ H]; discriminate].
    + cbn [type hash type_prefix app]. split; [reflexivity|]. split; auto.
Qed.

Lemma big_endian_bytes width n : Forall is_byte (Sha256.big_endian width n).
Proof.
  unfold Sha256.big_endian. apply Forall_map, Forall_forall. intros i _.
  unfold is_byte. apply Z.mod_pos_bound. lia.
Qed.

Lemma sha256_bytes msg : Forall is_byte (Sha256.digest msg).
Proof.
  unfold Sha256.digest. apply Forall_flat_map, Forall_forall. intros x _.
  apply big_endian_bytes.
Qed.

Lemma enc_char i : 0 <= i < 64 -> base64_char (Base64.enc i).
Proof.
  intros H. unfold base64_char, Base64.enc, is_alnum, in_range.
  destruct (Z.ltb_spec i 26); [left; lia|].
  destruct (Z.ltb_spec i 52); [left; lia|].
  destruct (Z.ltb_spec i 62); [left; lia|].
  destruct (Z.eqb_spec i 62); auto.
Qed.

Lemma base64_encode_chars bs : Forall is_byte bs -> Forall base64_char (Base64.encode bs).
Proof.
  assert (G : forall n bs, (List.length bs <= n)%nat -> Forall is_byte bs ->
                           Forall base64_char (Base64.encode bs)).
  { assert (Hpad : base64_char Base64.pad) by (right; right; right; reflexivity).
    induction n as [|n IH]; intros l Hl Hb.
    - destruct l; [constructor | simpl in Hl; lia].
    - destruct l as [|a [|b [|c r]]]; [constructor | | |].
      + inversion Hb as [|? ? Ha _]; subst. unfold is_byte in Ha. cbn [Base64.encode].
        repeat (apply Forall_cons; [first [exact Hpad | apply enc_char; euclid]|]).
        apply Forall_nil.
      + inversion Hb as [|? ? Ha Hb']; subst. inversion Hb' as [|? ? Hb0 _]; subst.
        unfold is_byte in *. cbn [Base64.encode].
        repeat (apply Forall_cons; [first [exact Hpad | apply enc_char; euclid]|]).
        apply Forall_nil.
      + inversion Hb as [|? ? Ha Hb']; subst. inversion Hb' as [|? ? Hb0 Hb'']; subst.
        inversion Hb'' as [|? ? Hc Hr]; subst. unfold is_byte in *.
        cbn [Base64.encode].
        do 4 (apply Forall_cons; [apply enc_char; euclid|]).
        apply IH; [simpl in Hl; lia | assumption]. }
  intros H. apply (G (List.length bs)); [lia | assumption].
Qed.

Lemma in_firstn {A} n (l : list A) x : In x (firstn n l) -> In x l.
Proof.
  intros H. rewrite <- (firstn_skipn n l). apply in_or_app. left. exact H.
Qed.

Lemma short_hash_shape text :
  (List.length (short_hash text) <= 32)%nat
  /\ Forall (fun c => is_alnum c = true) (short_hash text).
Proof.
  unfold short_hash. split; [apply firstn_le_length|].
  pose proof (base64_encode_chars _ (sha256_bytes (Utf8.encode text))) as Hall.
  rewrite Forall_forall in *. intros c Hc.
  apply in_firstn in Hc. apply filter_In in Hc as [Hin Hk].
  destruct (Hall c Hin) as [H | H]; [exact H | exfalso; lia].
Qed.

(** X2.  The digests that the module computes are a tag followed by at most 32
    letters and digits (the characters [+], [/] and [=] of base64 are taken
    out before the cut), and [parseProtocolDigest] gives back the tag as
    the type and those characters as the hash. *)
Theorem digest_shape (localeCompare : jsstring -> jsstring -> Z)
  (manifest : ProtocolManifest.t) (model : ModelDefinition.t) :
  type (parseProtocolDigest (computeProtocolDigest localeCompare manifest)) = type_proto
  /\ u "proto:" ++ hash (parseProtocolDigest (computeProtocolDigest localeCompare manifest))
     = computeProtocolDigest localeCompare manifest
  /\ (List.length (hash (parseProtocolDigest
                           (computeProtocolDigest localeCompare manifest))) <= 32)%nat
  /\ Forall (fun c => is_alnum c = true)
       (hash (parseProtocolDigest (computeProtocolDigest localeCompare manifest)))
  /\ type (parseProtocolDigest (computeModelDigest model)) = type_model
  /\ u "model:" ++ hash (parseProtocolDigest (computeModelDigest model))
     = computeModelDigest model
  /\ (List.length (hash (parseProtocolDigest (computeModelDigest model))) <= 32)%nat
  /\ Forall (fun c => is_alnum c = true)
       (hash (parseProtocolDigest (computeModelDigest model))).
Proof.
  unfold computeProtocolDigest, computeModelDigest.
  set (a := short_hash (stringify (canonical localeCompare manifest))).
  set (b := short_hash (stringify (model_canonical model))).
  assert (Ha : parseProtocolDigest (u "proto:" ++ a) = {| type := type_proto; hash := a |}).
  { unfold parseProtocolDigest, startsWith. rewrite strip_prefix_app.
    reflexivity. }
  assert (Hb : parseProtocolDigest (u "model:" ++ b) = {| type := type_model; hash := b |}).
  { unfold parseProtocolDigest, startsWith.
    replace (strip_prefix (u "proto:") (u "model:" ++ b)) with (@None jsstring)
      by reflexivity.
    rewrite strip_prefix_app.
    reflexivity. }
  rewrite Ha, Hb. cbn [type hash].
  destruct (short_hash_shape (stringify (canonical localeCompare manifest))).
  destruct (short_hash_shape (stringify (model_canonical model))).
  repeat split; assumption.
Qed.

Lemma compatible_spec (a b : ProtocolManifest.t) :
  areProtocolsCompatible a b = true
  <-> exists m1 m2,
        In m1 (ProtocolManifest.models a) /\ In m2 (ProtocolManifest.models b)
        /\ computeModelDigest m1 = computeModelDigest m2.
Proof.
  unfold areProtocolsCompatible. rewrite existsb_exists. split.
  - intros (d & Hd & Hs). apply ProtocolUtilsFacts.new_Set_spec in Hs.
    apply in_map_iff in Hd as (m2 & E2 & H2). apply in_map_iff in Hs as (m1 & E1 & H1).
    exists m1, m2. repeat split; [exact H1 | exact H2 | congruence].
  - intros (m1 & m2 & H1 & H2 & E). exists (computeModelDigest m2). split.
    + apply in_map. exact H2.
    + apply ProtocolUtilsFacts.new_Set_spec. rewrite <- E. apply in_map. exact H1.
Qed.

Lemma bool_eq_iff (x y : bool) : (x = true <-> y = true) -> x = y.
Proof.
  destruct x, y; intros [H1 H2]; try reflexivity;
    [symmetry; apply H1; reflexivity | apply H2; reflexivity].
Qed.

(** X3.  Compatibility is symmetric; and a protocol is compatible with itself
    exactly when it has a model: a protocol without models is compatible
    with nothing, itself included. *)
Theorem areProtocolsCompatible_symmetric (a b : ProtocolManifest.t) :
  areProtocolsCompatible a b = areProtocolsCompatible b a
  /\ (areProtocolsCompatible a a = true <-> ProtocolManifest.models a <> [])
  /\ (ProtocolManifest.models a = [] -> areProtocolsCompatible a b = false).
Proof.
  split; [|split].
  - apply bool_eq_iff. rewrite !compatible_spec.
    split; intros (m1 & m2 & H1 & H2 & E); exists m2, m1; auto.
  - rewrite compatible_spec. split.
    + intros (m1 & _ & H1 & _) E. rewrite E in H1. exact H1.
    + intros H. destruct (ProtocolManifest.models a) as [|m l] eqn:E; [congruence|].
      exists m, m. cbn [In]. auto.
  - intros E. destruct (areProtocolsCompatible a b) eqn:H; [|reflexivity].
    apply compatible_spec in H as (m1 & _ & H1 & _). rewrite E in H1. contradiction.
Qed.

Lemma areProtocolsCompatible_symmetric_witness :
  areProtocolsCompatible (manifest []) (manifest request_response) = false.
Proof.
  apply (proj2 (proj2 (areProtocolsCompatible_symmetric (manifest [])
                         (manifest request_response)))).
  reflexivity.
Defined.

(** X4.  [getHandler] returns the first handler of the message type asked for:
    what it returns is a handler of the protocol with that type, no handler
    before it has that type, and it returns nothing exactly when no handler
    has it. *)
Theorem getHandler_first (protocol : ProtocolManifest.t) (messageType : jsstring) :
  (forall h, getHandler protocol messageType = Some h ->
     exists before after,
       ProtocolManifest.handlers protocol = before ++ h :: after
       /\ HandlerDefinition.messageType h = messageType
       /\ Forall (fun h' => HandlerDefinition.messageType h' <> messageType) before)
  /\ (getHandler protocol messageType = None
      <-> Forall (fun h' => HandlerDefinition.messageType h' <> messageType)
            (ProtocolManifest.handlers protocol)).
Proof.
  unfold getHandler. generalize (ProtocolManifest.handlers protocol) as l.
  induction l as [|x l [IH1 IH2]]; cbn [find].
  - split; [discriminate | split; constructor].
  - destruct (str_eqb (HandlerDefinition.messageType x) messageType) eqn:E.
    + apply str_eqb_eq in E. split.
      * intros h H. inversion H; subst. exists [], l. repeat split. constructor.
      * split; [discriminate|]. intros H. inversion H; subst. contradiction.
    + apply str_eqb_neq in E. split.
      * intros h H. destruct (IH1 h H) as (before & after & E1 & E2 & E3).
        exists (x :: before), after. rewrite E1. repeat split; [exact E2|].
        constructor; assumption.
      * rewrite IH2. split; [intros H; constructor; assumption|].
        intros H. inversion H; assumption.
Qed.

Lemma getHandler_first_witness :
  exists before after,
    ProtocolManifest.handlers
      (createSimpleProtocol Collation.compare (u "ping") (u "1.0") [] [])
    = before ++ {| HandlerDefinition.name := u "handleRequest";
                   HandlerDefinition.messageType := u "Request";
                   HandlerDefinition.responseType := Some (u "Response");
                   HandlerDefinition.description := None |} :: after
    /\ Forall (fun h' => HandlerDefinition.messageType h' <> u "Request") before.
Proof.
  destruct (proj1 (getHandler_first
                     (createSimpleProtocol Collation.compare (u "ping") (u "1.0") [] [])
                     (u "Request")) _ eq_refl) as (before & after & E & _ & H).
  exists before, after. split; assumption.
Defined.

Lemma map_has_spec {V} (m : list (jsstring * V)) k :
  map_has m k = true <-> In k (map fst m).
Proof.
  unfold map_has. rewrite existsb_exists, in_map_iff. split.
  - intros (kv & Hin & E). apply str_eqb_eq in E. exists kv. auto.
  - intros (kv & E & Hin). exists kv. split; [exact Hin|]. subst. apply str_eqb_refl.
Qed.

Lemma map_has_false {V} (m : list (jsstring * V)) k :
  map_has m k = false <-> ~ In k (map fst m).
Proof.
  rewrite <- map_has_spec. destruct (map_has m k); split; congruence.
Qed.

(** What the loop of [mergeProtocols] adds to the map it starts from. *)
Lemma add_models_spec l acc :
  exists rest,
    fold_left add_model l acc = acc ++ rest
    /\ incl (map snd rest) l
    /\ Forall (fun kv => fst kv = computeModelDigest (snd kv)
                         /\ ~ In (fst kv) (map fst acc)) rest
    /\ NoDup (map fst rest)
    /\ Forall (fun m => In (computeModelDigest m) (map fst (acc ++ rest))) l.
Proof.
  revert acc. induction l as [|m l IH]; intros acc; cbn [fold_left].
  - exists []. rewrite app_nil_r.
    split; [reflexivity|]. split; [apply incl_refl|]. repeat split; constructor.
  - unfold add_model at 2.
    destruct (map_has acc (computeModelDigest m)) eqn:E; cbn [negb].
    + destruct (IH acc) as (rest & E1 & Hi & Hf & Hn & Hc). exists rest.
      split; [exact E1|]. split; [|split; [exact Hf|split; [exact Hn|]]].
      * intros x Hx. right. apply Hi. exact Hx.
      * constructor; [|exact Hc]. apply map_has_spec in E.
        rewrite map_app, in_app_iff. left. exact E.
    + apply map_has_false in E.
      destruct (IH (acc ++ [(computeModelDigest m, m)]))
        as (rest & E1 & Hi & Hf & Hn & Hc).
      exists ((computeModelDigest m, m) :: rest).
      rewrite <- app_assoc in E1, Hc. cbn [app] in E1, Hc.
      rewrite Forall_forall in Hf.
      split; [exact E1|]. split; [|split; [|split]].
      * intros x Hx. cbn [map snd In] in Hx. destruct Hx as [Hx | Hx];
          [left; exact Hx | right; apply Hi; exact Hx].
      * constructor; [cbn [fst snd]; split; [reflexivity | exact E]|].
        apply Forall_forall. intros kv Hkv. destruct (Hf kv Hkv) as [H1 H2].
        split; [exact H1|]. intros H. apply H2. rewrite map_app, in_app_iff. left. exact H.
      * cbn [map fst]. constructor; [|exact Hn].
        intros H. apply in_map_iff in H as (kv & Ek & Hkv).
        destruct (Hf kv Hkv) as [_ H2]. apply H2.
        rewrite map_app, in_app_iff. right. left. symmetry. exact Ek.
      * constructor; [|exact Hc].
        rewrite map_app, in_app_iff. right. left. reflexivity.
Qed.

Lemma add_models_distinct l acc :
  NoDup (map fst acc ++ map computeModelDigest l) ->
  fold_left add_model l acc = acc ++ map (fun m => (computeModelDigest m, m)) l.
Proof.
  revert acc. induction l as [|m l IH]; intros acc Hn; cbn [fold_left map].
  - symmetry. apply app_nil_r.
  - cbn [map] in Hn. pose proof (NoDup_remove_2 _ _ _ Hn) as Hm.
    unfold add_model at 2.
    replace (map_has acc (computeModelDigest m)) with false.
    + cbn [negb]. rewrite IH.
      * rewrite <- app_assoc. reflexivity.
      * rewrite map_app. cbn [map fst]. rewrite <- app_assoc. exact Hn.
    + symmetry. apply map_has_false. intros H. apply Hm. apply in_or_app. left. exact H.
Qed.

Lemma add_models_absorbed l acc :
  Forall (fun m => In (computeModelDigest m) (map fst acc)) l ->
  fold_left add_model l acc = acc.
Proof.
  induction 1 as [|m l Hm _ IH]; cbn [fold_left]; [reflexivity|].
  unfold add_model at 2. apply map_has_spec in Hm. rewrite Hm. exact IH.
Qed.

Lemma merged_digests (l : list ModelDefinition.t) m :
  In m l ->
  In (computeModelDigest m)
     (map computeModelDigest (map snd (fold_left add_model l []))).
Proof.
  intros Hm. destruct (add_models_spec l []) as (r & E & _ & Hf & _ & Hc).
  cbn [app] in E, Hc. rewrite E.
  replace (map computeModelDigest (map snd r)) with (map fst r).
  - rewrite Forall_forall in Hc. apply Hc. exact Hm.
  - rewrite map_map. apply map_ext_in. intros kv Hkv.
    rewrite Forall_forall in Hf. apply (Hf kv Hkv).
Qed.

(** X5.  The models of a merged protocol: no two have the same digest; each is a
    model of one of the two protocols; every model of either protocol has
    its digest among them; and where a model of the second protocol has the
    digest of a model of the first, the one kept is a model of the first. *)
Theorem mergeProtocols_models (localeCompare : jsstring -> jsstring -> Z)
  (p1 p2 : ProtocolManifest.t) (newName newVersion : jsstring) :
  NoDup (map computeModelDigest
           (ProtocolManifest.models
              (mergeProtocols localeCompare p1 p2 newName newVersion)))
  /\ incl (ProtocolManifest.models (mergeProtocols localeCompare p1 p2 newName newVersion))
          (ProtocolManifest.models p1 ++ ProtocolManifest.models p2)
  /\ (forall m, In m (ProtocolManifest.models p1 ++ ProtocolManifest.models p2) ->
        In (computeModelDigest m)
           (map computeModelDigest
              (ProtocolManifest.models
                 (mergeProtocols localeCompare p1 p2 newName newVersion))))
  /\ (forall m m1,
        In m (ProtocolManifest.models
                (mergeProtocols localeCompare p1 p2 newName newVersion)) ->
        In m1 (ProtocolManifest.models p1) ->
        computeModelDigest m = computeModelDigest m1 ->
        In m (ProtocolManifest.models p1)).
Proof.
  unfold mergeProtocols, createProtocolManifest. cbn [ProtocolManifest.models].
  set (l1 := ProtocolManifest.models p1). set (l2 := ProtocolManifest.models p2).
  destruct (add_models_spec (l1 ++ l2) []) as (r & E & Hi & Hf & Hn & Hc).
  cbn [app] in E, Hc. rewrite E.
  assert (Hk : map computeModelDigest (map snd r) = map fst r).
  { rewrite map_map. apply map_ext_in. intros kv Hkv.
    rewrite Forall_forall in Hf. symmetry. apply (Hf kv Hkv). }
  split; [rewrite Hk; exact Hn|]. split; [exact Hi|]. split.
  - intros m Hm. rewrite Hk. rewrite Forall_forall in Hc. apply Hc. exact Hm.
  - intros m m1 Hm Hm1 Ed.
    rewrite fold_left_app in E.
    destruct (add_models_spec l1 []) as (r1 & E1 & Hi1 & _ & _ & Hc1).
    cbn [app] in E1, Hc1. rewrite E1 in E.
    destruct (add_models_spec l2 r1) as (r2 & E2 & _ & Hf2 & _ & _).
    rewrite E2 in E. subst r. rewrite map_app, in_app_iff in Hm.
    destruct Hm as [Hm | Hm]; [apply Hi1; exact Hm|].
    exfalso. apply in_map_iff in Hm as (kv & Ekv & Hkv).
    rewrite Forall_forall in Hf2, Hc1. destruct (Hf2 kv Hkv) as [Hd Hnot].
    apply Hnot. rewrite Hd, Ekv, Ed. apply Hc1. exact Hm1.
Qed.

Lemma mergeProtocols_models_witness :
  In (model (u "A") [(u "x", JStr (u "string"))])
     (ProtocolManifest.models (manifest same_name)).
Proof.
  apply (proj2 (proj2 (proj2
    (mergeProtocols_models Collation.compare (manifest same_name)
       (manifest (rev same_name)) (u "merged") (u "2.0"))))
    (model (u "A") [(u "x", JStr (u "string"))])
    (model (u "A") [(u "x", JStr (u "string"))]));
    [vm_compute; left; reflexivity | left; reflexivity | reflexivity].
Defined.

(** X6.  When the models of the first protocol have distinct digests, the merged
    protocol lists them first, in their order, followed by models of the
    second; and when every model of the second has the digest of a model of
    the first, the merge has the models of the first and no other.  So a
    protocol whose models have distinct digests, merged with itself, keeps
    its models. *)
Theorem mergeProtocols_keeps_first (localeCompare : jsstring -> jsstring -> Z)
  (p1 p2 : ProtocolManifest.t) (newName newVersion : jsstring) :
  NoDup (map computeModelDigest (ProtocolManifest.models p1)) ->
  (exists rest,
      ProtocolManifest.models (mergeProtocols localeCompare p1 p2 newName newVersion)
      = ProtocolManifest.models p1 ++ rest
      /\ incl rest (ProtocolManifest.models p2))
  /\ (incl (map computeModelDigest (ProtocolManifest.models p2))
           (map computeModelDigest (ProtocolManifest.models p1)) ->
      ProtocolManifest.models (mergeProtocols localeCompare p1 p2 newName newVersion)
      = ProtocolManifest.models p1)
  /\ ProtocolManifest.models (mergeProtocols localeCompare p1 p1 newName newVersion)
     = ProtocolManifest.models p1.
Proof.
  intros Hn. unfold mergeProtocols, createProtocolManifest. cbn [ProtocolManifest.models].
  set (l1 := ProtocolManifest.models p1) in *. set (l2 := ProtocolManifest.models p2).
  set (r1 := map (fun m => (computeModelDigest m, m)) l1).
  assert (E1 : forall l, fold_left add_model (l1 ++ l) [] = fold_left add_model l r1).
  { intros l. rewrite fold_left_app, (add_models_distinct l1 []); [reflexivity|].
    exact Hn. }
  assert (Hs : map snd r1 = l1).
  { unfold r1. rewrite map_map. cbn [snd]. apply map_id. }
  assert (Hk : map fst r1 = map computeModelDigest l1).
  { unfold r1. rewrite map_map. reflexivity. }
  assert (Habs : forall l, incl (map computeModelDigest l) (map computeModelDigest l1) ->
                           map snd (fold_left add_model (l1 ++ l) []) = l1).
  { intros l Hl. rewrite E1, add_models_absorbed; [exact Hs|].
    apply Forall_forall. intros m Hm. rewrite Hk. apply Hl. apply in_map. exact Hm. }
  split; [|split].
  - rewrite E1. destruct (add_models_spec l2 r1) as (rest & E & Hi & _).
    exists (map snd rest). rewrite E, map_app, Hs. split; [reflexivity | exact Hi].
  - apply Habs.
  - apply Habs. apply incl_refl.
Qed.

Lemma mergeProtocols_keeps_first_witness :
  ProtocolManifest.models
    (mergeProtocols Collation.compare (manifest request_response)
       (manifest request_response) (u "merged") (u "2.0"))
  = request_response.
Proof.
  apply (proj2 (proj2 (mergeProtocols_keeps_first Collation.compare
                         (manifest request_response) (manifest request_response)
                         (u "merged") (u "2.0")
                         ltac:(vm_compute; repeat constructor; cbn;
                               intuition discriminate)))).
Defined.

(** X7.  A merged protocol is compatible with each of the two protocols that has
    a model, and it answers a message type with the handler of the first
    protocol when the first has one, and with the handler of the second
    otherwise. *)
Theorem mergeProtocols_compatible (localeCompare : jsstring -> jsstring -> Z)
  (p1 p2 : ProtocolManifest.t) (newName newVersion : jsstring) :
  (ProtocolManifest.models p1 <> [] ->
   areProtocolsCompatible (mergeProtocols localeCompare p1 p2 newName newVersion) p1
   = true)
  /\ (ProtocolManifest.models p2 <> [] ->
      areProtocolsCompatible (mergeProtocols localeCompare p1 p2 newName newVersion) p2
      = true)
  /\ (forall messageType,
        getHandler (mergeProtocols localeCompare p1 p2 newName newVersion) messageType
        = match getHandler p1 messageType with
          | Some h => Some h
          | None => getHandler p2 messageType
          end).
Proof.
  assert (Hc : forall m,
             In m (ProtocolManifest.models p1 ++ ProtocolManifest.models p2) ->
             In (computeModelDigest m)
                (map computeModelDigest
                   (ProtocolManifest.models
                      (mergeProtocols localeCompare p1 p2 newName newVersion))))
    by (intros m Hm; apply merged_digests; exact Hm).
  assert (G : forall p, incl (ProtocolManifest.models p)
                          (ProtocolManifest.models p1 ++ ProtocolManifest.models p2) ->
                        ProtocolManifest.models p <> [] ->
                        areProtocolsCompatible
                          (mergeProtocols localeCompare p1 p2 newName newVersion) p
                        = true).
  { intros p Hi Hne. destruct (ProtocolManifest.models p) as [|m l] eqn:E; [congruence|].
    apply compatible_spec.
    assert (Hm : In m (ProtocolManifest.models p1 ++ ProtocolManifest.models p2))
      by (apply Hi; left; reflexivity).
    apply Hc in Hm. apply in_map_iff in Hm as (m' & Ed & Hm').
    exists m', m. rewrite E. cbn [In]. auto. }
  split; [|split].
  - apply G. apply incl_appl, incl_refl.
  - apply G. apply incl_appr, incl_refl.
  - intros messageType. unfold getHandler, mergeProtocols, createProtocolManifest.
    cbn [ProtocolManifest.handlers].
    generalize (ProtocolManifest.handlers p1) as l.
    induction l as [|h l IH]; cbn [app find]; [reflexivity|].
    destruct (str_eqb (HandlerDefinition.messageType h) messageType);
      [reflexivity | exact IH].
Qed.

Lemma mergeProtocols_compatible_witness :
  areProtocolsCompatible
    (mergeProtocols Collation.compare (manifest request_response) (manifest same_name)
       (u "merged") (u "2.0"))
    (manifest same_name)
  = true.
Proof.
  apply (proj1 (proj2 (mergeProtocols_compatible Collation.compare
                         (manifest request_response) (manifest same_name)
                         (u "merged") (u "2.0")))).
  discriminate.
Defined.

(** *** The order of the keys of a schema *)

Lemma str_ltb_irrefl a : str_ltb a a = false.
Proof.
  induction a as [|x a IH]; cbn [str_ltb]; [reflexivity|].
  rewrite IH, Z.ltb_irrefl, andb_false_r. reflexivity.
Qed.

Lemma str_ltb_trichotomy a b : str_ltb a b = false -> str_ltb b a = false -> a = b.
Proof.
  revert b. induction a as [|x a IH]; intros [|y b]; cbn [str_ltb];
    try discriminate; [reflexivity|].
  intros H1 H2. apply orb_false_iff in H1 as [H1 H1'], H2 as [H2 H2'].
  assert (x = y) by lia. subst y. rewrite Z.eqb_refl in *. cbn [andb] in *.
  f_equal. apply IH; assumption.
Qed.

Lemma str_ltb_trans a b c :
  str_ltb a b = true -> str_ltb b c = true -> str_ltb a c = true.
Proof.
  revert b c. induction a as [|x a IH]; intros [|y b] [|z c]; cbn [str_ltb];
    try discriminate; try reflexivity.
  intros H1 H2. apply orb_true_iff in H1, H2. apply orb_true_iff.
  destruct H1 as [H1 | H1], H2 as [H2 | H2];
    try apply andb_true_iff in H1 as [H1 H1'];
    try apply andb_true_iff in H2 as [H2 H2'];
    try (left; lia).
  right. apply andb_true_iff. split; [lia|]. exact (IH b c H1' H2').
Qed.

Lemma str_ltb_asym a b : str_ltb a b = true -> str_ltb b a = false.
Proof.
  intros H. destruct (str_ltb b a) eqn:E; [|reflexivity].
  pose proof (str_ltb_trans a b a H E) as H'. rewrite str_ltb_irrefl in H'. discriminate.
Qed.

Lemma str_leb_total l : total_on str_leb l = true.
Proof.
  unfold total_on. apply forallb_forall. intros a _. apply forallb_forall. intros b _.
  unfold str_leb. destruct (str_ltb b a) eqn:E; cbn [negb orb]; [|reflexivity].
  rewrite (str_ltb_asym b a E). reflexivity.
Qed.

Lemma str_leb_transitive l : transitive_on str_leb l = true.
Proof.
  unfold transitive_on. apply forallb_forall. intros a _. apply forallb_forall.
  intros b _. apply forallb_forall. intros c _. unfold str_leb.
  destruct (str_ltb b a) eqn:E1; cbn [negb andb orb]; [reflexivity|].
  destruct (str_ltb c b) eqn:E2; cbn [negb andb orb]; [reflexivity|].
  destruct (str_ltb c a) eqn:E3; cbn [negb andb orb]; [|reflexivity].
  destruct (str_ltb a b) eqn:E4.
  - rewrite (str_ltb_trans c a b E3 E4) in E2. discriminate.
  - rewrite (str_ltb_trichotomy a b E4 E1) in E3. congruence.
Qed.

Lemma distinct_keys_NoDup l : distinct_keys l = true <-> NoDup l.
Proof.
  induction l as [|k l IH]; cbn [distinct_keys]; [split; [constructor | reflexivity]|].
  rewrite andb_true_iff, negb_true_iff, IH. split.
  - intros [H1 H2]. constructor; [|exact H2]. intros Hin.
    assert (E : existsb (str_eqb k) l = true)
      by (apply existsb_exists; exists k; split; [exact Hin | apply str_eqb_refl]).
    congruence.
  - intros H. inversion H as [|? ? Hk Hl]; subst. split; [|exact Hl].
    destruct (existsb (str_eqb k) l) eqn:E; [|reflexivity].
    apply existsb_exists in E as (k' & Hin & E). apply str_eqb_eq in E. subst k'.
    contradiction.
Qed.

Lemma str_leb_tie_free l : NoDup l -> tie_free str_leb l = true.
Proof.
  induction 1 as [|k l Hk _ IH]; cbn [tie_free]; [reflexivity|].
  rewrite IH, andb_true_r. apply forallb_forall. intros y Hy. unfold str_leb.
  destruct (str_ltb y k) eqn:E1; cbn [negb andb]; [reflexivity|].
  destruct (str_ltb k y) eqn:E2; cbn [negb andb]; [reflexivity|].
  exfalso. apply Hk. rewrite (str_ltb_trichotomy k y E2 E1). exact Hy.
Qed.

(** Sorting keys by code units gives one result for every arrangement. *)
Lemma sort_keys_permutation l l' :
  NoDup l -> Permutation l l' -> sort str_leb l' = sort str_leb l.
Proof.
  intros Hn Hp. apply sort_permutation;
    [exact Hp | apply str_leb_total | apply str_leb_transitive
     | apply str_leb_tie_free; exact Hn].
Qed.

Lemma get_In k o v : get k o = Some v -> In (k, v) o.
Proof.
  induction o as [|[k' v'] o IH]; cbn [get]; [discriminate|].
  destruct (str_eqb k k') eqn:E.
  - apply str_eqb_eq in E. intros H. inversion H; subst. left. reflexivity.
  - intros H. right. apply IH. exact H.
Qed.

Lemma get_None k o : get k o = None <-> ~ In k (map fst o).
Proof.
  induction o as [|[k' v'] o IH]; cbn [get map fst In]; [tauto|].
  destruct (str_eqb k k') eqn:E.
  - apply str_eqb_eq in E. split; [discriminate | intros H; exfalso; apply H; auto].
  - apply str_eqb_neq in E. rewrite IH. split; [intros H [H' | H']; auto | tauto].
Qed.

Lemma get_distinct k v o : NoDup (map fst o) -> In (k, v) o -> get k o = Some v.
Proof.
  induction o as [|[k' v'] o IH]; cbn [get map fst In]; [contradiction|].
  intros Hn [H | H]; inversion Hn as [|? ? Hk Hn']; subst.
  - inversion H; subst. rewrite str_eqb_refl. reflexivity.
  - destruct (str_eqb k k') eqn:E; [|apply IH; assumption].
    apply str_eqb_eq in E. subst k'. exfalso. apply Hk.
    apply (in_map fst) in H. exact H.
Qed.

Lemma get_map_values (f : json -> json) k o :
  get k (map (fun kv => (fst kv, f (snd kv))) o) = option_map f (get k o).
Proof.
  induction o as [|[k' v'] o IH]; cbn [get map fst snd]; [reflexivity|].
  destruct (str_eqb k k'); [reflexivity | exact IH].
Qed.

Lemma assign_all_ext keys entries entries' :
  (forall k, In k keys -> get k entries = get k entries') ->
  assign_all keys entries = assign_all keys entries'.
Proof.
  unfold assign_all. generalize (@nil (jsstring * json)) as acc.
  induction keys as [|k keys IH]; intros acc H; cbn [fold_left]; [reflexivity|].
  rewrite (H k) by (left; reflexivity). apply IH.
  intros k' Hk'. apply H. right. exact Hk'.
Qed.

Lemma same_content_items l l' :
  same_content (JArr l) (JArr l') = true
  <-> Forall2 (fun x y => same_content x y = true) l l'.
Proof.
  revert l'. induction l as [|x l IH]; intros [|y l']; cbn [same_content];
    try (split; [discriminate | intros H; inversion H]).
  - split; [constructor | reflexivity].
  - rewrite andb_true_iff. cbn [same_content] in IH. rewrite IH. split.
    + intros [H1 H2]. constructor; assumption.
    + intros H. inversion H; subst. split; assumption.
Qed.

Lemma same_content_members o o' :
  same_content (JObj o) (JObj o') = true
  <-> List.length o = List.length o'
      /\ Forall (fun kv => exists v', get (fst kv) o' = Some v'
                                     /\ same_content (snd kv) v' = true) o.
Proof.
  cbn [same_content]. rewrite andb_true_iff, Nat.eqb_eq.
  apply and_iff_compat_l.
  induction o as [|[k v] o IH]; [split; [constructor | reflexivity]|].
  rewrite andb_true_iff, IH. cbn [fst snd]. split.
  - intros [H1 H2]. constructor; [|exact H2]. cbn [fst snd].
    destruct (get k o') as [v'|]; [|discriminate]. exists v'. auto.
  - intros H. inversion H as [|? ? (v' & E & Hs) H2]; subst. cbn [fst snd] in E.
    rewrite E. auto.
Qed.

Lemma same_content_keys o o' :
  NoDup (map fst o) -> same_content (JObj o) (JObj o') = true ->
  Permutation (map fst o) (map fst o').
Proof.
  intros Hn H. apply same_content_members in H as [Hl Hf].
  apply NoDup_Permutation_bis; [exact Hn | rewrite !length_map, Hl; apply Nat.le_refl|].
  intros k Hk. apply in_map_iff in Hk as (kv & Ek & Hkv). subst k.
  rewrite Forall_forall in Hf. destruct (Hf kv Hkv) as (v' & E & _).
  apply get_In in E. apply (in_map fst) in E. exact E.
Qed.

Lemma index_entries (f : json -> json) l l' :
  map f l = map f l' ->
  combine (index_keys (List.length l)) (map f l)
  = combine (index_keys (List.length l')) (map f l').
Proof.
  intros E. rewrite <- E.
  replace (List.length l') with (List.length l); [reflexivity|].
  rewrite <- (length_map f l), E. apply length_map.
Qed.

Lemma canonicalize_same (a : json) :
  forall b, well_keyed a = true -> same_content a b = true ->
    canonical_value a = canonical_value b
    /\ canonical_item a = canonical_item b
    /\ canonicalize a = canonicalize b.
Proof.
  induction a as [ | x | x | x | x | l IH | o IH ] using JsonFacts.json_induction;
    intros b Hw Hs.
  - destruct b; try discriminate. auto.
  - destruct b as [ | y | | | | | ]; try discriminate. cbn [same_content] in Hs.
    apply Bool.eqb_prop in Hs. subst. auto.
  - destruct b as [ | | y | | | | ]; try discriminate. cbn [same_content] in Hs.
    apply Z.eqb_eq in Hs. subst. auto.
  - destruct b as [ | | | y | | | ]; try discriminate. cbn [same_content] in Hs.
    apply NumberFacts.eqb_eq in Hs. subst. auto.
  - destruct b as [ | | | | y | | ]; try discriminate. cbn [same_content] in Hs.
    apply str_eqb_eq in Hs. subst. auto.
  - destruct b as [ | | | | | l' | ]; try discriminate.
    apply same_content_items in Hs. cbn [well_keyed] in Hw.
    assert (E : map canonical_value l = map canonical_value l'
                /\ map canonical_item l = map canonical_item l').
    { revert Hw IH. induction Hs as [|x y l l' Hxy _ IHl]; intros Hw IH;
        [split; reflexivity|].
      cbn [forallb] in Hw. apply andb_true_iff in Hw as [Hx Hw].
      inversion IH as [|? ? Px Pl]; subst.
      destruct (Px y Hx Hxy) as (E1 & E2 & _). destruct (IHl Hw Pl) as [E3 E4].
      cbn [map]. rewrite E1, E2, E3, E4. split; reflexivity. }
    destruct E as [Ev Ei].
    assert (Ec : canonicalize (JArr l) = canonicalize (JArr l')).
    { change (assign_all (sort str_leb (index_keys (List.length l)))
                (combine (index_keys (List.length l)) (map canonical_value l))
              = assign_all (sort str_leb (index_keys (List.length l')))
                  (combine (index_keys (List.length l')) (map canonical_value l'))).
      rewrite (index_entries canonical_value l l' Ev).
      replace (List.length l') with (List.length l); [reflexivity|].
      rewrite <- (length_map canonical_value l), Ev. apply length_map. }
    cbn [canonical_value canonical_item]. rewrite Ei, Ec. auto.
  - destruct b as [ | | | | | | o' ]; try discriminate.
    cbn [well_keyed] in Hw. apply andb_true_iff in Hw as [Hd Hw].
    apply distinct_keys_NoDup in Hd.
    pose proof (same_content_keys o o' Hd Hs) as Hp.
    assert (Hd' : NoDup (map fst o')) by (eapply Permutation_NoDup; eassumption).
    apply same_content_members in Hs as [_ Hs].
    assert (Ec : canonicalize (JObj o) = canonicalize (JObj o')).
    { change (assign_all (sort str_leb (map fst o))
                (map (fun kv => (fst kv, canonical_value (snd kv))) o)
              = assign_all (sort str_leb (map fst o'))
                  (map (fun kv => (fst kv, canonical_value (snd kv))) o')).
      rewrite (sort_keys_permutation (map fst o) (map fst o') Hd Hp).
      apply assign_all_ext. intros k Hk. apply sort_incl in Hk.
      rewrite !get_map_values.
      apply in_map_iff in Hk as ([k' v] & Ek & Hkv). cbn [fst] in Ek. subst k'.
      rewrite Forall_forall in Hs, IH. destruct (Hs _ Hkv) as (v' & E' & Hv).
      cbn [fst snd] in E', Hv. rewrite (get_distinct k v o Hd Hkv), E'.
      cbn [option_map]. f_equal.
      rewrite forallb_forall in Hw.
      exact (proj1 (IH _ Hkv v' (Hw _ Hkv) Hv)). }
    cbn [canonical_value canonical_item]. rewrite Ec. auto.
Qed.

(** X8.  [canonicalizeSchema] does not depend on the order in which a schema, or
    an object at any depth inside it, lists its keys; so the digest of a
    model does not depend on it either, nor on the description of the
    model. *)
Theorem canonicalizeSchema_key_order (schema schema' : record)
  (name : jsstring) (description description' : option jsstring) :
  well_keyed (JObj schema) = true ->
  same_content (JObj schema) (JObj schema') = true ->
  canonicalizeSchema schema = canonicalizeSchema schema'
  /\ computeModelDigest {| ModelDefinition.name := name;
                           ModelDefinition.schema := schema;
                           ModelDefinition.description := description |}
     = computeModelDigest {| ModelDefinition.name := name;
                             ModelDefinition.schema := schema';
                             ModelDefinition.description := description' |}.
Proof.
  intros Hw Hs.
  assert (E : canonicalizeSchema schema = canonicalizeSchema schema')
    by exact (proj2 (proj2 (canonicalize_same (JObj schema) (JObj schema') Hw Hs))).
  split; [exact E|].
  unfold computeModelDigest, model_canonical. cbn [ModelDefinition.name ModelDefinition.schema].
  rewrite E. reflexivity.
Qed.

Lemma canonicalizeSchema_key_order_witness :
  canonicalizeSchema nested_schema = canonicalizeSchema nested_schema_reordered.
Proof.
  apply (proj1 (canonicalizeSchema_key_order nested_schema nested_schema_reordered
                  (u "Request") None None eq_refl eq_refl)).
Defined.

(** *** The canonical object *)

Lemma str_leb_trans a b c :
  str_leb a b = true -> str_leb b c = true -> str_leb a c = true.
Proof.
  apply (transitive_on_spec str_leb [a; b; c]);
    [apply str_leb_transitive | cbn; auto | cbn; auto | cbn; auto].
Qed.

Lemma key_le_trans a b c : key_le a b = true -> key_le b c = true -> key_le a c = true.
Proof.
  unfold key_le.
  destruct (array_index a), (array_index b), (array_index c);
    try discriminate; try reflexivity; [lia | apply str_leb_trans].
Qed.

Lemma has_key_In k o : has_key k o = true <-> In k (map fst o).
Proof.
  induction o as [|[k' v] o IH]; cbn [has_key map fst In]; [split; [discriminate | tauto]|].
  rewrite orb_true_iff, IH, str_eqb_eq. split; intros [H | H]; auto.
Qed.

Lemma has_key_not_In k o : has_key k o = false <-> ~ In k (map fst o).
Proof. rewrite <- has_key_In. destruct (has_key k o); split; congruence. Qed.

Lemma keys_replace_value k v o : map fst (replace_value k v o) = map fst o.
Proof.
  induction o as [|[k' v'] o IH]; cbn [replace_value map fst]; [reflexivity|].
  destruct (str_eqb k k'); cbn [map fst]; [reflexivity | rewrite IH; reflexivity].
Qed.

Lemma str_eqb_trans_neq k k0 k' :
  str_eqb k k0 = false -> str_eqb k' k = true -> str_eqb k' k0 = false.
Proof.
  intros H1 H2. apply str_eqb_eq in H2. subst k'. exact H1.
Qed.

Lemma get_replace_value k v o k' :
  has_key k o = true ->
  get k' (replace_value k v o) = if str_eqb k' k then Some v else get k' o.
Proof.
  induction o as [|[k0 v0] o IH]; cbn [has_key replace_value get]; [discriminate|].
  destruct (str_eqb k k0) eqn:E; cbn [orb get].
  - intros _. apply str_eqb_eq in E. subst k0. destruct (str_eqb k' k); reflexivity.
  - intros H. rewrite (IH H). destruct (str_eqb k' k) eqn:E'; [|reflexivity].
    rewrite (str_eqb_trans_neq k k0 k' E E'). reflexivity.
Qed.

Lemma get_insert_index n k v o k' :
  has_key k o = false ->
  get k' (insert_index n k v o) = if str_eqb k' k then Some v else get k' o.
Proof.
  induction o as [|[k0 v0] o IH]; cbn [has_key insert_index get]; [reflexivity|].
  intros H. apply orb_false_iff in H as [E H].
  destruct (array_index k0) as [m|]; [destruct (m <? n)|]; cbn [get]; try reflexivity.
  rewrite (IH H). destruct (str_eqb k' k) eqn:E'; [|reflexivity].
  rewrite (str_eqb_trans_neq k k0 k' E E'). reflexivity.
Qed.

Lemma get_app_last k v o k' :
  has_key k o = false ->
  get k' (o ++ [(k, v)]) = if str_eqb k' k then Some v else get k' o.
Proof.
  induction o as [|[k0 v0] o IH]; cbn [has_key app get]; [reflexivity|].
  intros H. apply orb_false_iff in H as [E H]. rewrite (IH H).
  destruct (str_eqb k' k) eqn:E'; [|reflexivity].
  rewrite (str_eqb_trans_neq k k0 k' E E'). reflexivity.
Qed.

(** Reading a property after [CreateDataProperty]. *)
Lemma get_define o k v k' :
  get k' (define o k v) = if str_eqb k' k then Some v else get k' o.
Proof.
  unfold define. destruct (has_key k o) eqn:E.
  - apply get_replace_value. exact E.
  - destruct (array_index k); [apply get_insert_index | apply get_app_last]; exact E.
Qed.

Lemma insert_index_perm n k v o : Permutation ((k, v) :: o) (insert_index n k v o).
Proof.
  induction o as [|[k0 v0] o IH]; cbn [insert_index]; [reflexivity|].
  destruct (array_index k0) as [m|]; [destruct (m <? n)|]; try reflexivity.
  rewrite perm_swap. constructor. exact IH.
Qed.

Lemma insert_index_sorted n k v o :
  array_index k = Some n ->
  StronglySorted (fun a b => key_le a b = true) (map fst o) ->
  StronglySorted (fun a b => key_le a b = true) (map fst (insert_index n k v o)).
Proof.
  intros En. induction o as [|[k0 v0] o IH]; cbn [insert_index map fst]; intros Hs.
  - repeat constructor.
  - inversion Hs as [|? ? Hs' Ha]; subst.
    assert (Hhere : key_le k k0 = true ->
                    StronglySorted (fun a b => key_le a b = true)
                      (k :: k0 :: map fst o)).
    { intros Hk. constructor; [exact Hs|]. constructor; [exact Hk|].
      rewrite Forall_forall in *. intros x Hx.
      apply (key_le_trans k k0 x Hk). apply Ha. exact Hx. }
    destruct (array_index k0) as [m|] eqn:E0.
    + destruct (m <? n) eqn:Em; cbn [map fst].
      * constructor; [apply IH; exact Hs'|].
        rewrite Forall_forall in *. intros x Hx.
        apply (Permutation_in _ (Permutation_map fst (Permutation_sym
                 (insert_index_perm n k v o)))) in Hx.
        destruct Hx as [Hx | Hx]; [|apply Ha; exact Hx].
        cbn [fst] in Hx. subst x. unfold key_le. rewrite E0, En. lia.
      * apply Hhere. unfold key_le. rewrite E0, En. lia.
    + apply Hhere. unfold key_le. rewrite E0, En. reflexivity.
Qed.

Lemma sorted_app_last {A} (R : A -> A -> Prop) l x :
  StronglySorted R l -> Forall (fun y => R y x) l -> StronglySorted R (l ++ [x]).
Proof.
  induction 1 as [|y l Hs IH Hy]; intros Hx; cbn [app]; [repeat constructor|].
  inversion Hx; subst. constructor; [apply IH; assumption|].
  apply Forall_app. split; [exact Hy | constructor; [assumption | constructor]].
Qed.

(** What the loop of [canonicalizeSchema] keeps true of the object it
    builds, [rest] being the keys still to come. *)
Lemma assign_all_order entries rest acc :
  StronglySorted (fun a b => str_leb a b = true) rest ->
  NoDup (map fst acc) ->
  StronglySorted (fun a b => key_le a b = true) (map fst acc) ->
  (forall k k', In k (map fst acc) -> In k' rest -> str_leb k k' = true) ->
  let result :=
    fold_left
      (fun sorted key =>
         match get key entries with
         | Some value => assign sorted key value
         | None => sorted
         end) rest acc in
  NoDup (map fst result)
  /\ StronglySorted (fun a b => key_le a b = true) (map fst result).
Proof.
  revert acc. induction rest as [|k rest IH]; intros acc Hr Hn Hs Hle; cbn [fold_left].
  - split; assumption.
  - inversion Hr as [|? ? Hr' Hk]; subst. rewrite Forall_forall in Hk.
    assert (Hrest : forall a b, In a (map fst acc) -> In b rest -> str_leb a b = true)
      by (intros a b Ha Hb; apply Hle; [exact Ha | right; exact Hb]).
    destruct (get k entries) as [v|]; [|apply IH; assumption].
    unfold assign. destruct (str_eqb k proto_key); [apply IH; assumption|].
    unfold define. destruct (has_key k acc) eqn:Eh.
    + apply IH; rewrite ?keys_replace_value; assumption.
    + apply has_key_not_In in Eh.
      assert (Hnew : forall o' : record, Permutation (k :: map fst acc) (map fst o') ->
                forall a b, In a (map fst o') -> In b rest -> str_leb a b = true).
      { intros o' Hp a b Ha Hb. apply (Permutation_in _ (Permutation_sym Hp)) in Ha.
        destruct Ha as [Ha | Ha]; [subst a; apply Hk; exact Hb | apply Hrest; assumption]. }
      destruct (array_index k) as [n|] eqn:En.
      * pose proof (Permutation_map fst (insert_index_perm n k v acc)) as Hp.
        cbn [map fst] in Hp. apply IH.
        -- exact Hr'.
        -- apply (Permutation_NoDup Hp). constructor; assumption.
        -- apply insert_index_sorted; assumption.
        -- apply Hnew. exact Hp.
      * assert (Hp : Permutation (k :: map fst acc) (map fst (acc ++ [(k, v)]))).
        { rewrite map_app. cbn [map fst]. apply Permutation_cons_append. }
        apply IH.
        -- exact Hr'.
        -- apply (Permutation_NoDup Hp). constructor; assumption.
        -- rewrite map_app. cbn [map fst]. apply sorted_app_last; [exact Hs|].
           apply Forall_forall. intros x Hx. unfold key_le. rewrite En.
           destruct (array_index x); [reflexivity|].
           apply Hle; [exact Hx | left; reflexivity].
        -- apply Hnew. exact Hp.
Qed.

Lemma get_assign_all keys entries k :
  get k (assign_all keys entries)
  = if str_eqb k proto_key then None
    else if existsb (str_eqb k) keys then get k entries else None.
Proof.
  unfold assign_all.
  assert (G : forall acc,
             get k (fold_left
                      (fun sorted key =>
                         match get key entries with
                         | Some value => assign sorted key value
                         | None => sorted
                         end) keys acc)
             = if str_eqb k proto_key then get k acc
               else if existsb (str_eqb k) keys
                    then match get k entries with Some v => Some v | None => get k acc end
                    else get k acc).
  { induction keys as [|k0 keys IH]; intros acc; cbn [fold_left existsb].
    - destruct (str_eqb k proto_key); reflexivity.
    - rewrite IH. destruct (str_eqb k proto_key) eqn:Ep.
      + destruct (get k0 entries) as [v|]; [|reflexivity].
        unfold assign. destruct (str_eqb k0 proto_key) eqn:E0; [reflexivity|].
        rewrite get_define. destruct (str_eqb k k0) eqn:E; [|reflexivity].
        apply str_eqb_eq in E. congruence.
      + destruct (str_eqb k k0) eqn:E; cbn [orb].
        * apply str_eqb_eq in E. subst k0.
          destruct (get k entries) as [v|] eqn:Eg.
          -- destruct (existsb (str_eqb k) keys); [reflexivity|].
             unfold assign. rewrite Ep, get_define, str_eqb_refl. reflexivity.
          -- destruct (existsb (str_eqb k) keys); reflexivity.
        * assert (Ea : forall acc', acc' = match get k0 entries with
                                          | Some value => assign acc k0 value
                                          | None => acc
                                          end -> get k acc' = get k acc).
          { intros acc' ->. destruct (get k0 entries) as [v|]; [|reflexivity].
            unfold assign. destruct (str_eqb k0 proto_key); [reflexivity|].
            rewrite get_define, E. reflexivity. }
          rewrite (Ea _ eq_refl). reflexivity. }
  rewrite G. cbn [get]. destruct (str_eqb k proto_key); [reflexivity|].
  destruct (existsb (str_eqb k) keys); [|reflexivity].
  destruct (get k entries); reflexivity.
Qed.

(** X9.  The object that [canonicalizeSchema] returns: it has every key of the
    schema except [__proto__], each with its canonicalized value and each
    once; and it lists the array indices first, by their value, then the
    other keys by their code units. *)
Theorem canonicalizeSchema_object (schema : record) :
  (forall k,
     get k (canonicalizeSchema schema)
     = if str_eqb k proto_key then None
       else option_map canonical_value (get k schema))
  /\ NoDup (map fst (canonicalizeSchema schema))
  /\ StronglySorted (fun a b => key_le a b = true)
       (map fst (canonicalizeSchema schema)).
Proof.
  change (canonicalizeSchema schema)
    with (assign_all (sort str_leb (map fst schema))
            (map (fun kv => (fst kv, canonical_value (snd kv))) schema)).
  split.
  - intros k. rewrite get_assign_all, get_map_values.
    destruct (str_eqb k proto_key); [reflexivity|].
    destruct (existsb (str_eqb k) (sort str_leb (map fst schema))) eqn:E; [reflexivity|].
    replace (get k schema) with (@None json); [reflexivity|].
    symmetry. apply get_None. intros Hin.
    assert (H : existsb (str_eqb k) (sort str_leb (map fst schema)) = true).
    { apply existsb_exists. exists k. split; [|apply str_eqb_refl].
      apply (Permutation_in _ (sort_perm str_leb (map fst schema))). exact Hin. }
    congruence.
  - apply assign_all_order.
    + apply (sorted_strongly str_leb (map fst schema));
        [apply str_leb_transitive | apply sort_incl | apply sort_sorted; apply str_leb_total].
    + constructor.
    + constructor.
    + intros k k' [].
Qed.

(** *** Canonical objects are fixed points *)

Lemma digits_value_shift s : forall acc,
  digits_value acc s
  = option_map (fun m => acc * 10 ^ Z.of_nat (List.length s) + m) (digits_value 0 s).
Proof.
  induction s as [|c r IH]; intros acc; cbn [digits_value List.length].
  - cbn [option_map]. f_equal. change (10 ^ Z.of_nat 0) with 1. lia.
  - destruct (is_digit c); [|reflexivity].
    rewrite (IH (acc * 10 + (c - 48))), (IH (0 * 10 + (c - 48))).
    destruct (digits_value 0 r) as [m|]; cbn [option_map]; [|reflexivity].
    f_equal. rewrite Nat2Z.inj_succ, Z.pow_succ_r by lia. ring.
Qed.

Lemma digits_value_bound s : forall m,
  digits_value 0 s = Some m -> 0 <= m < 10 ^ Z.of_nat (List.length s).
Proof.
  induction s as [|c r IH]; intros m; cbn [digits_value List.length].
  - intros H. inversion H; subst. change (10 ^ Z.of_nat 0) with 1. lia.
  - destruct (is_digit c) eqn:Ec; [|discriminate].
    rewrite digits_value_shift.
    destruct (digits_value 0 r) as [m'|]; cbn [option_map]; [|discriminate].
    intros H. inversion H; subst. specialize (IH m' eq_refl).
    rewrite Nat2Z.inj_succ, Z.pow_succ_r by lia.
    unfold is_digit, in_range in Ec. nia.
Qed.

Lemma digits_value_cons c r m :
  digits_value 0 (c :: r) = Some m ->
  48 <= c <= 57
  /\ exists m', digits_value 0 r = Some m'
                /\ m = (c - 48) * 10 ^ Z.of_nat (List.length r) + m'
                /\ 0 <= m' < 10 ^ Z.of_nat (List.length r).
Proof.
  cbn [digits_value]. destruct (is_digit c) eqn:Ec; [|discriminate].
  rewrite digits_value_shift.
  destruct (digits_value 0 r) as [m'|] eqn:Er; cbn [option_map]; [|discriminate].
  intros H. inversion H; subst. split; [unfold is_digit, in_range in Ec; lia|].
  exists m'. split; [reflexivity|]. split; [lia|]. apply digits_value_bound. exact Er.
Qed.

Lemma digits_value_same_length s : forall t m,
  List.length s = List.length t ->
  digits_value 0 s = Some m -> digits_value 0 t = Some m -> s = t.
Proof.
  induction s as [|c r IH]; intros [|c' r'] m Hl Hs Ht; try discriminate; [reflexivity|].
  apply digits_value_cons in Hs as (Hc & ms & Es & Em & Hb).
  apply digits_value_cons in Ht as (Hc' & mt & Et & Em' & Hb').
  injection Hl as Hl. rewrite <- Hl in *.
  assert (E1 : c - 48 = m / 10 ^ Z.of_nat (List.length r))
    by (apply (Z.div_unique _ _ _ ms); lia).
  assert (E2 : c' - 48 = m / 10 ^ Z.of_nat (List.length r))
    by (apply (Z.div_unique _ _ _ mt); lia).
  assert (c' = c) by lia. subst c'.
  assert (mt = ms) by lia. subst mt.
  f_equal. exact (IH r' ms Hl Es Et).
Qed.

(** A longer index is a greater index. *)
Lemma longer_index c r c' r' n n' :
  (List.length r < List.length r')%nat ->
  digits_value 0 (c :: r) = Some n ->
  c' <> 48 ->
  digits_value 0 (c' :: r') = Some n' ->
  n < n'.
Proof.
  intros Hl Hs Hc Ht.
  apply digits_value_cons in Hs as (Hd & ms & _ & Em & Hb).
  apply digits_value_cons in Ht as (Hd' & mt & _ & Em' & Hb').
  assert (Hp : 10 * 10 ^ Z.of_nat (List.length r) <= 10 ^ Z.of_nat (List.length r')).
  { rewrite <- Z.pow_succ_r by lia. apply Z.pow_le_mono_r; lia. }
  nia.
Qed.

Lemma array_index_inj a b n :
  array_index a = Some n -> array_index b = Some n -> a = b.
Proof.
  unfold array_index. destruct a as [|c r]; [discriminate|].
  destruct b as [|c' r']; [discriminate|].
  destruct ((c =? 48) && negb (Nat.eqb (List.length r) 0)) eqn:Ec; [discriminate|].
  destruct ((c' =? 48) && negb (Nat.eqb (List.length r') 0)) eqn:Ec'; [discriminate|].
  destruct (digits_value 0 (c :: r)) as [m|] eqn:Ea; [|discriminate].
  destruct (digits_value 0 (c' :: r')) as [m'|] eqn:Eb; [|discriminate].
  destruct (m <? 4294967295); [|discriminate].
  destruct (m' <? 4294967295); [|discriminate].
  intros H H'. inversion H; inversion H'; subst m m'.
  destruct (Nat.lt_trichotomy (List.length r) (List.length r')) as [Hl | [Hl | Hl]].
  - assert (c' <> 48).
    { intros E. subst c'. destruct r'; [cbn in Hl; lia | discriminate]. }
    pose proof (longer_index c r c' r' n n Hl Ea H0 Eb). lia.
  - apply (digits_value_same_length (c :: r) (c' :: r') n);
      [cbn [List.length]; congruence | assumption | assumption].
  - assert (c <> 48).
    { intros E. subst c. destruct r; [cbn in Hl; lia | discriminate]. }
    pose proof (longer_index c' r' c r n n Hl Eb H0 Ea). lia.
Qed.

Lemma key_le_antisym a b : key_le a b = true -> key_le b a = true -> a = b.
Proof.
  unfold key_le.
  destruct (array_index a) as [n|] eqn:Ea, (array_index b) as [m|] eqn:Eb;
    try discriminate.
  - intros H1 H2. assert (n = m) by lia. subst m. exact (array_index_inj a b n Ea Eb).
  - unfold str_leb. intros H1 H2. apply negb_true_iff in H1, H2.
    apply str_ltb_trichotomy; assumption.
Qed.

Lemma key_le_tie_free l : NoDup l -> tie_free key_le l = true.
Proof.
  induction 1 as [|k l Hk _ IH]; cbn [tie_free]; [reflexivity|].
  rewrite IH, andb_true_r. apply forallb_forall. intros y Hy.
  destruct (key_le k y) eqn:E1; [|reflexivity].
  destruct (key_le y k) eqn:E2; [|reflexivity].
  exfalso. apply Hk. rewrite (key_le_antisym k y E1 E2). exact Hy.
Qed.

Lemma get_Some_In k o v : get k o = Some v -> In k (map fst o).
Proof.
  intros H. apply get_In in H. apply (in_map fst) in H. exact H.
Qed.

(** An object is determined by what its keys read, when it lists each key
    once and in the canonical order. *)
Lemma canonical_object_unique (a b : record) :
  NoDup (map fst a) -> NoDup (map fst b) ->
  StronglySorted (fun x y => key_le x y = true) (map fst a) ->
  StronglySorted (fun x y => key_le x y = true) (map fst b) ->
  (forall k, get k a = get k b) ->
  a = b.
Proof.
  intros Na Nb Sa Sb Hg.
  assert (Hk : map fst a = map fst b).
  { apply (sorted_unique key_le); [|apply key_le_tie_free; exact Na | exact Sa | exact Sb].
    apply NoDup_Permutation; [exact Na | exact Nb|].
    intros k. split; intros Hin.
    - destruct (get k b) as [v|] eqn:E; [exact (get_Some_In k b v E)|].
      rewrite <- Hg in E. apply get_None in E. contradiction.
    - destruct (get k a) as [v|] eqn:E; [exact (get_Some_In k a v E)|].
      rewrite Hg in E. apply get_None in E. contradiction. }
  clear Sa Sb Nb. revert b Hg Hk.
  induction a as [|[k v] a IH]; intros [|[k' v'] b] Hg Hk; try discriminate;
    [reflexivity|].
  cbn [map fst] in *. inversion Hk as [[E Hk']]. subst k'.
  inversion Na as [|? ? Hn Na']; subst.
  pose proof (Hg k) as Hv. cbn [get] in Hv. rewrite str_eqb_refl in Hv.
  inversion Hv; subst v'. f_equal. apply IH; [exact Na' | | exact Hk'].
  intros k'. specialize (Hg k'). cbn [get] in Hg.
  destruct (str_eqb k' k) eqn:E; [|exact Hg].
  apply str_eqb_eq in E. subst k'.
  assert (E1 : get k a = None) by (apply get_None; exact Hn).
  assert (E2 : get k b = None) by (apply get_None; rewrite <- Hk'; exact Hn).
  congruence.
Qed.

Lemma existsb_str_eqb k l : existsb (str_eqb k) l = true <-> In k l.
Proof.
  rewrite existsb_exists. split.
  - intros (x & Hin & E). apply str_eqb_eq in E. subst x. exact Hin.
  - intros Hin. exists k. split; [exact Hin | apply str_eqb_refl].
Qed.

(** Canonicalizing again an object that the loop of [canonicalizeSchema]
    built from canonical values gives the object. *)
Lemma assign_all_fixed (keys : list jsstring) (entries : record) :
  (forall k x, get k entries = Some x -> canonical_value x = x) ->
  canonicalize (JObj (assign_all (sort str_leb keys) entries))
  = assign_all (sort str_leb keys) entries.
Proof.
  intros Hc. set (c := assign_all (sort str_leb keys) entries).
  assert (Hs : StronglySorted (fun a b => str_leb a b = true) (sort str_leb keys)).
  { apply (sorted_strongly str_leb keys);
      [apply str_leb_transitive | apply sort_incl | apply sort_sorted; apply str_leb_total]. }
  destruct (assign_all_order entries (sort str_leb keys) [] Hs (NoDup_nil _)
              (SSorted_nil _) (fun k k' (H : In k []) _ => match H with end))
    as [Nc Sc].
  fold (assign_all (sort str_leb keys) entries) in Nc, Sc. fold c in Nc, Sc.
  change (canonicalize (JObj c))
    with (assign_all (sort str_leb (map fst c))
            (map (fun kv => (fst kv, canonical_value (snd kv))) c)).
  assert (Hs' : StronglySorted (fun a b => str_leb a b = true)
                  (sort str_leb (map fst c))).
  { apply (sorted_strongly str_leb (map fst c));
      [apply str_leb_transitive | apply sort_incl | apply sort_sorted; apply str_leb_total]. }
  destruct (assign_all_order (map (fun kv => (fst kv, canonical_value (snd kv))) c)
              (sort str_leb (map fst c)) [] Hs' (NoDup_nil _)
              (SSorted_nil _) (fun k k' (H : In k []) _ => match H with end))
    as [N2 S2].
  apply canonical_object_unique; try assumption.
  intros k. rewrite get_assign_all, get_map_values.
  assert (Hp : get k c = if str_eqb k proto_key then None
                         else if existsb (str_eqb k) (sort str_leb keys)
                              then get k entries else None)
    by apply get_assign_all.
  destruct (str_eqb k proto_key); [symmetry; exact Hp|].
  destruct (get k c) as [x|] eqn:E.
  - assert (Hin : existsb (str_eqb k) (sort str_leb (map fst c)) = true).
    { apply existsb_str_eqb. apply (Permutation_in _ (sort_perm str_leb (map fst c))).
      exact (get_Some_In k c x E). }
    rewrite Hin. cbn [option_map]. f_equal.
    destruct (existsb (str_eqb k) (sort str_leb keys)); [|discriminate].
    apply (Hc k). symmetry. exact Hp.
  - destruct (existsb (str_eqb k) (sort str_leb (map fst c))); reflexivity.
Qed.

Lemma get_combine_In {A} k (ks : list jsstring) (vs : list A) (f : A -> json) x :
  get k (combine ks (map f vs)) = Some x -> exists v, In v vs /\ x = f v.
Proof.
  revert vs. induction ks as [|k0 ks IH]; intros [|v vs]; cbn [combine map get];
    try discriminate.
  destruct (str_eqb k k0).
  - intros H. inversion H; subst. exists v. split; [left|]; reflexivity.
  - intros H. destruct (IH vs H) as (v' & Hin & E). exists v'. split; [right|]; assumption.
Qed.

Lemma canonicalize_fixed (v : json) :
  canonical_value (canonical_value v) = canonical_value v
  /\ canonical_item (canonical_item v) = canonical_item v
  /\ canonicalize (JObj (canonicalize v)) = canonicalize v.
Proof.
  induction v as [ | x | x | x | x | l IH | o IH ] using JsonFacts.json_induction;
    try (repeat split; reflexivity).
  - assert (E : canonicalize (JObj (canonicalize (JArr l))) = canonicalize (JArr l)).
    { change (canonicalize (JArr l))
        with (assign_all (sort str_leb (index_keys (List.length l)))
                (combine (index_keys (List.length l)) (map canonical_value l))).
      apply assign_all_fixed. intros k x Hx.
      apply get_combine_In in Hx as (v & Hin & Ex). subst x.
      rewrite Forall_forall in IH. apply (IH v Hin). }
    cbn [canonical_value canonical_item]. rewrite E. split; [|split; reflexivity].
    f_equal. rewrite map_map. apply map_ext_in. intros v Hin.
    rewrite Forall_forall in IH. apply (IH v Hin).
  - assert (E : canonicalize (JObj (canonicalize (JObj o))) = canonicalize (JObj o)).
    { change (canonicalize (JObj o))
        with (assign_all (sort str_leb (map fst o))
                (map (fun kv => (fst kv, canonical_value (snd kv))) o)).
      apply assign_all_fixed. intros k x Hx. rewrite get_map_values in Hx.
      destruct (get k o) as [v|] eqn:Eg; [|discriminate]. inversion Hx; subst x.
      apply get_In in Eg. rewrite Forall_forall in IH. apply (IH _ Eg). }
    cbn [canonical_value canonical_item]. rewrite E. repeat split; reflexivity.
Qed.

(** X24.  [canonicalizeSchema] is idempotent: the canonical form of a schema is
    its own canonical form, so a model keeps its digest when its schema is
    replaced by the canonical form of the schema. *)
Theorem canonicalizeSchema_idempotent (schema : record)
  (name : jsstring) (description : option jsstring) :
  canonicalizeSchema (canonicalizeSchema schema) = canonicalizeSchema schema
  /\ computeModelDigest {| ModelDefinition.name := name;
                           ModelDefinition.schema := canonicalizeSchema schema;
                           ModelDefinition.description := description |}
     = computeModelDigest {| ModelDefinition.name := name;
                             ModelDefinition.schema := schema;
                             ModelDefinition.description := description |}.
Proof.
  assert (E : canonicalizeSchema (canonicalizeSchema schema) = canonicalizeSchema schema)
    by exact (proj2 (proj2 (canonicalize_fixed (JObj schema)))).
  split; [exact E|].
  unfold computeModelDigest, model_canonical.
  cbn [ModelDefinition.name ModelDefinition.schema]. rewrite E. reflexivity.
Qed.

(** *** Validation of a manifest *)




Lemma validate_model_value errs m idx :
  exists errs',
    validate_model errs (model_value m) idx = Normal (errs ++ errs')
    /\ List.length errs'
       = (if str_eqb (ModelDefinition.name m) [] then 1 else 0)%nat.
Proof.
  unfold validate_model, model_value. cbn [property bind app get].
  change (str_eqb (u "name") (u "name")) with true.
  change (str_eqb (u "schema") (u "name")) with false.
  change (str_eqb (u "schema") (u "schema")) with true.
  cbn [truthy is_object negb orb].
  destruct (str_eqb (ModelDefinition.name m) []); cbn [negb].
  - eexists. split; reflexivity.
  - exists []. rewrite app_nil_r. split; reflexivity.
Qed.

Lemma validate_model_values ms : forall errs idx,
  exists errs',
    validate_models errs (map model_value ms) idx = Normal (errs ++ errs')
    /\ List.length errs'
       = List.length (filter (fun m => str_eqb (ModelDefinition.name m) []) ms).
Proof.
  induction ms as [|m ms IH]; intros errs idx; cbn [map validate_models filter].
  - exists []. rewrite app_nil_r. split; reflexivity.
  - destruct (validate_model_value errs m idx) as (e1 & H1 & L1). rewrite H1. cbn [bind].
    destruct (IH (errs ++ e1) (S idx)) as (e2 & H2 & L2). rewrite H2.
    exists (e1 ++ e2). rewrite app_assoc. split; [reflexivity|].
    rewrite length_app, L1, L2.
    destruct (str_eqb (ModelDefinition.name m) []); reflexivity.
Qed.

Lemma get_optional_skip k k' v rest :
  str_eqb k k' = false -> get k (optional k' v ++ rest) = get k rest.
Proof.
  intros E. destruct v; cbn [optional app get]; [rewrite E|]; reflexivity.
Qed.

Lemma validate_manifest_value (p : ProtocolManifest.t) :
  exists errs,
    validateProtocolManifest (manifest_value p)
    = Normal {| valid := Nat.eqb (List.length errs) 0; errors := errs |}
    /\ List.length errs
       = ((if str_eqb (ProtocolManifest.name p) [] then 1 else 0)
          + (if str_eqb (ProtocolManifest.version p) [] then 1 else 0)
          + List.length (filter (fun m => str_eqb (ModelDefinition.name m) [])
                           (ProtocolManifest.models p)))%nat.
Proof.
  unfold validateProtocolManifest, manifest_value. cbn [property bind app].
  assert (Em : forall d rest,
             get (u "models")
               ([(u "name", JStr (ProtocolManifest.name p));
                 (u "version", JStr (ProtocolManifest.version p));
                 (u "digest", JStr (ProtocolManifest.digest p))]
                  ++ optional (u "description") d
                  ++ (u "models", JArr (map model_value (ProtocolManifest.models p)))
                       :: rest)
             = Some (JArr (map model_value (ProtocolManifest.models p)))).
  { intros d rest. cbn [app get].
    change (str_eqb (u "models") (u "name")) with false.
    change (str_eqb (u "models") (u "version")) with false.
    change (str_eqb (u "models") (u "digest")) with false.
    cbn [andb]. rewrite get_optional_skip by reflexivity. cbn [get].
    change (str_eqb (u "models") (u "models")) with true. reflexivity. }
  cbn [app] in Em. rewrite Em. cbn [get].
  change (str_eqb (u "name") (u "name")) with true.
  change (str_eqb (u "version") (u "name")) with false.
  change (str_eqb (u "version") (u "version")) with true.
  cbn [truthy is_string is_array negb orb].
  rewrite !orb_false_r, !negb_involutive.
  match goal with
  | |- context [validate_models ?e _ _] =>
      destruct (validate_model_values (ProtocolManifest.models p) e 0%nat)
        as (e' & H & L);
      rewrite H; cbn [bind]; exists (e ++ e')
  end.
  split; [reflexivity|]. rewrite length_app, L.
  destruct (str_eqb (ProtocolManifest.name p) []),
    (str_eqb (ProtocolManifest.version p) []); reflexivity.
Qed.

Lemma filter_nil_length {A} (f : A -> bool) l :
  List.length (filter f l) = 0%nat <-> Forall (fun x => f x = false) l.
Proof.
  induction l as [|x l IH]; cbn [filter]; [split; [constructor | reflexivity]|].
  destruct (f x) eqn:E; cbn [List.length].
  - split; [discriminate | intros H; inversion H; congruence].
  - rewrite IH. split; [intros H; constructor; assumption | intros H; inversion H; assumption].
Qed.

(** X11.  On a manifest of the declared type the validation returns a result,
    with
    one error for an empty protocol name, one for an empty version and one
    for each model whose name is empty; so the manifest is valid exactly when
    none of these names is empty, whatever the number of its models. *)
Theorem validateProtocolManifest_typed (p : ProtocolManifest.t) :
  exists r,
    validateProtocolManifest (manifest_value p) = Normal r
    /\ List.length (errors r)
       = ((if str_eqb (ProtocolManifest.name p) [] then 1 else 0)
          + (if str_eqb (ProtocolManifest.version p) [] then 1 else 0)
          + List.length (filter (fun m => str_eqb (ModelDefinition.name m) [])
                           (ProtocolManifest.models p)))%nat
    /\ (valid r = true
        <-> ProtocolManifest.name p <> [] /\ ProtocolManifest.version p <> []
            /\ Forall (fun m => ModelDefinition.name m <> [])
                 (ProtocolManifest.models p)).
Proof.
  destruct (validate_manifest_value p) as (errs & H & L).
  eexists. split; [exact H|]. cbn [errors valid]. split; [exact L|].
  rewrite Nat.eqb_eq, L.
  assert (Hf : List.length (filter (fun m => str_eqb (ModelDefinition.name m) [])
                              (ProtocolManifest.models p)) = 0%nat
               <-> Forall (fun m => ModelDefinition.name m <> [])
                     (ProtocolManifest.models p)).
  { rewrite filter_nil_length. split; apply Forall_impl; intros m Hm;
      apply str_eqb_neq; exact Hm. }
  rewrite <- Hf, <- !str_eqb_neq.
  destruct (str_eqb (ProtocolManifest.name p) []),
    (str_eqb (ProtocolManifest.version p) []); split; try lia;
    intros (H1 & H2 & H3); try discriminate; lia.
Qed.

(** X12.  A protocol made by [createSimpleProtocol] with a name and a version
    that
    are not empty passes the validation without an error.  Its models are
    [Request] and [Response], in this order, and its one handler answers
    [Request] and no other message type, [Response] included. *)
Theorem createSimpleProtocol_valid (localeCompare : jsstring -> jsstring -> Z)
  (name version : jsstring) (requestSchema responseSchema : record) :
  name <> [] -> version <> [] ->
  validateProtocolManifest
    (manifest_value
       (createSimpleProtocol localeCompare name version requestSchema responseSchema))
  = Normal {| valid := true; errors := [] |}
  /\ getModelNames
       (createSimpleProtocol localeCompare name version requestSchema responseSchema)
     = [u "Request"; u "Response"]
  /\ (forall messageType,
        getHandler
          (createSimpleProtocol localeCompare name version requestSchema responseSchema)
          messageType
        = if str_eqb messageType (u "Request")
          then Some {| HandlerDefinition.name := u "handleRequest";
                       HandlerDefinition.messageType := u "Request";
                       HandlerDefinition.responseType := Some (u "Response");
                       HandlerDefinition.description := None |}
          else None).
Proof.
  intros Hn Hv. split; [|split].
  - destruct (validate_manifest_value
                (createSimpleProtocol localeCompare name version
                   requestSchema responseSchema)) as (errs & H & L).
    rewrite H. cbn in L. apply str_eqb_neq in Hn, Hv. rewrite Hn, Hv in L.
    destruct errs; [reflexivity | discriminate].
  - reflexivity.
  - intros messageType. unfold getHandler, createSimpleProtocol, createProtocolManifest.
    cbn [ProtocolManifest.handlers find HandlerDefinition.messageType].
    rewrite (JsonFacts.str_eqb_sym (u "Request") messageType).
    destruct (str_eqb messageType (u "Request")); reflexivity.
Qed.

Lemma createSimpleProtocol_valid_witness :
  getModelNames
    (createSimpleProtocol Collation.compare (u "ping") (u "1.0")
       nested_schema nested_schema_reordered)
  = [u "Request"; u "Response"].
Proof.
  apply (proj1 (proj2 (createSimpleProtocol_valid Collation.compare (u "ping") (u "1.0")
                         nested_schema nested_schema_reordered
                         ltac:(discriminate) ltac:(discriminate)))).
Defined.

End ProtocolUtilsMore.

(** ** More of [utils/messageUtils.ts] *)

Module MessageUtilsMore.

Import MessageUtils Notions Samples.

Lemma push_if_length test message errs :
  List.length (push_if test message errs)
  = (List.length errs + if test then 1 else 0)%nat.
Proof.
  unfold push_if. destruct test; [rewrite length_app; reflexivity | lia].
Qed.

(** The check of the expiry, as [validateEnvelope] makes it. *)
Lemma validateEnvelope_run (e : AgentEnvelope.t) (w : world) :
  exists errs,
    validateEnvelope e w
    = ({| valid := Nat.eqb (List.length errs) 0; errors := errs |}, w)
    /\ List.length errs
       = ((if negb (AgentEnvelope.version e =? ENVELOPE_VERSION)%Z then 1 else 0)
          + (if str_eqb (AgentEnvelope.sender e) [] then 1 else 0)
          + (if str_eqb (AgentEnvelope.target e) [] then 1 else 0)
          + (if str_eqb (AgentEnvelope.session e) [] then 1 else 0)
          + (if str_eqb (AgentEnvelope.schemaDigest e) [] then 1 else 0)
          + (if str_eqb (AgentEnvelope.payload e) [] then 1 else 0)
          + (match AgentEnvelope.expires e with
             | Some t => if (negb (t =? 0) && (clock w / 1000 >? t))%Z then 1 else 0
             | None => 0
             end))%nat.
Proof.
  unfold validateEnvelope, io_bind, ret, isExpired, now_seconds, io_bind, ret, Date_now.
  destruct (AgentEnvelope.expires e) as [t|]; [destruct (t =? 0) eqn:E0|];
    (eexists; split; [reflexivity|]); rewrite !push_if_length; cbn [List.length negb andb];
    lia.
Qed.

(** X13.  [validateEnvelope] accepts an envelope exactly when its version is 1,
    its sender, target, session, schema digest and payload are not empty,
    and its expiry time, if it has one other than 0, is not behind the
    clock.  An expiry time of 0 is taken as none.  The signature, the nonce
    and the protocol digest are not looked at; there are at most seven
    errors, and the clock is only read. *)
Theorem validateEnvelope_valid_iff (e : AgentEnvelope.t) (w : world) :
  snd (validateEnvelope e w) = w
  /\ (valid (fst (validateEnvelope e w)) = true
      <-> AgentEnvelope.version e = 1
          /\ AgentEnvelope.sender e <> [] /\ AgentEnvelope.target e <> []
          /\ AgentEnvelope.session e <> [] /\ AgentEnvelope.schemaDigest e <> []
          /\ AgentEnvelope.payload e <> []
          /\ (forall t, AgentEnvelope.expires e = Some t ->
                        t = 0 \/ clock w / 1000 <= t))
  /\ (List.length (errors (fst (validateEnvelope e w))) <= 7)%nat
  /\ (forall signature nonce protocolDigest,
        validateEnvelope
          {| AgentEnvelope.version := AgentEnvelope.version e;
             AgentEnvelope.sender := AgentEnvelope.sender e;
             AgentEnvelope.target := AgentEnvelope.target e;
             AgentEnvelope.session := AgentEnvelope.session e;
             AgentEnvelope.schemaDigest := AgentEnvelope.schemaDigest e;
             AgentEnvelope.protocolDigest := protocolDigest;
             AgentEnvelope.payload := AgentEnvelope.payload e;
             AgentEnvelope.expires := AgentEnvelope.expires e;
             AgentEnvelope.nonce := nonce;
             AgentEnvelope.signature := signature |} w
        = validateEnvelope e w).
Proof.
  destruct (validateEnvelope_run e w) as (errs & H & L).
  unfold ENVELOPE_VERSION in L.
  split; [rewrite H; reflexivity|].
  split; [|split; [|intros signature nonce protocolDigest; reflexivity]];
    rewrite H; cbn [fst snd valid errors]; rewrite ?Nat.eqb_eq, L, <- ?str_eqb_neq.
  - destruct (AgentEnvelope.version e =? 1) eqn:Ev,
      (str_eqb (AgentEnvelope.sender e) []), (str_eqb (AgentEnvelope.target e) []),
      (str_eqb (AgentEnvelope.session e) []), (str_eqb (AgentEnvelope.schemaDigest e) []),
      (str_eqb (AgentEnvelope.payload e) []); cbn [negb];
      (split; [intros H0 | intros (H1 & H2 & H3 & H4 & H5 & H6 & H7)]);
      try discriminate; try lia.
    + repeat (split; [first [reflexivity | lia]|]).
      intros t Ht. rewrite Ht in H0.
      destruct (negb (t =? 0) && (clock w / 1000 >? t)) eqn:E; [discriminate|]. lia.
    + destruct (AgentEnvelope.expires e) as [t|]; [|reflexivity].
      destruct (H7 t eq_refl) as [H8 | H8];
        (replace (negb (t =? 0) && (clock w / 1000 >? t)) with false by lia);
        reflexivity.
  - destruct (negb (AgentEnvelope.version e =? 1)),
      (str_eqb (AgentEnvelope.sender e) []), (str_eqb (AgentEnvelope.target e) []),
      (str_eqb (AgentEnvelope.session e) []), (str_eqb (AgentEnvelope.schemaDigest e) []),
      (str_eqb (AgentEnvelope.payload e) []);
      destruct (AgentEnvelope.expires e) as [t|];
      try destruct (negb (t =? 0) && (clock w / 1000 >? t)); cbn; lia.
Qed.

Lemma validateEnvelope_valid_iff_witness :
  valid (fst (validateEnvelope (sample_original (u "session-1")) sample_world)) = true.
Proof.
  apply (proj2 (proj1 (proj2 (validateEnvelope_valid_iff
                                (sample_original (u "session-1")) sample_world)))).
  repeat (split; [first [reflexivity | discriminate]|]).
  intros t H. inversion H; subst. right. cbn. lia.
Defined.

Lemma encodePayload_not_empty (p : record) : encodePayload p <> [].
Proof.
  unfold encodePayload. cbn [stringify Utf8.encode].
  change (Utf8.is_high 123) with false. change (Utf8.is_low 123) with false.
  change (Utf8.encode_scalar 123) with [123]. cbn [app].
  destruct (Utf8.encode (join 44 (map (member stringify) p) ++ [125])) as [|a [|b r]];
    discriminate.
Qed.

Lemma createSessionId_not_empty (w : world) : fst (createSessionId w) <> [].
Proof.
  unfold createSessionId, randomUUID, randomBytes. cbn [fst].
  intros H. apply app_eq_nil in H as [_ H]. discriminate.
Qed.

Lemma session_not_empty (s : option jsstring) (w : world) :
  fst (string_or s createSessionId w) <> [].
Proof.
  destruct s as [[|c r]|]; cbn [string_or]; try apply createSessionId_not_empty.
  discriminate.
Qed.

Lemma created_validity
  (sender target : jsstring) (p : record) (schemaDigest : jsstring)
  (options : options) (w w2 : world) :
  sender <> [] -> target <> [] -> schemaDigest <> [] ->
  0 <= clock w ->
  (forall t, opt_expirySeconds options = Some t -> 0 <= t) ->
  valid (fst (validateEnvelope
                (fst (createEnvelope sender target p schemaDigest options w)) w2))
  = (clock w2 / 1000
     <=? clock w / 1000 + number_or (opt_expirySeconds options) DEFAULT_MESSAGE_EXPIRY).
Proof.
  intros Hs Ht Hd Hc Httl.
  pose proof (MessageUtilsFacts.createEnvelope_fields sender target p schemaDigest options w)
    as H.
  cbv zeta in H. destruct H as (Hv & Hse & Hta & Hss & Hsd & _ & Hp & _).
  pose proof (MessageUtilsFacts.createEnvelope_expires sender target p schemaDigest
                options w) as He.
  destruct (validateEnvelope_run
              (fst (createEnvelope sender target p schemaDigest options w)) w2)
    as (errs & H & L).
  rewrite H. cbn [fst valid]. rewrite Hv, Hse, Hta, Hss, Hsd, Hp, He in L.
  apply str_eqb_neq in Hs, Ht, Hd. rewrite Hs, Ht, Hd in L.
  pose proof (session_not_empty (opt_session options) w) as Hn.
  apply str_eqb_neq in Hn. rewrite Hn in L.
  pose proof (encodePayload_not_empty p) as Hpn.
  apply str_eqb_neq in Hpn. rewrite Hpn in L.
  change (negb (ENVELOPE_VERSION =? ENVELOPE_VERSION)) with false in L.
  cbn [Nat.add] in L.
  assert (Hpos : 0 < number_or (opt_expirySeconds options) DEFAULT_MESSAGE_EXPIRY).
  { unfold number_or, DEFAULT_MESSAGE_EXPIRY.
    destruct (opt_expirySeconds options) as [t|] eqn:E; [|lia].
    specialize (Httl t eq_refl). destruct (t =? 0) eqn:E0; lia. }
  assert (Hnow : 0 <= clock w / 1000) by (apply Z.div_pos; lia).
  rewrite L.
  destruct (clock w2 / 1000
            <=? clock w / 1000
                + number_or (opt_expirySeconds options) DEFAULT_MESSAGE_EXPIRY) eqn:E.
  - replace (negb (clock w / 1000
                   + number_or (opt_expirySeconds options) DEFAULT_MESSAGE_EXPIRY =? 0)
             && (clock w2 / 1000
                 >? clock w / 1000
                    + number_or (opt_expirySeconds options) DEFAULT_MESSAGE_EXPIRY))
      with false by lia.
    reflexivity.
  - replace (negb (clock w / 1000
                   + number_or (opt_expirySeconds options) DEFAULT_MESSAGE_EXPIRY =? 0)
             && (clock w2 / 1000
                 >? clock w / 1000
                    + number_or (opt_expirySeconds options) DEFAULT_MESSAGE_EXPIRY))
      with true by lia.
    reflexivity.
Qed.

(** X14.  The session and the payload of an envelope from [createEnvelope]
    are never empty.  With a sender, a target and a schema digest that are
    not empty, and with no negative time to live, the envelope passes
    [validateEnvelope] at any later moment up to its expiry time, the second
    of expiry included, and fails it afterwards: it is valid exactly while
    the clock, in whole seconds, is not beyond the second of creation plus
    the time to live. *)
Theorem createEnvelope_valid_until
  (sender target : jsstring) (p : record) (schemaDigest : jsstring)
  (options : options) (w w2 : world) :
  AgentEnvelope.session (fst (createEnvelope sender target p schemaDigest options w))
  <> []
  /\ AgentEnvelope.payload (fst (createEnvelope sender target p schemaDigest options w))
     <> []
  /\ (sender <> [] -> target <> [] -> schemaDigest <> [] ->
      0 <= clock w ->
      (forall t, opt_expirySeconds options = Some t -> 0 <= t) ->
      valid (fst (validateEnvelope
                    (fst (createEnvelope sender target p schemaDigest options w)) w2))
      = (clock w2 / 1000
         <=? clock w / 1000
             + number_or (opt_expirySeconds options) DEFAULT_MESSAGE_EXPIRY)).
Proof.
  pose proof (MessageUtilsFacts.createEnvelope_fields sender target p schemaDigest options w)
    as H.
  cbv zeta in H. destruct H as (_ & _ & _ & Hss & _ & _ & Hp & _).
  split; [|split].
  - rewrite Hss. apply session_not_empty.
  - rewrite Hp. apply encodePayload_not_empty.
  - apply created_validity.
Qed.

Lemma createEnvelope_valid_until_witness :
  valid (fst (validateEnvelope
                (fst (createEnvelope (u "agent1qsender") (u "agent1qtarget")
                        sample_payload (u "model:test123") no_options sample_world))
                {| clock := 1700000300999; random := fun _ => 0; drawn := 0 |}))
  = true.
Proof.
  apply (proj2 (proj2 (createEnvelope_valid_until (u "agent1qsender") (u "agent1qtarget")
                         sample_payload (u "model:test123") no_options sample_world
                         {| clock := 1700000300999; random := fun _ => 0; drawn := 0 |})));
    [discriminate | discriminate | discriminate | cbn; lia | discriminate].
Defined.

(** X15.  A reply to an envelope that has a sender, made by a sender that is not
    empty, passes [validateEnvelope] when it is made and for the next 300
    seconds: a response, when its schema digest is not empty, and an error
    envelope always.  A reply to an envelope without a sender has no target
    and does not pass. *)
Theorem replies_valid
  (o : AgentEnvelope.t) (sender : jsstring) (responsePayload : record)
  (responseSchemaDigest errorCode errorMessage : jsstring) (w w2 : world) :
  sender <> [] -> 0 <= clock w -> clock w <= clock w2 <= clock w + 300000 ->
  (AgentEnvelope.sender o <> [] ->
   (responseSchemaDigest <> [] ->
    valid (fst (validateEnvelope
                  (fst (createResponseEnvelope o sender responsePayload
                          responseSchemaDigest w)) w2)) = true)
   /\ valid (fst (validateEnvelope
                    (fst (createErrorEnvelope o sender errorCode errorMessage w)) w2))
      = true)
  /\ (AgentEnvelope.sender o = [] ->
      valid (fst (validateEnvelope
                    (fst (createResponseEnvelope o sender responsePayload
                            responseSchemaDigest w)) w2)) = false
      /\ valid (fst (validateEnvelope
                       (fst (createErrorEnvelope o sender errorCode errorMessage w)) w2))
         = false).
Proof.
  intros Hs Hc Hw.
  assert (Hle : clock w2 / 1000 <= clock w / 1000 + 300) by euclid.
  split.
  - intros Ho. unfold createResponseEnvelope, createErrorEnvelope. split.
    + intros Hd. rewrite created_validity; try assumption; [|discriminate].
      cbn [opt_expirySeconds number_or]. unfold DEFAULT_MESSAGE_EXPIRY. lia.
    + rewrite created_validity; try assumption; try discriminate.
      cbn [opt_expirySeconds number_or]. unfold DEFAULT_MESSAGE_EXPIRY. lia.
  - intros Ho. unfold createResponseEnvelope, createErrorEnvelope.
    assert (G : forall e, AgentEnvelope.target e = [] ->
                          valid (fst (validateEnvelope e w2)) = false).
    { intros e He. destruct (validateEnvelope_run e w2) as (errs & H & L).
      rewrite H. cbn [fst valid]. rewrite He in L.
      cbn [str_eqb] in L. apply Nat.eqb_neq. lia. }
    split; apply G.
    + match goal with
      | |- context [createEnvelope ?s ?t ?p ?d ?opts w] =>
          pose proof (MessageUtilsFacts.createEnvelope_fields s t p d opts w) as H
      end.
      cbv zeta in H. destruct H as (_ & _ & Ht & _). rewrite Ht. exact Ho.
    + match goal with
      | |- context [createEnvelope ?s ?t ?p ?d ?opts w] =>
          pose proof (MessageUtilsFacts.createEnvelope_fields s t p d opts w) as H
      end.
      cbv zeta in H. destruct H as (_ & _ & Ht & _). rewrite Ht. exact Ho.
Qed.

Lemma replies_valid_witness :
  valid (fst (validateEnvelope
                (fst (createErrorEnvelope (sample_original (u "session-1"))
                        (u "agent1qtarget") (u "E42") (u "bad input") sample_world))
                sample_world))
  = true.
Proof.
  apply (proj1 (replies_valid (sample_original (u "session-1")) (u "agent1qtarget")
                  sample_payload (u "model:reply") (u "E42") (u "bad input")
                  sample_world sample_world
                  ltac:(discriminate) ltac:(cbn; lia) ltac:(cbn; lia))
               ltac:(discriminate)).
Defined.

(** X16.  A time to live is counted in whole seconds of the clock: an expiry
    time
    from [calculateExpiry] is not expired for at least the time to live,
    1000 ms a second, after the moment at which it was computed, and it is
    expired from one second later on.  Without an argument the time to live
    is 300 seconds. *)
Theorem expiry_window (ttl : option Z) (w w2 : world) :
  (clock w2 <= clock w + 1000 * match ttl with Some s => s | None => 300 end ->
   fst (isExpired (fst (calculateExpiry ttl w)) w2) = false)
  /\ (clock w + 1000 * (match ttl with Some s => s | None => 300 end + 1) <= clock w2 ->
      fst (isExpired (fst (calculateExpiry ttl w)) w2) = true).
Proof.
  unfold isExpired, calculateExpiry, now_seconds, io_bind, ret, Date_now,
    DEFAULT_MESSAGE_EXPIRY.
  cbn [fst]. destruct ttl as [s|]; split; intros H.
  - assert (clock w2 / 1000 <= clock w / 1000 + s) by euclid. lia.
  - assert (clock w / 1000 + s < clock w2 / 1000) by euclid. lia.
  - assert (clock w2 / 1000 <= clock w / 1000 + 300) by euclid. lia.
  - assert (clock w / 1000 + 300 < clock w2 / 1000) by euclid. lia.
Qed.

Lemma expiry_window_witness :
  fst (isExpired (fst (calculateExpiry (Some 60) sample_world))
         {| clock := 1700000060123; random := fun _ => 0; drawn := 0 |})
  = false.
Proof.
  apply (proj1 (expiry_window (Some 60) sample_world
                  {| clock := 1700000060123; random := fun _ => 0; drawn := 0 |})).
  cbn. lia.
Defined.

Lemma hex_digit_lower n : 0 <= n < 16 -> is_lower_hex (hex_digit n) = true.
Proof.
  intros H. unfold is_lower_hex, hex_digit, in_range. destruct (n <? 10) eqn:E; lia.
Qed.

Lemma hex_shape bs :
  Forall is_byte bs ->
  List.length (hex bs) = (2 * List.length bs)%nat
  /\ Forall (fun c => is_lower_hex c = true) (hex bs).
Proof.
  unfold hex. induction 1 as [|b bs Hb _ [IH1 IH2]]; cbn [flat_map app List.length].
  - split; [reflexivity | constructor].
  - unfold is_byte in Hb. split; [rewrite IH1; lia|].
    constructor; [apply hex_digit_lower; euclid|].
    constructor; [apply hex_digit_lower; euclid | exact IH2].
Qed.

Lemma randomBytes_bytes n w : Forall is_byte (fst (randomBytes n w)).
Proof.
  unfold randomBytes. cbn [fst]. apply Forall_forall. intros b Hb.
  apply in_map_iff in Hb as (i & E & _). subst b. unfold is_byte.
  apply Z.mod_pos_bound. lia.
Qed.

(** X17.  A nonce is 32 lower-case hexadecimal digits, the two digits of each of
    the next 16 bytes of the random source, which it uses up; the clock is
    not touched. *)
Theorem createNonce_shape (w : world) :
  List.length (fst (createNonce w)) = 32%nat
  /\ Forall (fun c => is_lower_hex c = true) (fst (createNonce w))
  /\ fst (createNonce w)
     = hex (map (fun i => random w (drawn w + i)%nat mod 256) (seq 0 16))
  /\ drawn (snd (createNonce w)) = (drawn w + 16)%nat
  /\ clock (snd (createNonce w)) = clock w.
Proof.
  pose proof (hex_shape _ (randomBytes_bytes 16 w)) as [H1 H2].
  unfold createNonce, io_bind, ret.
  unfold randomBytes in *. cbn [fst snd drawn clock] in *.
  rewrite length_map, length_seq in H1.
  repeat split; assumption.
Qed.

(** X18.  The response to an envelope goes to its sender and carries its
    protocol
    digest; it is unsigned, of version 1, and expires 300 seconds from now.
    It is in the session of the original when that is not empty, and in a
    new session otherwise.  When the response payload is JSON-serializable,
    the payload of the envelope decodes to it, with its numbers as
    [JSON.parse] gives them (a negative zero is read as the zero): a value
    structurally equal to it. *)
Theorem createResponseEnvelope_fields
  (o : AgentEnvelope.t) (sender : jsstring) (responsePayload : record)
  (responseSchemaDigest : jsstring) (w : world) :
  AgentEnvelope.target
    (fst (createResponseEnvelope o sender responsePayload responseSchemaDigest w))
  = AgentEnvelope.sender o
  /\ AgentEnvelope.sender
       (fst (createResponseEnvelope o sender responsePayload responseSchemaDigest w))
     = sender
  /\ AgentEnvelope.schemaDigest
       (fst (createResponseEnvelope o sender responsePayload responseSchemaDigest w))
     = responseSchemaDigest
  /\ AgentEnvelope.protocolDigest
       (fst (createResponseEnvelope o sender responsePayload responseSchemaDigest w))
     = AgentEnvelope.protocolDigest o
  /\ AgentEnvelope.signature
       (fst (createResponseEnvelope o sender responsePayload responseSchemaDigest w))
     = None
  /\ AgentEnvelope.version
       (fst (createResponseEnvelope o sender responsePayload responseSchemaDigest w))
     = 1
  /\ AgentEnvelope.expires
       (fst (createResponseEnvelope o sender responsePayload responseSchemaDigest w))
     = Some (clock w / 1000 + 300)
  /\ (AgentEnvelope.session o <> [] ->
      AgentEnvelope.session
        (fst (createResponseEnvelope o sender responsePayload responseSchemaDigest w))
      = AgentEnvelope.session o)
  /\ (AgentEnvelope.session o = [] ->
      AgentEnvelope.session
        (fst (createResponseEnvelope o sender responsePayload responseSchemaDigest w))
      = fst (createSessionId w))
  /\ (json_serializable (JObj responsePayload) = true ->
      decodePayload
        (fst (createResponseEnvelope o sender responsePayload responseSchemaDigest w))
      = Normal (normal (JObj responsePayload))
      /\ structurally_equal (normal (JObj responsePayload)) (JObj responsePayload)
         = true).
Proof.
  unfold createResponseEnvelope.
  match goal with
  | |- context [createEnvelope ?s ?t ?p ?d ?opts w] =>
      pose proof (MessageUtilsFacts.createEnvelope_fields s t p d opts w) as H;
      pose proof (MessageUtilsFacts.createEnvelope_expires s t p d opts w) as He
  end.
  cbv zeta in H. destruct H as (Hv & Hse & Ht & Hs & Hd & Hp & Hpay & Hsig).
  cbn [opt_session opt_protocolDigest opt_expirySeconds number_or] in *.
  repeat (split; [assumption|]). split; [|split].
  - intros Hne. rewrite Hs. destruct (AgentEnvelope.session o); [congruence | reflexivity].
  - intros E. rewrite Hs, E. reflexivity.
  - intros Hok. split; [|apply JsonFacts.normal_spec; exact Hok].
    unfold decodePayload. rewrite Hpay. unfold encodePayload.
    apply MessageUtilsFacts.encoded_payload_reads. exact Hok.
Qed.

Lemma createResponseEnvelope_fields_witness :
  AgentEnvelope.session
    (fst (createResponseEnvelope (sample_original (u "session-1")) (u "agent1qtarget")
            sample_payload (u "model:reply") sample_world))
  = u "session-1"
  /\ decodePayload
       (fst (createResponseEnvelope (sample_original (u "session-1"))
               (u "agent1qtarget") sample_payload (u "model:reply") sample_world))
     = Normal (JObj sample_payload).
Proof.
  pose proof (createResponseEnvelope_fields (sample_original (u "session-1"))
                (u "agent1qtarget") sample_payload (u "model:reply") sample_world)
    as (_ & _ & _ & _ & _ & _ & _ & Hs & _ & Hp).
  split; [apply Hs; discriminate | apply (proj1 (Hp eq_refl))].
Defined.

(** *** Signing and verifying *)

(** X19.  With a signing function whose signatures are non-empty byte strings
    that
    the verifying function accepts for the signed text, an envelope that
    [signEnvelope] returns passes [verifyEnvelope]: the signature survives
    its base64 encoding, and the text verified is the text signed.  The
    signed envelope is the envelope with the signature added. *)
Theorem signEnvelope_verifies
  (crypto_sign : bytes -> jsstring -> completion bytes)
  (crypto_verify : bytes -> jsstring -> bytes -> completion bool)
  (privateKey publicKey : bytes) (e e' : AgentEnvelope.t) :
  (forall data signature,
      crypto_sign privateKey data = Normal signature ->
      signature <> [] /\ Forall is_byte signature
      /\ crypto_verify publicKey data signature = Normal true) ->
  signEnvelope crypto_sign e privateKey = Normal e' ->
  verifyEnvelope crypto_verify e' publicKey = Normal true
  /\ e' = AgentEnvelope.with_signature e (AgentEnvelope.signature e')
  /\ AgentEnvelope.signature e' <> None.
Proof.
  intros Hc Hs. unfold signEnvelope in Hs.
  destruct (crypto_sign privateKey (signingPayload e)) as [sig|err] eqn:E;
    cbn [bind] in Hs; [|discriminate].
  inversion Hs; subst e'. clear Hs.
  destruct (Hc _ _ E) as (Hne & Hb & Hv).
  split; [|split; [reflexivity | discriminate]].
  unfold verifyEnvelope. cbn [AgentEnvelope.with_signature AgentEnvelope.signature].
  destruct (Base64.encode sig) as [|c r] eqn:Ee.
  - exfalso. destruct sig as [|a [|b [|c r]]]; [congruence | discriminate ..].
  - rewrite <- Ee. rewrite Base64Facts.base64_decode_encode by exact Hb.
    change (signingPayload (AgentEnvelope.with_signature e (Some (Base64.encode sig))))
      with (signingPayload e).
    rewrite Hv. reflexivity.
Qed.

Lemma signEnvelope_verifies_witness :
  verifyEnvelope keyed_verify
    (AgentEnvelope.with_signature (sample_original (u "session-1"))
       (Some (Base64.encode
                (1 :: Sha256.digest
                        ([7; 7] ++ Utf8.encode
                                     (signingPayload (sample_original (u "session-1"))))))))
    [7; 7]
  = Normal true.
Proof.
  apply (signEnvelope_verifies keyed_sign keyed_verify [7; 7] [7; 7]
           (sample_original (u "session-1"))).
  - intros data signature H. unfold keyed_sign in H. inversion H; subst.
    split; [discriminate|]. split.
    + constructor; [unfold is_byte; lia | apply ProtocolUtilsMore.sha256_bytes].
    + unfold keyed_verify. rewrite str_eqb_refl. reflexivity.
  - reflexivity.
Defined.

Lemma stringify_injective (a b : json) :
  serializable a = true -> serializable b = true -> stringify a = stringify b -> a = b.
Proof.
  intros Ha Hb E. apply JsonFacts.parse_stringify in Ha, Hb. rewrite E in Ha.
  congruence.
Qed.

Lemma envelope_ok_fields (e : AgentEnvelope.t) :
  envelope_ok e = true ->
  serializable
    (JObj (flat_map (fun kv => match snd kv with
                               | Some v => [(fst kv, v)]
                               | None => []
                               end) (signingFields e))) = true
  /\ serializable
       (JObj (flat_map (fun kv => match snd kv with
                                  | Some v => [(fst kv, v)]
                                  | None => []
                                  end) (envelopeFields e))) = true.
Proof.
  unfold envelope_ok. rewrite !andb_true_iff.
  intros (((((((((H1 & H2) & H3) & H4) & H5) & H6) & H7) & H8) & H9) & H10).
  unfold signingFields, envelopeFields.
  destruct e as [v se ta ss sd [pd|] pl [ex|] [no|] [sg|]];
    cbn [AgentEnvelope.version AgentEnvelope.sender AgentEnvelope.target
         AgentEnvelope.session AgentEnvelope.schemaDigest AgentEnvelope.protocolDigest
         AgentEnvelope.payload AgentEnvelope.expires AgentEnvelope.nonce
         AgentEnvelope.signature optional_ok option_map flat_map app fst snd] in *;
    cbn [serializable forallb fst snd];
    rewrite ?H1, ?H2, ?H3, ?H4, ?H5, ?H6, ?H7, ?H8, ?H9, ?H10;
    split; reflexivity.
Qed.

(** X20.  The text that is signed determines the eight signed fields: two
    envelopes with well-formed fields have the same signing payload exactly
    when they agree on version, sender, target, session, schema digest,
    payload, expiry time and nonce.  So a change of any of these fields
    changes the text that [verifyEnvelope] checks the signature against. *)
Theorem signingPayload_injective (e1 e2 : AgentEnvelope.t) :
  envelope_ok e1 = true -> envelope_ok e2 = true ->
  (signingPayload e1 = signingPayload e2
   <-> AgentEnvelope.version e1 = AgentEnvelope.version e2
       /\ AgentEnvelope.sender e1 = AgentEnvelope.sender e2
       /\ AgentEnvelope.target e1 = AgentEnvelope.target e2
       /\ AgentEnvelope.session e1 = AgentEnvelope.session e2
       /\ AgentEnvelope.schemaDigest e1 = AgentEnvelope.schemaDigest e2
       /\ AgentEnvelope.payload e1 = AgentEnvelope.payload e2
       /\ AgentEnvelope.expires e1 = AgentEnvelope.expires e2
       /\ AgentEnvelope.nonce e1 = AgentEnvelope.nonce e2).
Proof.
  intros H1 H2. split.
  - intros E. unfold signingPayload, stringify_literal in E.
    apply stringify_injective in E;
      [|apply envelope_ok_fields; assumption | apply envelope_ok_fields; assumption].
    unfold signingFields in E.
    destruct (AgentEnvelope.expires e1), (AgentEnvelope.expires e2),
      (AgentEnvelope.nonce e1), (AgentEnvelope.nonce e2);
      cbn [flat_map snd fst app option_map] in E; inversion E; subst;
      repeat split; congruence.
  - intros (E1 & E2 & E3 & E4 & E5 & E6 & E7 & E8).
    unfold signingPayload, signingFields. rewrite E1, E2, E3, E4, E5, E6, E7, E8.
    reflexivity.
Qed.

Lemma signingPayload_injective_witness :
  AgentEnvelope.session (sample_original (u "session-1"))
  = AgentEnvelope.session
      (AgentEnvelope.with_protocolDigest (sample_original (u "session-1")) None).
Proof.
  apply (proj1 (signingPayload_injective (sample_original (u "session-1"))
                  (AgentEnvelope.with_protocolDigest (sample_original (u "session-1")) None)
                  eq_refl eq_refl) eq_refl).
Defined.

(** X21.  An envelope written by [serializeEnvelope] is read back by
    [deserializeEnvelope] without an error, and the value read has the
    fields of the envelope, the optional ones where the envelope has them. *)
Theorem deserializeEnvelope_serializeEnvelope (e : AgentEnvelope.t) :
  envelope_ok e = true ->
  exists v,
    deserializeEnvelope (serializeEnvelope e) = Normal v
    /\ read_envelope v = Some e.
Proof.
  intros H. destruct (envelope_ok_fields e H) as [_ Hs].
  unfold deserializeEnvelope, serializeEnvelope, stringify_literal.
  rewrite (JsonFacts.parse_stringify _ Hs). eexists. split; [reflexivity|].
  unfold envelopeFields.
  destruct e as [v se ta ss sd [pd|] pl [ex|] [no|] [sg|]]; reflexivity.
Qed.

Lemma deserializeEnvelope_serializeEnvelope_witness :
  exists v,
    deserializeEnvelope (serializeEnvelope (sample_original (u "session-1"))) = Normal v
    /\ read_envelope v = Some (sample_original (u "session-1")).
Proof.
  apply (deserializeEnvelope_serializeEnvelope (sample_original (u "session-1"))).
  reflexivity.
Defined.

(** *** The digest of a message model *)

Lemma round_length st kw : List.length (Sha256.round st kw) = List.length st.
Proof.
  unfold Sha256.round.
  destruct st as [|a [|b [|c [|d [|e [|f [|g [|h [|i r]]]]]]]]]; reflexivity.
Qed.

Lemma compress_length h block :
  List.length (Sha256.compress h block) = List.length h.
Proof.
  unfold Sha256.compress. rewrite length_map, length_combine.
  assert (E : forall l st, List.length (fold_left Sha256.round l st) = List.length st).
  { induction l as [|kw l IH]; intros st; cbn [fold_left]; [reflexivity|].
    rewrite IH. apply round_length. }
  rewrite E. apply Nat.min_id.
Qed.

Lemma digest_length msg : List.length (Sha256.digest msg) = 32%nat.
Proof.
  unfold Sha256.digest.
  assert (E : forall bl h, List.length (fold_left Sha256.compress bl h) = List.length h).
  { induction bl as [|b bl IH]; intros h; cbn [fold_left]; [reflexivity|].
    rewrite IH. apply compress_length. }
  generalize (E (Sha256.blocks (Nat.div (List.length (Sha256.pad msg)) 64)
                   (Sha256.words (Sha256.pad msg))) Sha256.initial_hash).
  generalize (fold_left Sha256.compress
                (Sha256.blocks (Nat.div (List.length (Sha256.pad msg)) 64)
                   (Sha256.words (Sha256.pad msg))) Sha256.initial_hash).
  intros h Hh. change (List.length Sha256.initial_hash) with 8%nat in Hh.
  destruct h as [|a [|b [|c [|d [|e [|f [|g [|i [|j r]]]]]]]]]; try discriminate.
  reflexivity.
Qed.

Lemma base64_encode_length n : forall bs,
  (List.length bs <= n)%nat ->
  List.length (Base64.encode bs) = (4 * ((List.length bs + 2) / 3))%nat.
Proof.
  induction n as [n IH] using lt_wf_ind. intros bs Hn.
  destruct bs as [|a [|b [|c r]]]; try reflexivity.
  cbn [Base64.encode List.length]. rewrite (IH (List.length r)); [|cbn in Hn; lia|lia].
  replace (S (S (S (List.length r))) + 2)%nat with (1 * 3 + (List.length r + 2))%nat by lia.
  rewrite Nat.div_add_l by lia. lia.
Qed.

Lemma stringify_keys_object keys o :
  stringify_keys keys (JObj o)
  = 123 :: join 44
             (flat_map
                (fun k =>
                   match get k o with
                   | Some v => [quote k ++ 58 :: stringify_keys keys v]
                   | None =>
                       if str_eqb k proto_key
                       then [quote k ++ 58 :: inherited_proto]
                       else []
                   end) keys) ++ [125].
Proof.
  cbn [stringify_keys]. do 3 f_equal. apply flat_map_ext. intros k.
  induction o as [|[k' v] o IH]; cbn [map find get fst snd]; [reflexivity|].
  destruct (str_eqb k k'); [reflexivity | exact IH].
Qed.

(** An object is written from what [Get] finds under the keys of the list. *)
Lemma stringify_keys_ext keys o o' :
  (forall k, In k keys ->
     option_map (stringify_keys keys) (get k o)
     = option_map (stringify_keys keys) (get k o')) ->
  stringify_keys keys (JObj o) = stringify_keys keys (JObj o').
Proof.
  intros H. rewrite !stringify_keys_object. do 3 f_equal.
  assert (G : forall l, incl l keys ->
                flat_map
                  (fun k =>
                     match get k o with
                     | Some v => [quote k ++ 58 :: stringify_keys keys v]
                     | None =>
                         if str_eqb k proto_key
                         then [quote k ++ 58 :: inherited_proto]
                         else []
                     end) l
                = flat_map
                    (fun k =>
                       match get k o' with
                       | Some v => [quote k ++ 58 :: stringify_keys keys v]
                       | None =>
                           if str_eqb k proto_key
                           then [quote k ++ 58 :: inherited_proto]
                           else []
                       end) l).
  { induction l as [|k l IH]; intros Hl; cbn [flat_map]; [reflexivity|].
    rewrite IH by (intros x Hx; apply Hl; right; exact Hx).
    specialize (H k (Hl k (or_introl eq_refl))).
    destruct (get k o), (get k o'); cbn [option_map] in H; try discriminate;
      [inversion H as [E]; rewrite E|]; reflexivity. }
  apply G. apply incl_refl.
Qed.

Lemma stringify_keys_same keys (a : json) :
  forall b, well_keyed a = true -> same_content a b = true ->
    stringify_keys keys a = stringify_keys keys b.
Proof.
  induction a as [ | x | x | x | x | l IH | o IH ] using JsonFacts.json_induction;
    intros b Hw Hs.
  - destruct b; try discriminate. reflexivity.
  - destruct b as [ | y | | | | | ]; try discriminate. cbn [same_content] in Hs.
    apply Bool.eqb_prop in Hs. subst. reflexivity.
  - destruct b as [ | | y | | | | ]; try discriminate. cbn [same_content] in Hs.
    apply Z.eqb_eq in Hs. subst. reflexivity.
  - destruct b as [ | | | y | | | ]; try discriminate. cbn [same_content] in Hs.
    apply NumberFacts.eqb_eq in Hs. subst. reflexivity.
  - destruct b as [ | | | | y | | ]; try discriminate. cbn [same_content] in Hs.
    apply str_eqb_eq in Hs. subst. reflexivity.
  - destruct b as [ | | | | | l' | ]; try discriminate.
    apply ProtocolUtilsMore.same_content_items in Hs. cbn [well_keyed] in Hw.
    cbn [stringify_keys]. do 3 f_equal.
    revert Hw IH. induction Hs as [|x y l l' Hxy _ IHl]; intros Hw IH; [reflexivity|].
    cbn [forallb] in Hw. apply andb_true_iff in Hw as [Hx Hw].
    inversion IH as [|? ? Px Pl]; subst. cbn [map].
    rewrite (Px y Hx Hxy), (IHl Hw Pl). reflexivity.
  - destruct b as [ | | | | | | o' ]; try discriminate.
    cbn [well_keyed] in Hw. apply andb_true_iff in Hw as [Hd Hw].
    apply ProtocolUtilsMore.distinct_keys_NoDup in Hd.
    pose proof (ProtocolUtilsMore.same_content_keys o o' Hd Hs) as Hp.
    apply ProtocolUtilsMore.same_content_members in Hs as [_ Hs].
    apply stringify_keys_ext. intros k _.
    destruct (get k o) as [v|] eqn:E.
    + apply ProtocolUtilsMore.get_In in E.
      rewrite Forall_forall in Hs, IH. destruct (Hs _ E) as (v' & E' & Hv).
      cbn [fst snd] in E', Hv. rewrite E'. cbn [option_map]. f_equal.
      rewrite forallb_forall in Hw. exact (IH _ E v' (Hw _ E) Hv).
    + apply ProtocolUtilsMore.get_None in E.
      replace (get k o') with (@None json); [reflexivity|].
      symmetry. apply ProtocolUtilsMore.get_None. intros Hin. apply E.
      exact (Permutation_in _ (Permutation_sym Hp) Hin).
Qed.

(** X22.  A schema digest is the tag [model:] and the first 32 characters of a
    base64 text, 38 characters in all, which [parseProtocolDigest] reads as
    the digest of a model; and it does not depend on the order in which the
    model, or an object inside it, lists its keys. *)
Theorem computeSchemaDigest_key_order (model model' : record) :
  List.length (computeSchemaDigest model) = 38%nat
  /\ ProtocolUtils.type (ProtocolUtils.parseProtocolDigest (computeSchemaDigest model))
     = ProtocolUtils.type_model
  /\ Forall base64_char
       (ProtocolUtils.hash (ProtocolUtils.parseProtocolDigest (computeSchemaDigest model)))
  /\ (well_keyed (JObj model) = true ->
      same_content (JObj model) (JObj model') = true ->
      computeSchemaDigest model = computeSchemaDigest model').
Proof.
  split; [|split; [|split]].
  - unfold computeSchemaDigest. rewrite length_app, length_firstn.
    rewrite (base64_encode_length 32) by (rewrite digest_length; lia).
    rewrite digest_length. reflexivity.
  - reflexivity.
  - unfold computeSchemaDigest.
    match goal with
    | |- context [firstn 32 ?x] =>
        change (Forall base64_char (firstn 32 x));
        assert (Hall : Forall base64_char x)
          by (apply ProtocolUtilsMore.base64_encode_chars,
                ProtocolUtilsMore.sha256_bytes)
    end.
    rewrite Forall_forall in *. intros c Hc. apply Hall.
    apply ProtocolUtilsMore.in_firstn in Hc. exact Hc.
  - intros Hw Hs. unfold computeSchemaDigest.
    assert (Hd : NoDup (map fst model)).
    { cbn [well_keyed] in Hw. apply andb_true_iff in Hw as [Hd _].
      apply ProtocolUtilsMore.distinct_keys_NoDup. exact Hd. }
    rewrite (ProtocolUtilsMore.sort_keys_permutation (map fst model) (map fst model') Hd
               (ProtocolUtilsMore.same_content_keys model model' Hd Hs)).
    rewrite (stringify_keys_same _ (JObj model) (JObj model') Hw Hs). reflexivity.
Qed.

Lemma computeSchemaDigest_key_order_witness :
  computeSchemaDigest nested_schema = computeSchemaDigest nested_schema_reordered.
Proof.
  apply (proj2 (proj2 (proj2
    (computeSchemaDigest_key_order nested_schema nested_schema_reordered)))
    eq_refl eq_refl).
Defined.

Lemma get_same_text (f : json -> jsstring) before k v v' after key :
  f v = f v' ->
  option_map f (get key (before ++ (k, v) :: after))
  = option_map f (get key (before ++ (k, v') :: after)).
Proof.
  intros E. induction before as [|[k0 v0] before IH]; cbn [app get].
  - destruct (str_eqb key k); [|reflexivity]. cbn [option_map]. rewrite E. reflexivity.
  - destruct (str_eqb key k0); [reflexivity | exact IH].
Qed.

(** X23.  The keys of the model are the only keys that the digest reads, at any
    depth: an object held by a property of the model counts only through
    its properties that are named like a key of the model itself.  Two
    models that differ in other nested properties have the same digest. *)
Theorem computeSchemaDigest_nested_keys
  (before after : record) (k : jsstring) (o o' : record) :
  (forall key, In key (map fst (before ++ (k, JObj o) :: after)) ->
               get key o = get key o') ->
  computeSchemaDigest (before ++ (k, JObj o) :: after)
  = computeSchemaDigest (before ++ (k, JObj o') :: after).
Proof.
  intros H. unfold computeSchemaDigest.
  assert (Ek : map fst (before ++ (k, JObj o') :: after)
               = map fst (before ++ (k, JObj o) :: after))
    by (rewrite !map_app; reflexivity).
  rewrite Ek.
  set (keys := ProtocolUtils.new_Set
                 (sort str_leb (map fst (before ++ (k, JObj o) :: after)))).
  assert (Hk : forall key, In key keys ->
                 In key (map fst (before ++ (k, JObj o) :: after))).
  { intros key Hin. apply ProtocolUtilsFacts.set_has_spec in Hin.
    apply ProtocolUtilsFacts.new_Set_spec in Hin. apply sort_incl in Hin. exact Hin. }
  assert (Eo : stringify_keys keys (JObj o) = stringify_keys keys (JObj o')).
  { apply stringify_keys_ext. intros key Hin. rewrite (H key (Hk key Hin)).
    reflexivity. }
  assert (Et : stringify_keys keys (JObj (before ++ (k, JObj o) :: after))
               = stringify_keys keys (JObj (before ++ (k, JObj o') :: after))).
  { apply stringify_keys_ext. intros key _. apply get_same_text. exact Eo. }
  rewrite Et. reflexivity.
Qed.

Lemma computeSchemaDigest_nested_keys_witness :
  computeSchemaDigest point_model = computeSchemaDigest label_model.
Proof.
  apply (computeSchemaDigest_nested_keys [(u "type", JStr (u "object"))] []
           (u "properties")
           [(u "x", JStr (u "number")); (u "y", JStr (u "number"))]
           [(u "label", JStr (u "string"))]).
  intros key [H | [H | []]]; subst key; reflexivity.
Defined.

End MessageUtilsMore.

(** ** The models on known values *)

Module Examples.

Import ProtocolUtils MessageUtils Samples.

Example sha256_abc :
  hex (Sha256.digest (u "abc"))
  = u "ba7816bf8f01cfea414140de5dae2223b00361a396177a9cb410ff61f20015ad".
Proof. vm_compute. reflexivity. Qed.

Example encodePayload_message :
  encodePayload [(u "message", JStr (u "test"))] = u "eyJtZXNzYWdlIjoidGVzdCJ9".
Proof. vm_compute. reflexivity. Qed.

Example stringify_escapes :
  stringify (JObj [(u "2", JObj []); (u "k", JStr [34; 10; 31; 56832; 233])])
  = text "{'2':{},'k':'\'\n\u001f\ude00" ++ [233] ++ text "'}".
Proof. vm_compute. reflexivity. Qed.

Example parse_property_order :
  parse (text "{ 'b': [1, -20, true, null], '10': 'x', '2': {}, 'b': 0 }")
  = Normal (JObj [(u "2", JObj []); (u "10", JStr (u "x")); (u "b", JNum 0)]).
Proof. vm_compute. reflexivity. Qed.

(** Fractions and exponents are read; a safe integer is [JNum] however it
    is written; a literal beyond the safe integers is rounded, and one
    beyond the format is infinite. *)
Example parse_numbers :
  parse (text "{'x':1.5,'y':1e2,'z':-0,'w':9007199254740993,'v':1e400,'t':2.50}")
  = Normal (JObj [(u "x", JDbl (Number.Finite false 3 (- 1)));
                  (u "y", JNum 100);
                  (u "z", JDbl (Number.Zero true));
                  (u "w", JDbl (Number.Finite false 1 53));
                  (u "v", JDbl (Number.Infinity false));
                  (u "t", JDbl (Number.Finite false 5 (- 1)))]).
Proof. vm_compute. reflexivity. Qed.

Example parse_refuses_malformed_numbers :
  map (fun s => parse (text s)) ["[01]"; "[1.]"; "[.5]"; "[1e]"; "[+1]"; "[-]"]%string
  = repeat (Throw syntax_error) 6.
Proof. vm_compute. reflexivity. Qed.

(** [Number::toString] writes the shortest digits that denote the value,
    and an exponent from [1e21] on and below [1e-6]. *)
Example to_string_shortest :
  map (fun q => Number.to_string (Number.round false q))
    [Number.decimal 1 (- 1); Number.decimal 30000000000000004 (- 17);
     Number.decimal 123456789012345678901 0; Number.decimal 1 21;
     Number.decimal 12 (- 8); Number.decimal 9007199254740993 0]
  = [u "0.1"; u "0.30000000000000004"; u "123456789012345680000"; u "1e+21";
     u "1.2e-7"; u "9007199254740992"].
Proof. vm_compute. reflexivity. Qed.

Example stringify_numbers :
  stringify (JArr [JNum (- 12); JNum (10 ^ 21); JDbl (Number.Zero true);
                   JDbl Number.NaN; JDbl (Number.Infinity true);
                   JDbl (Number.Finite true 3 (- 1))])
  = u "[-12,1e+21,0,null,null,-1.5]".
Proof. vm_compute. reflexivity. Qed.

(** Keys are sorted at every level, and an array inside an array becomes
    an object. *)
Example canonicalizeSchema_nested :
  stringify
    (JObj (canonicalizeSchema
             [(u "z", JArr [JNum 1; JObj [(u "b", JNum 2); (u "a", JNull)];
                            JArr [JStr (u "x"); JStr (u "y")]]);
              (u "a", JObj [(u "q", JBool true); (u "c", JNum 0)])]))
  = text "{'a':{'c':0,'q':true},'z':[1,{'a':null,'b':2},{'0':'x','1':'y'}]}".
Proof. vm_compute. reflexivity. Qed.

Example computeModelDigest_request :
  computeModelDigest (model (u "Request") [(u "foo", JStr (u "string"))])
  = u "model:wIC3hIQWqgNQbFr95Ba7yYOMv72BB0y7".
Proof. vm_compute. reflexivity. Qed.

Example createProtocolManifest_model1 :
  ProtocolManifest.digest
    (createProtocolManifest Collation.compare (u "model1") (u "1.0") request_response
       None None)
  = u "proto:kL6dQb6ie39o2X4pvNU2FfXGwLn6nXI1".
Proof. vm_compute. reflexivity. Qed.

Example createEnvelope_sample :
  fst (createEnvelope (u "agent1qsender") (u "agent1qtarget")
         [(u "message", JStr (u "test"))] (u "model:test123") no_options sample_world)
  = {| AgentEnvelope.version := 1;
       AgentEnvelope.sender := u "agent1qsender";
       AgentEnvelope.target := u "agent1qtarget";
       AgentEnvelope.session := u "0b30557a-9fc4-490e-b358-7da2c7ec1136";
       AgentEnvelope.schemaDigest := u "model:test123";
       AgentEnvelope.protocolDigest := None;
       AgentEnvelope.payload := u "eyJtZXNzYWdlIjoidGVzdCJ9";
       AgentEnvelope.expires := Some 1700000300;
       AgentEnvelope.nonce := Some (u "5b80a5caef14395e83a8cdf2173c6186");
       AgentEnvelope.signature := None |}.
Proof. vm_compute. reflexivity. Qed.

(** The digest of a model covers its name: the same schema under another
    name does not match, and neither does the same name over another
    schema. *)
Example areProtocolsCompatible_names :
  areProtocolsCompatible
    (manifest [model (u "Request") [(u "foo", JStr (u "string"))]])
    (manifest [model (u "Request") [(u "foo", JStr (u "string"))]]) = true
  /\ areProtocolsCompatible
       (manifest [model (u "Request") [(u "foo", JStr (u "string"))]])
       (manifest [model (u "Query") [(u "foo", JStr (u "string"))]]) = false
  /\ areProtocolsCompatible
       (manifest [model (u "Request") [(u "foo", JStr (u "string"))]])
       (manifest [model (u "Request") [(u "bar", JStr (u "string"))]]) = false.
Proof. vm_compute. repeat split. Qed.

End Examples.
